(** * Blinko extension: the offline retry queue

  A shallow embedding of [src/utils/offline-queue.js] (store, queue
  manager, retry policy), of the queue-facing part of
  [src/utils/api-client.js] ([createNote], [tryEnqueueNote]) and of the
  retry orchestrator and its driver in [src/background.js]
  ([retryQueueItem], [processQueueOnStartup], the listeners that start a
  pass, and [compareVersions]).

  Conventions.
  - JavaScript numbers that the code only uses as integers (timestamps,
    counters, sizes, delays) are [Z]; item ids are [Q], because the
    fallback store builds them as [Date.now() + Math.random()].
  - [undefined] is [None]; a JavaScript string is a [string] of bytes.
  - Every asynchronous function is run to completion before the next one
    starts: the code awaits each call, and the interleavings that matter
    (a timer firing between two driver passes) are sequences of such runs.
  - Storage requests are followed along their [onsuccess] path; the
    [onerror] handlers and the [catch] blocks that only log and return a
    failure value are transient faults of the host outside this model.
    The one storage failure the code gives a behaviour of its own, the
    database that cannot be opened, is modelled ([idb_openable]). *)

From Stdlib Require Import ZArith QArith String List Bool Lia DecimalString Arith.
From Stdlib Require Import Sorted Permutation Ascii Qround.
Import ListNotations.

Local Open Scope string_scope.
Local Open Scope Z_scope.

(** ** JavaScript helpers *)

Module Js.

(** [list[index]] on an array: [undefined] outside the array. *)
Definition array_get {A : Type} (l : list A) (index : Z) : option A :=
  if index <? 0 then None else nth_error l (Z.to_nat index).

(** [array.length]. *)
Definition array_length {A : Type} (l : list A) : Z := Z.of_nat (List.length l).

(** [String(n)] for an integer [n], as template literals print it. *)
Definition number_to_string (n : Z) : string :=
  NilZero.string_of_int (Z.to_int n).

(** [a || b] on numbers: [0] is the falsy one. *)
Definition or_number (a b : Z) : Z := if a =? 0 then b else a.

(** [a || b] where [a] may be [undefined]. *)
Definition or_undefined {A : Type} (a : option A) (b : A) : A :=
  match a with Some v => v | None => b end.

(** What a property read [literal[key]] finds when [literal] is an object
    literal: an own property, a member inherited from [Object.prototype],
    or nothing. *)
Inductive Inherited : Type :=
| ProtoFunction (name : string) (arity : Z)   (* a method; [arity] is its [length] *)
| ProtoObject.                                (* [__proto__]: the prototype itself *)

Inductive Property (A : Type) : Type :=
| Own (a : A)
| FromPrototype (m : Inherited)
| Missing.
Arguments Own {A} a.
Arguments FromPrototype {A} m.
Arguments Missing {A}.

(** The properties every object literal inherits from [Object.prototype]. *)
Definition Object_prototype : list (string * Inherited) :=
  [ ("constructor", ProtoFunction "Object" 1);
    ("__defineGetter__", ProtoFunction "__defineGetter__" 2);
    ("__defineSetter__", ProtoFunction "__defineSetter__" 2);
    ("hasOwnProperty", ProtoFunction "hasOwnProperty" 1);
    ("__lookupGetter__", ProtoFunction "__lookupGetter__" 1);
    ("__lookupSetter__", ProtoFunction "__lookupSetter__" 1);
    ("isPrototypeOf", ProtoFunction "isPrototypeOf" 1);
    ("propertyIsEnumerable", ProtoFunction "propertyIsEnumerable" 1);
    ("toString", ProtoFunction "toString" 0);
    ("valueOf", ProtoFunction "valueOf" 0);
    ("__proto__", ProtoObject);
    ("toLocaleString", ProtoFunction "toLocaleString" 0) ].

Fixpoint assoc {A : Type} (key : string) (l : list (string * A)) : option A :=
  match l with
  | [] => None
  | (k, v) :: rest => if String.eqb k key then Some v else assoc key rest
  end.

(** [literal[key]]: own properties first, then the prototype. *)
Definition get {A : Type} (literal : list (string * A)) (key : string) : Property A :=
  match assoc key literal with
  | Some v => Own v
  | None =>
      match assoc key Object_prototype with
      | Some m => FromPrototype m
      | None => Missing
      end
  end.

(** [key] names nothing on [Object.prototype]. *)
Definition plain_key (key : string) : bool :=
  match assoc key Object_prototype with Some _ => false | None => true end.

(** A JavaScript number: a finite value, one of the infinities or [NaN].
    The finite doubles are rationals, and [<] on them is the order of the
    rationals. *)
Inductive JsNumber : Type :=
| NaN
| Finite (q : Q)
| PlusInfinity
| MinusInfinity.

(** [a < b] on numbers: [false] whenever [NaN] is compared. *)
Definition number_lt (a b : JsNumber) : bool :=
  match a, b with
  | NaN, _ | _, NaN => false
  | MinusInfinity, MinusInfinity => false
  | MinusInfinity, _ => true
  | _, MinusInfinity => false
  | PlusInfinity, _ => false
  | Finite _, PlusInfinity => true
  | Finite p, Finite q => negb (Qle_bool q p)
  end.

(** [a > b]. *)
Definition number_gt (a b : JsNumber) : bool := number_lt b a.

(** The numbers [||] passes over: [0], [-0] and [NaN]. *)
Definition number_falsy (a : JsNumber) : bool :=
  match a with
  | NaN => true
  | Finite q => Qeq_bool q 0
  | PlusInfinity | MinusInfinity => false
  end.

(** Not [NaN]. *)
Definition is_number (a : JsNumber) : bool :=
  match a with NaN => false | _ => true end.

(** [parts[i] || 0], where [parts[i]] is [undefined] outside the array. *)
Definition or_zero (a : option JsNumber) : JsNumber :=
  match a with
  | Some n => if number_falsy n then Finite 0 else n
  | None => Finite 0
  end.

(** [s.split('.')]: the pieces between the dots, one piece more than
    there are dots. *)
Fixpoint split_dot (s : string) : list string :=
  match s with
  | EmptyString => [EmptyString]
  | String c rest =>
      if Ascii.eqb c "."%char then EmptyString :: split_dot rest
      else match split_dot rest with
           | first :: others => String c first :: others
           | [] => [String c EmptyString]
           end
  end.

End Js.

(** ** Retry policy ([calculateRetryDelay], [shouldRetry]) *)

Module Policy.
Import Js.

(** [delays.standard]. *)
Definition delays_standard : list Z := [1000; 2000; 4000; 8000; 16000; 32000].

(** The [delays] literal of [calculateRetryDelay]. *)
Definition delays : list (string * list Z) :=
  [ ("conservative", [1000; 2000; 4000]);
    ("standard", delays_standard);
    ("aggressive", [1000; 1000; 2000; 2000; 4000; 8000; 16000; 32000; 60000; 120000]) ].

(** The [maxRetries] literal of [shouldRetry]. *)
Definition maxRetries : list (string * Z) :=
  [ ("conservative", 3); ("standard", 6); ("aggressive", 10) ].

(** [calculateRetryDelay(retryCount, strategy = 'standard')].  The result
    is [None] where the JavaScript expression yields [undefined].

    [delays[strategy] || delays.standard] keeps whatever truthy value the
    lookup finds.  An inherited member is truthy but holds nothing at a
    numeric index, so [delayList[index]] is [undefined] whatever the
    index [Math.min] computes from its [length]. *)
Definition calculateRetryDelay (retryCount : Z) (strategy : option string) : option Z :=
  let strategy := or_undefined strategy "standard" in
  match get delays strategy with
  | Own delayList =>
      let index := Z.min retryCount (array_length delayList - 1) in
      array_get delayList index
  | FromPrototype _ => None
  | Missing =>
      let delayList := delays_standard in
      let index := Z.min retryCount (array_length delayList - 1) in
      array_get delayList index
  end.

(** [shouldRetry(retryCount, strategy = 'standard')].

    [maxRetries[strategy] || 6]: an inherited member is truthy and stays;
    compared with a number it converts to [NaN], and [retryCount < NaN]
    is [false]. *)
Definition shouldRetry (retryCount : Z) (strategy : option string) : bool :=
  let strategy := or_undefined strategy "standard" in
  match get maxRetries strategy with
  | Own n => retryCount <? or_number n 6
  | FromPrototype _ => false
  | Missing => retryCount <? 6
  end.

(** The strategy's maximum retry count, for the three named strategies. *)
Definition named_max (strategy : string) : option Z := assoc strategy maxRetries.

(** The strategy's delay list, for the three named strategies. *)
Definition named_delays (strategy : string) : option (list Z) := assoc strategy delays.

End Policy.

(** ** Data model and host state *)

Module Model.

(** [status]: one of the four strings the code writes. *)
Inductive Status : Type := Pending | Retrying | Success | Failed.

Definition Status_eqb (a b : Status) : bool :=
  match a, b with
  | Pending, Pending | Retrying, Retrying | Success, Success | Failed, Failed => true
  | _, _ => false
  end.

(** A stored queue record, as [enqueue] builds it. *)
Record QueueItem : Type := mkItem {
  id : Q;
  content : string;
  type : Z;
  tags : string;
  url : string;
  title : string;
  status : Status;
  createdAt : Z;
  updatedAt : Z;
  retryCount : Z;
  lastError : string;
  metadata : list (string * string)
}.

(** The argument of [enqueue]: [{content, type, tags, url, title, metadata}],
    every field but [content] possibly absent. *)
Record NoteRequest : Type := mkRequest {
  req_content : string;
  req_type : option Z;
  req_tags : option string;
  req_url : option string;
  req_title : option string;
  req_metadata : option (list (string * string))
}.

(** The [updates] argument of [updateItem]: an object that may name any
    field of a record, [id] included, each with a value of the field's
    type; [None] is a key the object does not have. *)
Record Updates : Type := mkFields {
  set_id : option Q;
  set_content : option string;
  set_type : option Z;
  set_tags : option string;
  set_url : option string;
  set_title : option string;
  set_status : option Status;
  set_createdAt : option Z;
  set_updatedAt : option Z;
  set_retryCount : option Z;
  set_lastError : option string;
  set_metadata : option (list (string * string))
}.

(** The object literals the orchestrator passes: [status], [retryCount]
    and [lastError], each possibly left out, and no other key. *)
Definition mkUpdates (new_status : option Status) (new_retryCount : option Z)
           (new_lastError : option string) : Updates :=
  mkFields None None None None None None new_status None None new_retryCount new_lastError
           None.

(** [offline_queue_settings]. *)
Record QueueSettings : Type := mkSettings {
  maxSize : option Z;
  autoRetry : option bool;
  retryStrategy : option string;
  successRetention : option Z;
  failureNotification : option string
}.

(** How one [fetch] of the note endpoint ends, [response.json()]
    included where the code calls it: a response that is [ok] and whose
    body is JSON, a response that is [ok] and whose body [response.json()]
    rejects with a message, a response that is not [ok] with its status,
    or a [fetch] that throws with a message. *)
Inductive FetchOutcome : Type :=
| ResponseOk
| ResponseOkNotJson (error_message : string)
| ResponseStatus (code : Z)
| FetchThrows (error_message : string).

(** What [retryQueuedNote] resolves to: [{success, message}]. *)
Record DeliveryResult : Type := mkDelivery {
  success : bool;
  message : string
}.

(** What [enqueue] resolves to: [{success: true, id}] or
    [{success: false, message}]. *)
Inductive EnqueueResult : Type :=
| Accepted (new_id : Q)
| Rejected (reason : string).

(** A timer set by [setTimeout(() => retryQueueItem(item), delay)]: the
    closure keeps the very object [item] it was created with. *)
Record Timer : Type := mkTimer {
  timer_item : QueueItem;
  timer_delay : option Z
}.

(** The extension's module state and the host it runs on. *)
Record World : Type := mkWorld {
  (* offline-queue.js module variables *)
  db : bool;                                  (* [db !== null] *)
  useFallback : bool;
  (* the host's persistent storage *)
  idb_openable : bool;                        (* [indexedDB.open] succeeds *)
  idb_items : list QueueItem;                 (* object store [queue_items], in key order *)
  idb_next_key : Z;                           (* its [autoIncrement] key generator *)
  fallback_slot : option (list QueueItem);    (* [offline_queue_fallback] *)
  settings_slot : option QueueSettings;       (* [offline_queue_settings] *)
  (* what the host answers, call after call *)
  clock : nat -> Z;                           (* [Date.now()] *)
  clock_reads : nat;
  random : nat -> Q;                          (* [Math.random()] *)
  random_reads : nat;
  network : nat -> FetchOutcome;              (* [fetch] of the note endpoint *)
  network_calls : nat;
  (* timers set and not yet fired *)
  timers : list Timer
}.

Definition with_db (v : bool) (w : World) : World :=
  mkWorld v (useFallback w) (idb_openable w) (idb_items w) (idb_next_key w)
    (fallback_slot w) (settings_slot w) (clock w) (clock_reads w)
    (random w) (random_reads w) (network w) (network_calls w) (timers w).

Definition with_useFallback (v : bool) (w : World) : World :=
  mkWorld (db w) v (idb_openable w) (idb_items w) (idb_next_key w)
    (fallback_slot w) (settings_slot w) (clock w) (clock_reads w)
    (random w) (random_reads w) (network w) (network_calls w) (timers w).

Definition with_idb (items : list QueueItem) (next : Z) (w : World) : World :=
  mkWorld (db w) (useFallback w) (idb_openable w) items next
    (fallback_slot w) (settings_slot w) (clock w) (clock_reads w)
    (random w) (random_reads w) (network w) (network_calls w) (timers w).

Definition with_fallback_slot (v : option (list QueueItem)) (w : World) : World :=
  mkWorld (db w) (useFallback w) (idb_openable w) (idb_items w) (idb_next_key w)
    v (settings_slot w) (clock w) (clock_reads w)
    (random w) (random_reads w) (network w) (network_calls w) (timers w).

Definition with_settings_slot (v : option QueueSettings) (w : World) : World :=
  mkWorld (db w) (useFallback w) (idb_openable w) (idb_items w) (idb_next_key w)
    (fallback_slot w) v (clock w) (clock_reads w)
    (random w) (random_reads w) (network w) (network_calls w) (timers w).

Definition with_clock_reads (v : nat) (w : World) : World :=
  mkWorld (db w) (useFallback w) (idb_openable w) (idb_items w) (idb_next_key w)
    (fallback_slot w) (settings_slot w) (clock w) v
    (random w) (random_reads w) (network w) (network_calls w) (timers w).

Definition with_random_reads (v : nat) (w : World) : World :=
  mkWorld (db w) (useFallback w) (idb_openable w) (idb_items w) (idb_next_key w)
    (fallback_slot w) (settings_slot w) (clock w) (clock_reads w)
    (random w) v (network w) (network_calls w) (timers w).

Definition with_network_calls (v : nat) (w : World) : World :=
  mkWorld (db w) (useFallback w) (idb_openable w) (idb_items w) (idb_next_key w)
    (fallback_slot w) (settings_slot w) (clock w) (clock_reads w)
    (random w) (random_reads w) (network w) v (timers w).

Definition with_timers (v : list Timer) (w : World) : World :=
  mkWorld (db w) (useFallback w) (idb_openable w) (idb_items w) (idb_next_key w)
    (fallback_slot w) (settings_slot w) (clock w) (clock_reads w)
    (random w) (random_reads w) (network w) (network_calls w) v.

(** *** The monad of host effects *)

Definition M (A : Type) : Type := World -> A * World.

Definition ret {A : Type} (a : A) : M A := fun w => (a, w).

Definition bind {A B : Type} (m : M A) (k : A -> M B) : M B :=
  fun w => let (a, w') := m w in k a w'.

Definition exec {A : Type} (m : M A) (w : World) : World := snd (m w).
Definition eval {A : Type} (m : M A) (w : World) : A := fst (m w).

End Model.

Declare Scope host_scope.
Delimit Scope host_scope with host.
Notation "x <- m ;; k" := (Model.bind m (fun x => k))
(at level 61, m at next level, right associativity) : host_scope.
Notation "m ;;; k" := (Model.bind m (fun _ => k))
(at level 61, right associativity) : host_scope.

(** ** The queue manager ([src/utils/offline-queue.js]) *)

Module OfflineQueue.
Import Js Model.
Local Open Scope host_scope.

Definition DEFAULT_MAX_QUEUE_SIZE : Z := 100.
Definition MAX_RETRY_COUNT : Z := 6.

(** *** Host primitives *)

(** [Date.now()]. *)
Definition Date_now : M Z :=
  fun w => (clock w (clock_reads w), with_clock_reads (S (clock_reads w)) w).

(** [Math.random()]. *)
Definition Math_random : M Q :=
  fun w => (random w (random_reads w), with_random_reads (S (random_reads w)) w).

(** [chrome.storage.local.get('offline_queue_fallback')]. *)
Definition storage_get_fallback : M (option (list QueueItem)) :=
  fun w => (fallback_slot w, w).

(** [chrome.storage.local.set({ offline_queue_fallback: queue })]. *)
Definition storage_set_fallback (queue : list QueueItem) : M unit :=
  fun w => (tt, with_fallback_slot (Some queue) w).

(** [chrome.storage.local.get('offline_queue_settings')]. *)
Definition storage_get_settings : M (option QueueSettings) :=
  fun w => (settings_slot w, w).

Definition read_useFallback : M bool := fun w => (useFallback w, w).

(** [a === b] and [a !== b] on ids. *)
Definition id_eq (a b : Q) : bool := Qeq_bool a b.
Definition id_neq (a b : Q) : bool := negb (Qeq_bool a b).

(** [store.getAll()]. *)
Definition idb_getAll : M (list QueueItem) := fun w => (idb_items w, w).

(** [store.get(id)]. *)
Definition idb_get (key : Q) : M (option QueueItem) :=
  fun w => (find (fun item => id_eq (id item) key) (idb_items w), w).

(** [store.add(queueItem)] on a store with [keyPath: 'id'] and
    [autoIncrement: true]: the generator's key becomes the record's [id]. *)
Definition idb_add (queueItem : Q -> QueueItem) : M Q :=
  fun w =>
    let key := inject_Z (idb_next_key w) in
    (key, with_idb (idb_items w ++ [queueItem key]) (idb_next_key w + 1) w).

Fixpoint replace_record (record : QueueItem) (items : list QueueItem) : list QueueItem :=
  match items with
  | [] => []
  | item :: rest =>
      if id_eq (id item) (id record) then record :: rest
      else item :: replace_record record rest
  end.

(** A record put under a key the store does not hold takes its place in
    key order. *)
Fixpoint insert_by_key (record : QueueItem) (items : list QueueItem) : list QueueItem :=
  match items with
  | [] => [record]
  | item :: rest =>
      if negb (Qle_bool (id item) (id record)) then record :: items
      else item :: insert_by_key record rest
  end.

(** [store.put(item)] on a store with [keyPath: 'id']: the record of key
    [item.id] is replaced where it is, and a key the store does not hold
    gets a new record.  A key at or past the key generator moves the
    generator to the next integer after it. *)
Definition idb_put (record : QueueItem) : M unit :=
  fun w =>
    let items :=
      if existsb (fun item => id_eq (id item) (id record)) (idb_items w)
      then replace_record record (idb_items w)
      else insert_by_key record (idb_items w) in
    (tt, with_idb items (Z.max (idb_next_key w) (Qfloor (id record) + 1)) w).

(** [store.delete(id)]. *)
Definition idb_delete (key : Q) : M unit :=
  fun w => (tt, with_idb (filter (fun item => id_neq (id item) key) (idb_items w))
                         (idb_next_key w) w).

(** *** [initDB]: whether a database handle is at hand afterwards *)
Definition initDB : M bool :=
  fun w =>
    if db w then (true, w)
    else if idb_openable w then (true, with_db true w)
    else (false, with_useFallback true w).

(** *** [getQueue] *)

(** [items.sort((a, b) => b.createdAt - a.createdAt)]: stable, newest first. *)
Fixpoint insert_by_createdAt (x : QueueItem) (sorted : list QueueItem) : list QueueItem :=
  match sorted with
  | [] => [x]
  | y :: rest =>
      if createdAt x <? createdAt y then y :: insert_by_createdAt x rest
      else x :: sorted
  end.

Definition sort_newest_first (items : list QueueItem) : list QueueItem :=
  fold_right insert_by_createdAt [] items.

(** [statusFilter]: [None] is ['all']. *)
Definition filter_status (statusFilter : option Status) (items : list QueueItem)
  : list QueueItem :=
  match statusFilter with
  | None => items
  | Some s => filter (fun item => Status_eqb (status item) s) items
  end.

Definition getQueueFallback (statusFilter : option Status) : M (list QueueItem) :=
  result <- storage_get_fallback ;;
  let items := or_undefined result [] in
  let items := filter_status statusFilter items in
  ret (sort_newest_first items).

Definition getQueue (statusFilter : option Status) : M (list QueueItem) :=
  fallback <- read_useFallback ;;
  if fallback then getQueueFallback statusFilter
  else
    opened <- initDB ;;
    if negb opened then getQueueFallback statusFilter
    else
      items <- idb_getAll ;;
      let items := filter_status statusFilter items in
      ret (sort_newest_first items).

Definition getQueueSize : M Z :=
  queue <- getQueue None ;;
  ret (array_length queue).

(** *** [checkDuplicate] *)
Definition fiveMinutes : Z := 5 * 60 * 1000.

Definition checkDuplicate (text : string) : M bool :=
  queue <- getQueue None ;;
  now <- Date_now ;;
  ret (existsb (fun item => String.eqb (content item) text
                            && (now - createdAt item <? fiveMinutes)) queue).

(** *** Settings *)
Definition getMaxQueueSize : M Z :=
  result <- storage_get_settings ;;
  match result with
  | None => ret DEFAULT_MAX_QUEUE_SIZE          (* [{}.maxSize || 100] *)
  | Some settings => ret (or_number (or_undefined (maxSize settings) 0) DEFAULT_MAX_QUEUE_SIZE)
  end.

Definition default_settings : QueueSettings :=
  mkSettings (Some 100) (Some true) (Some "standard") (Some 180000) (Some "final").

Definition getQueueSettings : M QueueSettings :=
  result <- storage_get_settings ;;
  ret (or_undefined result default_settings).

(** *** [enqueue] *)

Definition msg_queue_full (maxSize : Z) : string :=
  "队列已满（" ++ number_to_string maxSize ++ "条），请清理后重试".
Definition msg_duplicate : string := "该笔记已在队列中".
Definition msg_fallback_full : string := "队列已满（降级模式限制50条）".

Definition enqueueFallback (item : Q -> QueueItem) : M EnqueueResult :=
  result <- storage_get_fallback ;;
  let queue := or_undefined result [] in
  if array_length queue >=? 50 then ret (Rejected msg_fallback_full)
  else
    now <- Date_now ;;
    r <- Math_random ;;
    let new_id := (inject_Z now + r)%Q in
    storage_set_fallback (queue ++ [item new_id]) ;;;
    ret (Accepted new_id).

Definition enqueue (item : NoteRequest) : M EnqueueResult :=
  queueSize <- getQueueSize ;;
  maxSize <- getMaxQueueSize ;;
  if queueSize >=? maxSize then ret (Rejected (msg_queue_full maxSize))
  else
    isDuplicate <- checkDuplicate (req_content item) ;;
    if isDuplicate then ret (Rejected msg_duplicate)
    else
      created <- Date_now ;;
      updated <- Date_now ;;
      let queueItem := fun new_id =>
        mkItem new_id
               (req_content item)
               (or_number (or_undefined (req_type item) 0) 0)
               (or_undefined (req_tags item) "")
               (or_undefined (req_url item) "")
               (or_undefined (req_title item) "")
               Pending created updated 0 ""
               (or_undefined (req_metadata item) []) in
      fallback <- read_useFallback ;;
      if fallback then enqueueFallback queueItem
      else
        opened <- initDB ;;
        if negb opened then enqueueFallback queueItem
        else
          key <- idb_add queueItem ;;
          ret (Accepted key).

(** *** [dequeue] *)

Definition dequeueFallback (key : Q) : M bool :=
  result <- storage_get_fallback ;;
  let queue := or_undefined result [] in
  let filtered := filter (fun item => id_neq (id item) key) queue in
  storage_set_fallback filtered ;;;
  ret true.

Definition dequeue (key : Q) : M bool :=
  fallback <- read_useFallback ;;
  if fallback then dequeueFallback key
  else
    opened <- initDB ;;
    if negb opened then dequeueFallback key
    else
      idb_delete key ;;;
      ret true.

(** *** [updateItem] *)

(** [Object.assign(item, updates, { updatedAt: now })]: every key of
    [updates] is copied over the item, then [updatedAt], so an [updatedAt]
    in [updates] is lost. *)
Definition assign (item : QueueItem) (updates : Updates) (now : Z) : QueueItem :=
  mkItem (or_undefined (set_id updates) (id item))
         (or_undefined (set_content updates) (content item))
         (or_undefined (set_type updates) (type item))
         (or_undefined (set_tags updates) (tags item))
         (or_undefined (set_url updates) (url item))
         (or_undefined (set_title updates) (title item))
         (or_undefined (set_status updates) (status item))
         (or_undefined (set_createdAt updates) (createdAt item))
         now
         (or_undefined (set_retryCount updates) (retryCount item))
         (or_undefined (set_lastError updates) (lastError item))
         (or_undefined (set_metadata updates) (metadata item)).

(** [queue.findIndex(p)]: [None] is [-1]. *)
Fixpoint findIndex (p : QueueItem -> bool) (queue : list QueueItem) : option nat :=
  match queue with
  | [] => None
  | item :: rest =>
      if p item then Some O else option_map S (findIndex p rest)
  end.

(** [queue[index] = f(queue[index])]. *)
Fixpoint update_at (index : nat) (f : QueueItem -> QueueItem) (queue : list QueueItem)
  : list QueueItem :=
  match queue, index with
  | [], _ => []
  | item :: rest, O => f item :: rest
  | item :: rest, S n => item :: update_at n f rest
  end.

Definition updateItemFallback (key : Q) (updates : Updates) : M bool :=
  result <- storage_get_fallback ;;
  let queue := or_undefined result [] in
  match findIndex (fun item => id_eq (id item) key) queue with
  | None => ret false
  | Some index =>
      now <- Date_now ;;
      storage_set_fallback (update_at index (fun item => assign item updates now) queue) ;;;
      ret true
  end.

Definition updateItem (key : Q) (updates : Updates) : M bool :=
  fallback <- read_useFallback ;;
  if fallback then updateItemFallback key updates
  else
    opened <- initDB ;;
    if negb opened then updateItemFallback key updates
    else
      found <- idb_get key ;;
      match found with
      | None => ret false
      | Some item =>
          now <- Date_now ;;
          idb_put (assign item updates now) ;;;
          ret true
      end.

(** *** [cleanup] *)

(** The [options] argument of [cleanup]: [{olderThan, status}], either
    possibly absent.  A [status] that is none of the four the code writes
    matches no item, like an absent one. *)
Record CleanupOptions : Type := mkCleanupOptions {
  olderThan : option Z;
  cleanup_status : option Status
}.

Definition threeMinutes : Z := 3 * 60 * 1000.

(** The value of [shouldRemove] at the end of one turn of the loop. *)
Definition shouldRemove (options : CleanupOptions) (now : Z) (item : QueueItem) : bool :=
  let shouldRemove := false in
  let shouldRemove :=
    if Status_eqb (status item) Success then
      if now - updatedAt item >? threeMinutes then true else shouldRemove
    else shouldRemove in
  let shouldRemove :=
    match cleanup_status options with
    | Some wanted => if Status_eqb (status item) wanted then true else shouldRemove
    | None => shouldRemove
    end in
  let shouldRemove :=
    match olderThan options with
    | Some age =>
        if negb (age =? 0) && (now - createdAt item >? age) then true else shouldRemove
    | None => shouldRemove
    end in
  shouldRemove.

(** [for (const item of queue) { ... if (shouldRemove) { await dequeue(item.id); removed++; } }]. *)
Fixpoint cleanup_loop (options : CleanupOptions) (now : Z) (queue : list QueueItem)
         (removed : Z) : M Z :=
  match queue with
  | [] => ret removed
  | item :: rest =>
      if shouldRemove options now item then
        dequeue (id item) ;;;
        cleanup_loop options now rest (removed + 1)
      else cleanup_loop options now rest removed
  end.

Definition cleanup (options : CleanupOptions) : M Z :=
  queue <- getQueue None ;;
  now <- Date_now ;;
  cleanup_loop options now queue 0.

(** [cleanup()]: [options = {}]. *)
Definition no_options : CleanupOptions := mkCleanupOptions None None.

(** *** [saveQueueSettings], [clearQueue], [isIndexedDBAvailable] *)

(** [chrome.storage.local.set({ offline_queue_settings: settings })]. *)
Definition storage_set_settings (settings : QueueSettings) : M unit :=
  fun w => (tt, with_settings_slot (Some settings) w).

Definition saveQueueSettings (settings : QueueSettings) : M bool :=
  storage_set_settings settings ;;;
  ret true.

(** [chrome.storage.local.remove('offline_queue_fallback')]. *)
Definition storage_remove_fallback : M unit :=
  fun w => (tt, with_fallback_slot None w).

(** [store.clear()]: the records go, the key generator keeps its number. *)
Definition idb_clear : M unit :=
  fun w => (tt, with_idb [] (idb_next_key w) w).

Definition clearQueue : M bool :=
  fallback <- read_useFallback ;;
  if fallback then
    storage_remove_fallback ;;;
    ret true
  else
    opened <- initDB ;;
    if negb opened then
      storage_remove_fallback ;;;
      ret true
    else
      idb_clear ;;;
      ret true.

(** [!useFallback && !!db]. *)
Definition isIndexedDBAvailable : M bool :=
  fun w => (negb (useFallback w) && db w, w).

End OfflineQueue.

(** ** The caller of [enqueue] ([src/utils/api-client.js]) *)

Module ApiClient.
Import Js Model OfflineQueue.
Local Open Scope host_scope.

(** [fetch(url, ...)] of the note endpoint. *)
Definition fetch : M FetchOutcome :=
  fun w => (network w (network_calls w), with_network_calls (S (network_calls w)) w).

(** A localised message [t(key, arg)], kept as its key and argument. *)
Inductive Message : Type :=
| T (key : string) (arg : option string).

(** What [createNote] resolves to: [{success, message, queued}]. *)
Record NoteResult : Type := mkNoteResult {
  note_success : bool;
  note_message : Message;
  queued : bool
}.

Fixpoint code_units (s : string) : list N :=
  match s with
  | EmptyString => []
  | String c rest => Ascii.N_of_ascii c :: code_units rest
  end.

(** [s.trim() === ''] on the UTF-8 bytes of [s]: nothing but the white
    space and line terminators [trim] removes. *)
Fixpoint blank (bytes : list N) : bool :=
  match bytes with
  | [] => true
  | (9 | 10 | 11 | 12 | 13 | 32) :: rest => blank rest
  | 194 :: 160 :: rest => blank rest                          (* U+00A0 *)
  | 225 :: 154 :: 128 :: rest => blank rest                   (* U+1680 *)
  | 226 :: 128 :: (128 | 129 | 130 | 131 | 132 | 133 | 134 | 135 | 136 | 137 | 138
                   | 168 | 169 | 175) :: rest => blank rest   (* U+2000..U+200A, U+2028, U+2029, U+202F *)
  | 226 :: 129 :: 159 :: rest => blank rest                   (* U+205F *)
  | 227 :: 128 :: 128 :: rest => blank rest                   (* U+3000 *)
  | 239 :: 187 :: 191 :: rest => blank rest                   (* U+FEFF *)
  | _ => false
  end%N.

(** [!s] on a string. *)
Definition falsy (s : string) : bool :=
  match s with EmptyString => true | _ => false end.

(** [{...metadata, initialError: error}]. *)
Fixpoint set_key (key value : string) (object : list (string * string))
  : list (string * string) :=
  match object with
  | [] => [(key, value)]
  | (k, v) :: rest =>
      if String.eqb k key then (k, value) :: rest else (k, v) :: set_key key value rest
  end.

Definition tryEnqueueNote (text : string) (kind : Z) (meta : list (string * string))
           (error : string) : M bool :=
  settings <- getQueueSettings ;;
  if negb (or_undefined (autoRetry settings) false) then ret false
  else
    result <- enqueue (mkRequest text (Some kind) (Some "")
                         (Some (or_undefined (assoc "url" meta) ""))
                         (Some (or_undefined (assoc "title" meta) ""))
                         (Some (set_key "initialError" error meta))) ;;
    match result with
    | Accepted _ => ret true
    | Rejected _ => ret false
    end.

Definition createNote (apiUrl token text : string) (kind : Z)
           (meta : list (string * string)) : M NoteResult :=
  if falsy apiUrl || falsy token then
    ret (mkNoteResult false (T "api_error_noBlinkoConfig" None) false)
  else if falsy text || blank (code_units text) then
    ret (mkNoteResult false (T "status_error_emptyContent" None) false)
  else
    response <- fetch ;;
    let caught := fun error =>
      queueResult <- tryEnqueueNote text kind meta error ;;
      if queueResult then
        ret (mkNoteResult false (T "queue_enqueued_network_error" None) true)
      else ret (mkNoteResult false (T "error_networkError" (Some error)) false) in
    match response with
    | ResponseOk => ret (mkNoteResult true (T "api_success_noteSaved" None) false)
    | ResponseOkNotJson error => caught error
    | ResponseStatus code =>
        if (code =? 401) || (code =? 403) then
          ret (mkNoteResult false (T "api_error_authFailedCheck" None) false)
        else
          let other :=
            mkNoteResult false (T "api_error_saveHttpStatus" (Some (number_to_string code)))
                         false in
          if code >=? 500 then
            queueResult <- tryEnqueueNote text kind meta
                             ("服务器错误 " ++ number_to_string code) ;;
            if queueResult then
              ret (mkNoteResult false (T "queue_enqueued_server_error" None) true)
            else ret other
          else ret other
    | FetchThrows error => caught error
    end.

(** [retryQueuedNote(queueItem, apiUrl, token)]: one [fetch], its outcome
    turned into [{success, message}]; whatever is thrown in the [try],
    by [fetch] or by [response.json()], is caught and reported with its
    message; nothing is enqueued from here. *)
Definition retryQueuedNote (queueItem : QueueItem) : M DeliveryResult :=
  response <- fetch ;;
  match response with
  | ResponseOk => ret (mkDelivery true "重试成功")
  | ResponseOkNotJson error => ret (mkDelivery false error)
  | ResponseStatus code => ret (mkDelivery false ("HTTP " ++ number_to_string code))
  | FetchThrows error => ret (mkDelivery false error)
  end.

End ApiClient.

(** ** The retry orchestrator and its driver ([src/background.js]) *)

Module Background.
Import Js Model OfflineQueue ApiClient Policy.
Local Open Scope host_scope.

Definition msg_max_retries : string := "达到最大重试次数".

(** [setTimeout(() => retryQueueItem(item), delay)]. *)
Definition setTimeout (item : QueueItem) (delay : option Z) : M unit :=
  fun w => (tt, with_timers (timers w ++ [mkTimer item delay]) w).

(** [retryQueueItem(item)].  [getBlinkoConfig] only reads the connection
    settings handed to [retryQueuedNote]; every call in the [try] block
    catches its own errors, so the [catch] block needs a storage fault of
    the host to be reached. *)
Definition retryQueueItem (item : QueueItem) : M unit :=
  settings <- getQueueSettings ;;
  if negb (shouldRetry (retryCount item) (retryStrategy settings)) then
    updateItem (id item) (mkUpdates (Some Failed) None (Some msg_max_retries)) ;;;
    ret tt
  else
    updateItem (id item) (mkUpdates (Some Retrying) None None) ;;;
    result <- retryQueuedNote item ;;
    if success result then
      updateItem (id item) (mkUpdates (Some Success) None (Some "")) ;;;
      ret tt
    else
      let newRetryCount := retryCount item + 1 in
      updateItem (id item)
                 (mkUpdates (Some Pending) (Some newRetryCount) (Some (message result))) ;;;
      let delay := calculateRetryDelay newRetryCount (retryStrategy settings) in
      setTimeout item delay.

(** [for (const item of items) await retryQueueItem(item)]. *)
Fixpoint for_each (items : list QueueItem) : M unit :=
  match items with
  | [] => ret tt
  | item :: rest => retryQueueItem item ;;; for_each rest
  end.

Definition live (item : QueueItem) : bool :=
  Status_eqb (status item) Pending || Status_eqb (status item) Retrying.

Definition processQueueOnStartup : M unit :=
  queue <- getQueue None ;;
  let pendingItems := filter live queue in
  if 0 <? array_length pendingItems then for_each pendingItems else ret tt.

(** The host fires the [n]-th outstanding timer: its closure runs
    [retryQueueItem] on the object it captured. *)
Definition fireTimer (n : nat) : M unit :=
  fun w =>
    match nth_error (timers w) n with
    | None => (tt, w)
    | Some timer =>
        retryQueueItem (timer_item timer)
                       (with_timers (firstn n (timers w) ++ skipn (S n) (timers w)) w)
    end.

(** [initOfflineQueueProcessing]: the database is opened and the queue is
    gone through once; the listeners it then sets are [onNetworkOnline]
    and [onAlarm]. *)
Definition initOfflineQueueProcessing : M unit :=
  initDB ;;;
  processQueueOnStartup.

(** The [network-status] port receives [{type: msgType}]. *)
Definition onNetworkMessage (msgType : string) : M unit :=
  if String.eqb msgType "network-online" then processQueueOnStartup else ret tt.

(** The two [chrome.alarms.onAlarm] listeners, in the order they were
    added, on the alarm [name]. *)
Definition onAlarm (name : string) : M unit :=
  (if String.eqb name "check-queue" then processQueueOnStartup else ret tt) ;;;
  (if String.eqb name "cleanup-queue" then cleanup no_options ;;; ret tt else ret tt).

(** [compareVersions(v1, v2)].  [Number], the conversion of a string
    to a number, is the host's. *)
Section CompareVersions.
Variable Number : string -> JsNumber.

(** The loop from index [i] on, with [steps] rounds to go. *)
Fixpoint compare_from (parts1 parts2 : list JsNumber) (i steps : nat) : Z :=
  match steps with
  | O => 0
  | S rounds =>
      let part1 := or_zero (nth_error parts1 i) in
      let part2 := or_zero (nth_error parts2 i) in
      if number_lt part1 part2 then -1
      else if number_gt part1 part2 then 1
      else compare_from parts1 parts2 (S i) rounds
  end.

Definition compareVersions (v1 v2 : string) : Z :=
  let parts1 := map Number (split_dot v1) in
  let parts2 := map Number (split_dot v2) in
  compare_from parts1 parts2 0 (Nat.max (List.length parts1) (List.length parts2)).

End CompareVersions.

End Background.

(** ** Vocabulary of the statements *)

Module Spec.
Import Js Model OfflineQueue ApiClient Background Policy.
Local Open Scope host_scope.

(** The store every queue operation is routed to from [w] on: the
    fallback list once [useFallback] is set, or as soon as the first
    [initDB] finds the database closed and not openable. *)
Definition fallback_active (w : World) : bool :=
  useFallback w || negb (db w || idb_openable w).

(** [w] once a queue operation has chosen its store: what [initDB] leaves
    of the module state. *)
Definition routed (w : World) : World :=
  if useFallback w then w
  else if db w then w
  else if idb_openable w then with_db true w
  else with_useFallback true w.

(** The records of the active store, in stored order. *)
Definition stored_queue (w : World) : list QueueItem :=
  if fallback_active w then or_undefined (fallback_slot w) [] else idb_items w.

Definition queue_size (w : World) : Z := array_length (stored_queue w).

(** The configured [maxSize], as [getMaxQueueSize] reads it. *)
Definition max_size (w : World) : Z := eval getMaxQueueSize w.

(** The capacity the claims speak of. *)
Definition capacity (w : World) : Z :=
  if fallback_active w then 50 else max_size w.

(** Some queued item has the content [text] and was created less than
    five minutes before [now]. *)
Definition recent_duplicate (text : string) (now : Z) (queue : list QueueItem) : bool :=
  existsb (fun item => String.eqb (content item) text
                       && (now - createdAt item <? fiveMinutes)) queue.

(** The next answer of [Date.now()]. *)
Definition next_now (w : World) : Z := clock w (clock_reads w).

(** A sequence of [enqueue] calls, one after the other. *)
Fixpoint enqueue_all (requests : list NoteRequest) : M (list EnqueueResult) :=
  match requests with
  | [] => ret []
  | request :: rest =>
      result <- enqueue request ;;
      results <- enqueue_all rest ;;
      ret (result :: results)
  end.

Definition terminal (item : QueueItem) : bool :=
  Status_eqb (status item) Success || Status_eqb (status item) Failed.

(** No two records of [queue] share an id. *)
Fixpoint distinct_ids (queue : list QueueItem) : bool :=
  match queue with
  | [] => true
  | item :: rest =>
      forallb (fun other => id_neq (id other) (id item)) rest && distinct_ids rest
  end.

(** The stored record of id [key], if any. *)
Definition stored_item (key : Q) (w : World) : option QueueItem :=
  find (fun item => id_eq (id item) key) (stored_queue w).

(** [queue] with [f] applied to its first record of id [key]. *)
Fixpoint patched (key : Q) (f : QueueItem -> QueueItem) (queue : list QueueItem)
  : list QueueItem :=
  match queue with
  | [] => []
  | item :: rest =>
      if id_eq (id item) key then f item :: rest else item :: patched key f rest
  end.

(** [queue'] holds the records of [queue], id for id and in the same
    order, and differs from it at most in the records whose id is
    [touched]. *)
Definition same_outside (touched : Q -> bool) (queue queue' : list QueueItem) : Prop :=
  Forall2 (fun item item' =>
             id item' = id item /\ (touched (id item) = false -> item' = item))
          queue queue'.

(** The ids the orchestrator may write to when run on [items]. *)
Definition ids_of (items : list QueueItem) (key : Q) : bool :=
  existsb (fun item => id_eq key (id item)) items.

(** The four writes of [retryQueueItem]. *)
Definition upd_failed : Updates := mkUpdates (Some Failed) None (Some msg_max_retries).
Definition upd_retrying : Updates := mkUpdates (Some Retrying) None None.
Definition upd_success : Updates := mkUpdates (Some Success) None (Some "").
Definition upd_pending (item : QueueItem) (result : DeliveryResult) : Updates :=
  mkUpdates (Some Pending) (Some (retryCount item + 1)) (Some (message result)).

(** The strategy [retryQueueItem] reads from the settings. *)
Definition strategy_of (w : World) : option string :=
  retryStrategy (or_undefined (settings_slot w) default_settings).

(** The answer the next [fetch] gets, as [retryQueuedNote] reports it. *)
Definition next_delivery (item : QueueItem) (w : World) : DeliveryResult :=
  eval (retryQueuedNote item) w.

(** The host fires the oldest outstanding timer, [n] times in a row. *)
Fixpoint fire_oldest (n : nat) : M unit :=
  match n with
  | O => ret tt
  | S k => fireTimer 0 ;;; fire_oldest k
  end.

(** The record [enqueue] builds for [request] at the clock readings
    [created] and [updated], awaiting its id. *)
Definition new_record (request : NoteRequest) (created updated : Z) (new_id : Q)
  : QueueItem :=
  mkItem new_id (req_content request)
         (or_number (or_undefined (req_type request) 0) 0)
         (or_undefined (req_tags request) "")
         (or_undefined (req_url request) "")
         (or_undefined (req_title request) "")
         Pending created updated 0 ""
         (or_undefined (req_metadata request) []).

(** The limit in force, read off the saved settings: the saved
    [maxSize], or 100 when no settings or no [maxSize] are saved or the
    saved [maxSize] is 0. *)
Definition limit_of (saved : option QueueSettings) : Z :=
  match saved with
  | Some settings =>
      match maxSize settings with
      | Some 0 | None => 100
      | Some size => size
      end
  | None => 100
  end.

Definition limit (w : World) : Z := limit_of (settings_slot w).

(** The bound on the number of queued items: the limit on the primary
    store; on the fallback store 50, and the limit where it is lower. *)
Definition bound (w : World) : Z :=
  if fallback_active w then Z.min 50 (limit w) else limit w.

(** Some item of [queue] has the content [text] and was created less
    than [window] milliseconds before [now]. *)
Definition queued_within (window : Z) (text : string) (now : Z) (queue : list QueueItem)
  : Prop :=
  exists item, In item queue /\ content item = text /\ now - createdAt item < window.

(** *** Vocabulary of the further properties *)

(** [queue] is ordered by [createdAt], newest first. *)
Definition newest_first (queue : list QueueItem) : Prop :=
  Sorted (fun earlier later => createdAt later <= createdAt earlier) queue.

(** What identifies a record and what it carries: the fields no queue
    operation is meant to rewrite. *)
Definition payload (item : QueueItem)
  : Q * string * Z * string * string * string * Z * list (string * string) :=
  (id item, content item, type item, tags item, url item, title item, createdAt item,
   metadata item).

(** The records of the primary store have ids below the key generator. *)
Definition below_generator (w : World) : bool :=
  forallb (fun item => negb (Qle_bool (inject_Z (idb_next_key w)) (id item))) (idb_items w).

(** The primary store is as IndexedDB keeps it: one record per id, every
    id handed out by the key generator. *)
Definition primary_wf (w : World) : bool :=
  distinct_ids (idb_items w) && below_generator w.

(** What can happen to the extension, one event at a time. *)
Inductive Event : Type :=
| Enqueue (request : NoteRequest)
| Dequeue (key : Q)
| UpdateItem (key : Q) (updates : Updates)
| Cleanup (options : CleanupOptions)
| ClearQueue
| SaveQueueSettings (settings : QueueSettings)
| CreateNote (apiUrl token text : string) (kind : Z) (meta : list (string * string))
| Startup
| NetworkMessage (msgType : string)
| Alarm (name : string)
| TimerFires (n : nat).

Definition handle (event : Event) : M unit :=
  match event with
  | Enqueue request => enqueue request ;;; ret tt
  | Dequeue key => dequeue key ;;; ret tt
  | UpdateItem key updates => updateItem key updates ;;; ret tt
  | Cleanup options => cleanup options ;;; ret tt
  | ClearQueue => clearQueue ;;; ret tt
  | SaveQueueSettings settings => saveQueueSettings settings ;;; ret tt
  | CreateNote apiUrl token text kind meta =>
      createNote apiUrl token text kind meta ;;; ret tt
  | Startup => initOfflineQueueProcessing
  | NetworkMessage msgType => onNetworkMessage msgType
  | Alarm name => onAlarm name
  | TimerFires n => fireTimer n
  end.

(** A history of events, each handled to its end before the next. *)
Fixpoint run (events : list Event) : M unit :=
  match events with
  | [] => ret tt
  | event :: rest => handle event ;;; run rest
  end.

(** [m] keeps [P]: run from a host where [P] holds, it ends in one. *)
Definition keeps (P : World -> Prop) {A : Type} (m : M A) : Prop :=
  forall w, P w -> P (exec m w).

(** The module state has settled on a store: a database handle is at
    hand or the fallback flag is set. *)
Definition store_chosen (w : World) : bool := db w || useFallback w.

(** What an operation leaves of the choice of store: the same store is in
    use, the fallback flag is not taken back, the choice is made, and the
    store not in use is as it was. *)
Definition same_store (w w' : World) : Prop :=
  fallback_active w' = fallback_active w
  /\ (useFallback w = true -> useFallback w' = true)
  /\ (store_chosen w = true -> store_chosen w' = true)
  /\ (fallback_active w = true ->
      idb_items w' = idb_items w /\ idb_next_key w' = idb_next_key w)
  /\ (fallback_active w = false -> fallback_slot w' = fallback_slot w).

(** [field] is a key the object does not have. *)
Definition absent {A : Type} (field : option A) : bool :=
  match field with None => true | Some _ => false end.

(** [updates] names nothing of what a record carries: no [id], [content],
    [type], [tags], [url], [title], [createdAt] or [metadata]. *)
Definition state_only (updates : Updates) : bool :=
  absent (set_id updates) && absent (set_content updates) && absent (set_type updates)
  && absent (set_tags updates) && absent (set_url updates) && absent (set_title updates)
  && absent (set_createdAt updates) && absent (set_metadata updates).

(** [record'] is [record] with every field that [updates] names taken
    from [updates], and [now] as [updatedAt]. *)
Definition merged (record : QueueItem) (updates : Updates) (now : Z) (record' : QueueItem)
  : Prop :=
  id record' = or_undefined (set_id updates) (id record)
  /\ content record' = or_undefined (set_content updates) (content record)
  /\ type record' = or_undefined (set_type updates) (type record)
  /\ tags record' = or_undefined (set_tags updates) (tags record)
  /\ url record' = or_undefined (set_url updates) (url record)
  /\ title record' = or_undefined (set_title updates) (title record)
  /\ status record' = or_undefined (set_status updates) (status record)
  /\ createdAt record' = or_undefined (set_createdAt updates) (createdAt record)
  /\ updatedAt record' = now
  /\ retryCount record' = or_undefined (set_retryCount updates) (retryCount record)
  /\ lastError record' = or_undefined (set_lastError updates) (lastError record)
  /\ metadata record' = or_undefined (set_metadata updates) (metadata record).

(** The events that only drive the retries: the start, the network and
    check-queue signals, timers, and an [updateItem] whose [updates] name
    nothing of what a record carries. *)
Definition retries_only (event : Event) : bool :=
  match event with
  | Startup | NetworkMessage _ | TimerFires _ => true
  | UpdateItem _ updates => state_only updates
  | Alarm name => negb (String.eqb name "cleanup-queue")
  | _ => false
  end.

(** The items of [queue] a driver pass makes a delivery for under
    [strategy]. *)
Definition attempted (strategy : option string) (queue : list QueueItem) : list QueueItem :=
  filter (fun item => live item && shouldRetry (retryCount item) strategy) queue.

(** The records of [w'] carry what the records of [w] carry, one for
    one and in the order of the store. *)
Definition same_payloads (w w' : World) : Prop :=
  map payload (stored_queue w') = map payload (stored_queue w).

(** [record] is the record [tryEnqueueNote] builds for a note of content
    [text] and type [kind] whose request failed with [error]. *)
Definition queued_note (text : string) (kind : Z) (error : string) (record : QueueItem)
  : Prop :=
  content record = text
  /\ type record = kind
  /\ status record = Pending
  /\ retryCount record = 0
  /\ lastError record = ""
  /\ assoc "initialError" (metadata record) = Some error.

(** Every request is answered [ok], with a body that is JSON. *)
Definition server_answers_ok (w : World) : Prop :=
  forall k, network w k = ResponseOk.

(** [record] is how [retryQueueItem] leaves [item] when the server is up:
    delivered if [item] had retries left under [strategy], given up if
    not, and unchanged in what it carries and in its [retryCount]. *)
Definition settled (strategy : option string) (item record : QueueItem) : Prop :=
  payload record = payload item
  /\ retryCount record = retryCount item
  /\ if shouldRetry (retryCount item) strategy
     then status record = Success /\ lastError record = ""
     else status record = Failed /\ lastError record = msg_max_retries.

(** The [i]-th part of a version as the loop of [compareVersions] reads
    it. *)
Definition version_part (Number : string -> JsNumber) (v : string) (i : nat) : JsNumber :=
  or_zero (nth_error (map Number (split_dot v)) i).

(** The [i]-th parts of [v1] and [v2] are level: neither is below the
    other. *)
Definition level (Number : string -> JsNumber) (v1 v2 : string) (i : nat) : Prop :=
  number_lt (version_part Number v1 i) (version_part Number v2 i) = false
  /\ number_lt (version_part Number v2 i) (version_part Number v1 i) = false.

End Spec.

(** ** Concrete hosts and runs *)

Module Scenario.
Import Js Model OfflineQueue ApiClient Background Policy Spec.
Local Open Scope host_scope.

(** A freshly started extension: nothing stored, no settings saved. *)
Definition fresh_world (openable : bool) (net : nat -> FetchOutcome) (clk : nat -> Z)
  : World :=
  mkWorld false false openable [] 1 None None clk 0 (fun _ => 0%Q) 0 net 0 [].

(** A clock that advances one second per reading. *)
Definition seconds (n : nat) : Z := 1000 * Z.of_nat n.

Definition server_down (n : nat) : FetchOutcome := ResponseStatus 500.
Definition server_up (n : nat) : FetchOutcome := ResponseOk.

Definition note (text : string) : NoteRequest := mkRequest text None None None None None.

Definition settings_with (size : option Z) (strategy : option string) : QueueSettings :=
  mkSettings size (Some true) strategy (Some 180000) (Some "final").

(** The server is down and the database opens. *)
Definition offline_world : World := fresh_world true server_down seconds.

(** The same host with the [conservative] strategy saved. *)
Definition conservative_world : World :=
  with_settings_slot (Some (settings_with (Some 100) (Some "conservative"))) offline_world.

(** A host whose queue holds one item at most. *)
Definition tiny_world : World :=
  with_settings_slot (Some (settings_with (Some 1) (Some "standard"))) offline_world.

(** A stored item that was delivered. *)
Definition delivered_item : QueueItem :=
  mkItem 1 "x" 0 "" "" "" Success 0 5000 0 "" [].

Definition delivered_world : World :=
  mkWorld true false true [delivered_item] 2 None None seconds 10 (fun _ => 0%Q) 0
          server_up 0 [].

(** A store with a delivered item and one still waiting. *)
Definition waiting_item : QueueItem :=
  mkItem 2 "y" 0 "" "" "" Pending 1000 1000 0 "" [].

Definition mixed_world : World :=
  mkWorld true false true [delivered_item; waiting_item] 3 None None seconds 10
          (fun _ => 0%Q) 0 server_down 0 [].

(** An item that has used up the six retries of the default strategy. *)
Definition exhausted_item : QueueItem :=
  mkItem 1 "z" 0 "" "" "" Pending 0 9000 6 "HTTP 500" [].

Definition exhausted_world : World :=
  mkWorld true false true [exhausted_item] 2 None None seconds 10 (fun _ => 0%Q) 0
          server_down 0 [].

(** Fifty items in the fallback list, the last one created at second 0
    with content ["x"]. *)
Definition fallback_item (n : nat) : QueueItem :=
  mkItem (inject_Z (Z.of_nat n)) (if Nat.eqb n 0 then "x" else "y") 0 "" "" ""
         Pending 0 0 0 "" [].

Definition full_fallback_world : World :=
  mkWorld false true false [] 1 (Some (map fallback_item (seq 0 50))) None
          seconds 0 (fun _ => 0%Q) 0 server_down 0 [].

(** The stored records, shown by what the claims speak of. *)
Definition summary (w : World) : list (Status * Z * string) :=
  map (fun item => (status item, retryCount item, lastError item)) (stored_queue w).

(** A store with a delivery long done, one just within the three minutes
    of retention, and an item still waiting, at second 181. *)
Definition retention_world : World :=
  mkWorld true false true
          [ mkItem 1 "a" 0 "" "" "" Success 0 0 1 "" [];
            mkItem 2 "b" 0 "" "" "" Success 0 1000 0 "" [];
            mkItem 3 "c" 0 "" "" "" Pending 0 0 0 "" [] ]
          4 None None seconds 181 (fun _ => 0%Q) 0 server_down 0 [].

(** The server is back: a delivered item, one waiting and one out of
    retries are stored. *)
Definition recovered_world : World :=
  mkWorld true false true
          [ delivered_item; waiting_item;
            mkItem 3 "z" 0 "" "" "" Retrying 0 9000 6 "HTTP 500" [] ]
          4 None None seconds 10 (fun _ => 0%Q) 0 server_up 0 [].

(** [Number] on plain decimal numerals and on the empty string; every
    other string is taken to [NaN]. *)
Definition decimal_Number (s : string) : JsNumber :=
  match NilEmpty.uint_of_string s with
  | Some digits => Finite (inject_Z (Z.of_uint digits))
  | None => NaN
  end.

(** A server that fails the first request and answers the later ones. *)
Definition server_back (n : nat) : FetchOutcome :=
  match n with O => ResponseStatus 500 | _ => ResponseOk end.

(** A server that answers the second request and fails every other. *)
Definition server_up_once (n : nat) : FetchOutcome :=
  match n with 1%nat => ResponseOk | _ => ResponseStatus 500 end.

(** The object [{id: new_id}]. *)
Definition only_id (new_id : Q) : Updates :=
  mkFields (Some new_id) None None None None None None None None None None None.

(** The primary store with a [maxSize] of 0 saved. *)
Definition zero_limit_world : World :=
  with_settings_slot (Some (settings_with (Some 0) (Some "standard"))) offline_world.

(** A store that holds one item of content ["x"] created at time 0, on a
    host whose clock reads [age]. *)
Definition aged_world (age : Z) : World :=
  mkWorld true false true [mkItem 1 "x" 0 "" "" "" Pending 0 0 0 "" []] 2 None None
          (fun _ => age) 0 (fun _ => 0%Q) 0 server_down 0 [].

End Scenario.
(** ** The retry policy *)

Module PolicyFacts.
Import Js Policy.

Lemma array_get_in_range {A : Type} (l : list A) (index : Z) :
  0 <= index -> array_get l index = nth_error l (Z.to_nat index).
Proof.
  intros Hindex. unfold array_get.
  destruct (index <? 0) eqn:Hneg; [ apply Z.ltb_lt in Hneg; lia | reflexivity ].
Qed.

(** The three names are the only own keys of the two tables. *)
Lemma named_max_cases (s : string) (max : Z) :
  named_max s = Some max ->
  (s = "conservative" /\ max = 3) \/ (s = "standard" /\ max = 6)
  \/ (s = "aggressive" /\ max = 10).
Proof.
  unfold named_max, maxRetries, assoc.
  destruct (String.eqb_spec "conservative" s) as [<- | _];
    [ intros [= <-]; auto | ].
  destruct (String.eqb_spec "standard" s) as [<- | _];
    [ intros [= <-]; auto | ].
  destruct (String.eqb_spec "aggressive" s) as [<- | _];
    [ intros [= <-]; auto | discriminate ].
Qed.

Lemma named_delays_cases (s : string) (l : list Z) :
  named_delays s = Some l ->
  (s = "conservative" /\ l = [1000; 2000; 4000])
  \/ (s = "standard" /\ l = delays_standard)
  \/ (s = "aggressive"
      /\ l = [1000; 1000; 2000; 2000; 4000; 8000; 16000; 32000; 60000; 120000]).
Proof.
  unfold named_delays, delays, assoc.
  destruct (String.eqb_spec "conservative" s) as [<- | _];
    [ intros [= <-]; auto | ].
  destruct (String.eqb_spec "standard" s) as [<- | _];
    [ intros [= <-]; auto | ].
  destruct (String.eqb_spec "aggressive" s) as [<- | _];
    [ intros [= <-]; auto | discriminate ].
Qed.

Lemma shouldRetry_named (n : Z) (s : string) (max : Z) :
  named_max s = Some max -> shouldRetry n (Some s) = (n <? max).
Proof.
  intros H. destruct (named_max_cases _ _ H) as [[-> ->] | [[-> ->] | [-> ->]]];
    reflexivity.
Qed.

Lemma calculateRetryDelay_named (a : Z) (s : string) (l : list Z) :
  named_delays s = Some l ->
  calculateRetryDelay a (Some s) = array_get l (Z.min a (array_length l - 1)).
Proof.
  intros H.
  destruct (named_delays_cases _ _ H) as [[-> ->] | [[-> ->] | [-> ->]]];
    reflexivity.
Qed.

(** A strategy that is neither a key of the tables nor a member of
    [Object.prototype] is looked up in vain. *)
Lemma get_unknown {A : Type} (table : list (string * A)) (s : string) :
  assoc s table = None -> plain_key s = true -> get table s = Missing.
Proof.
  unfold get, plain_key. intros ->.
  destruct (assoc s Object_prototype); [ discriminate | reflexivity ].
Qed.

Lemma same_keys (s : string) : named_delays s = None <-> named_max s = None.
Proof.
  unfold named_delays, named_max, delays, maxRetries, assoc.
  destruct (String.eqb "conservative" s); [ split; discriminate | ].
  destruct (String.eqb "standard" s); [ split; discriminate | ].
  destruct (String.eqb "aggressive" s); [ split; discriminate | tauto ].
Qed.

(** C4. For every integer [n], the non-negative ones among them,
    [shouldRetry n strategy] holds exactly when [n] is below the
    strategy's maximum retry count: 6 for ["standard"], 3 for
    ["conservative"], 10 for ["aggressive"], which are the entries of
    [maxRetries]. *)
Theorem shouldRetry_iff_below_max (n : Z) :
  (shouldRetry n (Some "standard") = true <-> n < 6)
  /\ (shouldRetry n (Some "conservative") = true <-> n < 3)
  /\ (shouldRetry n (Some "aggressive") = true <-> n < 10)
  /\ named_max "standard" = Some 6
  /\ named_max "conservative" = Some 3
  /\ named_max "aggressive" = Some 10.
Proof.
  repeat split; try reflexivity;
    try (intros H; apply Z.ltb_lt; exact H);
    try (intros H; apply Z.ltb_lt in H; exact H).
Qed.

(** C5. For every attempt index [a >= 0], [calculateRetryDelay a s] is
    the entry at [min a (length - 1)] of the delay list of [s]:
    [[1000;2000;4000;8000;16000;32000]] at [min a 5] for ["standard"],
    [[1000;2000;4000]] at [min a 2] for ["conservative"] and
    [[1000;1000;2000;2000;4000;8000;16000;32000;60000;120000]] at
    [min a 9] for ["aggressive"], which are the only named strategies.  So
    the result is always a delay of the list, never [undefined], and from
    the last index on it stays at the last entry: 32000, 4000 and
    120000. *)
Theorem calculateRetryDelay_saturates (a : Z) :
  0 <= a ->
  calculateRetryDelay a (Some "standard")
  = nth_error [1000; 2000; 4000; 8000; 16000; 32000] (Z.to_nat (Z.min a 5))
  /\ calculateRetryDelay a (Some "conservative")
     = nth_error [1000; 2000; 4000] (Z.to_nat (Z.min a 2))
  /\ calculateRetryDelay a (Some "aggressive")
     = nth_error [1000; 1000; 2000; 2000; 4000; 8000; 16000; 32000; 60000; 120000]
                 (Z.to_nat (Z.min a 9))
  /\ (exists d, calculateRetryDelay a (Some "standard") = Some d
                /\ In d [1000; 2000; 4000; 8000; 16000; 32000])
  /\ (exists d, calculateRetryDelay a (Some "conservative") = Some d
                /\ In d [1000; 2000; 4000])
  /\ (exists d, calculateRetryDelay a (Some "aggressive") = Some d
                /\ In d [1000; 1000; 2000; 2000; 4000; 8000; 16000; 32000; 60000; 120000])
  /\ (5 <= a -> calculateRetryDelay a (Some "standard") = Some 32000)
  /\ (2 <= a -> calculateRetryDelay a (Some "conservative") = Some 4000)
  /\ (9 <= a -> calculateRetryDelay a (Some "aggressive") = Some 120000)
  /\ (forall s l, named_delays s = Some l ->
                  s = "standard" \/ s = "conservative" \/ s = "aggressive").
Proof.
  intros Ha.
  assert (Hstandard :
            calculateRetryDelay a (Some "standard")
            = nth_error [1000; 2000; 4000; 8000; 16000; 32000] (Z.to_nat (Z.min a 5))).
  { rewrite (calculateRetryDelay_named a "standard" delays_standard eq_refl).
    apply array_get_in_range. cbn. lia. }
  assert (Hconservative :
            calculateRetryDelay a (Some "conservative")
            = nth_error [1000; 2000; 4000] (Z.to_nat (Z.min a 2))).
  { rewrite (calculateRetryDelay_named a "conservative" [1000; 2000; 4000] eq_refl).
    apply array_get_in_range. cbn. lia. }
  assert (Haggressive :
            calculateRetryDelay a (Some "aggressive")
            = nth_error [1000; 1000; 2000; 2000; 4000; 8000; 16000; 32000; 60000; 120000]
                        (Z.to_nat (Z.min a 9))).
  { rewrite (calculateRetryDelay_named
               a "aggressive"
               [1000; 1000; 2000; 2000; 4000; 8000; 16000; 32000; 60000; 120000] eq_refl).
    apply array_get_in_range. cbn. lia. }
  assert (Hin : forall (l : list Z) (n : nat),
             (n < List.length l)%nat -> exists d, nth_error l n = Some d /\ In d l).
  { intros l n Hn. destruct (nth_error l n) as [d |] eqn:Hnth.
    - exists d. split; [ reflexivity | eapply nth_error_In; exact Hnth ].
    - apply nth_error_None in Hnth. lia. }
  rewrite Hstandard, Hconservative, Haggressive.
  split; [ reflexivity | ]. split; [ reflexivity | ]. split; [ reflexivity | ].
  split; [ apply Hin; cbn; lia | ].
  split; [ apply Hin; cbn; lia | ].
  split; [ apply Hin; cbn; lia | ].
  split; [ intros Hlast; replace (Z.min a 5) with 5 by lia; reflexivity | ].
  split; [ intros Hlast; replace (Z.min a 2) with 2 by lia; reflexivity | ].
  split; [ intros Hlast; replace (Z.min a 9) with 9 by lia; reflexivity | ].
  intros s l Hs.
  destruct (named_delays_cases _ _ Hs) as [[-> _] | [[-> _] | [-> _]]]; auto.
Qed.

(** The theorem past the end of each list, and inside the lists of
    ["conservative"] and ["aggressive"]. *)
Lemma calculateRetryDelay_saturates_witness :
  calculateRetryDelay 9 (Some "standard") = Some 32000
  /\ calculateRetryDelay 3 (Some "conservative") = Some 4000
  /\ calculateRetryDelay 12 (Some "aggressive") = Some 120000
  /\ calculateRetryDelay 1 (Some "conservative") = Some 2000
  /\ calculateRetryDelay 8 (Some "aggressive") = Some 60000.
Proof.
  destruct (calculateRetryDelay_saturates 9 ltac:(lia)) as [_ [_ [_ [_ [_ [_ [H9 _]]]]]]].
  destruct (calculateRetryDelay_saturates 3 ltac:(lia))
    as [_ [_ [_ [_ [_ [_ [_ [H3 _]]]]]]]].
  destruct (calculateRetryDelay_saturates 12 ltac:(lia))
    as [_ [_ [_ [_ [_ [_ [_ [_ [H12 _]]]]]]]]].
  destruct (calculateRetryDelay_saturates 1 ltac:(lia)) as [_ [H1 _]].
  destruct (calculateRetryDelay_saturates 8 ltac:(lia)) as [_ [_ [H8 _]]].
  split; [ apply H9; lia | ]. split; [ apply H3; lia | ]. split; [ apply H12; lia | ].
  split; [ rewrite H1; reflexivity | rewrite H8; reflexivity ].
Defined.

(** A strategy that is [undefined], or a string that is no key of the
    tables and no member of [Object.prototype], is treated as
    ["standard"]. *)
Lemma unknown_strategy_is_standard (n : Z) (s : string) :
  named_max s = None -> plain_key s = true ->
  shouldRetry n (Some s) = shouldRetry n (Some "standard")
  /\ calculateRetryDelay n (Some s) = calculateRetryDelay n (Some "standard")
  /\ shouldRetry n None = shouldRetry n (Some "standard")
  /\ calculateRetryDelay n None = calculateRetryDelay n (Some "standard").
Proof.
  intros Hmax Hplain.
  assert (Hdelays : named_delays s = None) by (apply same_keys; exact Hmax).
  unfold shouldRetry, calculateRetryDelay. cbn [or_undefined].
  rewrite (get_unknown maxRetries s Hmax Hplain).
  rewrite (get_unknown delays s Hdelays Hplain).
  repeat split; reflexivity.
Qed.

Lemma unknown_strategy_is_standard_witness :
  shouldRetry 5 (Some "gentle") = true /\ calculateRetryDelay 7 (Some "gentle") = Some 32000.
Proof.
  destruct (unknown_strategy_is_standard 5 "gentle") as [H _];
    [ reflexivity | reflexivity | ].
  destruct (unknown_strategy_is_standard 7 "gentle") as [_ [H' _]];
    [ reflexivity | reflexivity | ].
  rewrite H, H'. split; reflexivity.
Defined.

(** C10, at the input where the code departs from it.  The strategy
    ["constructor"] is none of the three names, yet the lookups find
    [Object.prototype.constructor]: no retry is ever allowed and the
    delay is [undefined], where ["standard"] allows the retry and waits
    one second. *)
Theorem inherited_key_is_not_standard :
  named_max "constructor" = None
  /\ shouldRetry 0 (Some "constructor") = false
  /\ shouldRetry 0 (Some "standard") = true
  /\ calculateRetryDelay 0 (Some "constructor") = None
  /\ calculateRetryDelay 0 (Some "standard") = Some 1000.
Proof. repeat split; reflexivity. Qed.

End PolicyFacts.
(** ** The queue manager *)

Module QueueFacts.
Import Js Model OfflineQueue Spec.

(** *** Sorting keeps the items *)

Lemma insert_length (x : QueueItem) (l : list QueueItem) :
  List.length (insert_by_createdAt x l) = S (List.length l).
Proof.
  induction l as [| y l IH]; cbn; [ reflexivity | ].
  destruct (createdAt x <? createdAt y); cbn; [ rewrite IH | ]; reflexivity.
Qed.

Lemma sort_cons (x : QueueItem) (l : list QueueItem) :
  sort_newest_first (x :: l) = insert_by_createdAt x (sort_newest_first l).
Proof. reflexivity. Qed.

Lemma sort_length (l : list QueueItem) :
  List.length (sort_newest_first l) = List.length l.
Proof.
  induction l as [| x l IH]; [ reflexivity | ].
  rewrite sort_cons, insert_length, IH. reflexivity.
Qed.

Lemma existsb_insert (p : QueueItem -> bool) (x : QueueItem) (l : list QueueItem) :
  existsb p (insert_by_createdAt x l) = p x || existsb p l.
Proof.
  induction l as [| y l IH]; cbn; [ reflexivity | ].
  destruct (createdAt x <? createdAt y); cbn; [ | reflexivity ].
  rewrite IH. destruct (p x), (p y); reflexivity.
Qed.

Lemma existsb_sort (p : QueueItem -> bool) (l : list QueueItem) :
  existsb p (sort_newest_first l) = existsb p l.
Proof.
  induction l as [| x l IH]; [ reflexivity | ].
  rewrite sort_cons, existsb_insert, IH. reflexivity.
Qed.

Lemma In_insert (x y : QueueItem) (l : list QueueItem) :
  In y (insert_by_createdAt x l) <-> y = x \/ In y l.
Proof.
  induction l as [| z l IH]; cbn; [ intuition congruence | ].
  destruct (createdAt x <? createdAt z); cbn; [ rewrite IH | ]; intuition congruence.
Qed.

Lemma In_sort (y : QueueItem) (l : list QueueItem) :
  In y (sort_newest_first l) <-> In y l.
Proof.
  induction l as [| x l IH]; [ cbn; tauto | ].
  rewrite sort_cons, In_insert, IH. cbn. intuition congruence.
Qed.

(** *** Sequencing *)

Lemma exec_bind {A B : Type} (m : M A) (k : A -> M B) (w : World) :
  exec (bind m k) w = exec (k (eval m w)) (exec m w).
Proof. unfold exec, eval, bind. destruct (m w); reflexivity. Qed.

(** *** Routing *)

Ltac flags w :=
  destruct w as [d f o items next slot settings clk reads rnd rreads net calls tms];
  destruct f, d, o.

Lemma getQueue_spec (statusFilter : option Status) (w : World) :
  getQueue statusFilter w
  = (sort_newest_first (filter_status statusFilter (stored_queue w)), routed w).
Proof. flags w; reflexivity. Qed.

Lemma routed_stored_queue (w : World) : stored_queue (routed w) = stored_queue w.
Proof. flags w; reflexivity. Qed.

Lemma routed_fallback_active (w : World) : fallback_active (routed w) = fallback_active w.
Proof. flags w; reflexivity. Qed.

Lemma routed_max_size (w : World) : max_size (routed w) = max_size w.
Proof.
  unfold max_size, eval, getMaxQueueSize, bind, storage_get_settings.
  flags w; destruct settings; reflexivity.
Qed.

Lemma getQueueSize_spec (w : World) : getQueueSize w = (queue_size w, routed w).
Proof.
  unfold getQueueSize, bind, ret. rewrite getQueue_spec. cbn [filter_status].
  unfold queue_size, array_length. rewrite sort_length. reflexivity.
Qed.

Lemma getMaxQueueSize_spec (w : World) : getMaxQueueSize w = (max_size w, w).
Proof.
  unfold max_size, eval, getMaxQueueSize, bind, storage_get_settings, ret.
  destruct (settings_slot w); reflexivity.
Qed.

Lemma checkDuplicate_spec (text : string) (w : World) :
  checkDuplicate text w
  = (recent_duplicate text (next_now w) (stored_queue w),
     with_clock_reads (S (clock_reads w)) (routed w)).
Proof.
  unfold checkDuplicate, bind, ret. rewrite getQueue_spec. cbn [filter_status].
  unfold Date_now, recent_duplicate, next_now. rewrite existsb_sort.
  flags w; reflexivity.
Qed.

(** *** [enqueue], case by case *)

Lemma enqueue_spec (request : NoteRequest) (w : World) :
  let result := eval (enqueue request) w in
  let w' := exec (enqueue request) w in
  fallback_active w' = fallback_active w
  /\ settings_slot w' = settings_slot w
  /\ if queue_size w >=? max_size w then
       result = Rejected (msg_queue_full (max_size w))
       /\ stored_queue w' = stored_queue w
     else if recent_duplicate (req_content request) (next_now w) (stored_queue w) then
       result = Rejected msg_duplicate
       /\ stored_queue w' = stored_queue w
     else if fallback_active w && (queue_size w >=? 50) then
       result = Rejected msg_fallback_full
       /\ stored_queue w' = stored_queue w
     else
       exists new_id,
         result = Accepted new_id
         /\ stored_queue w'
            = (stored_queue w
                 ++ [new_record request (clock w (S (clock_reads w)))
                                (clock w (S (S (clock_reads w)))) new_id])%list.
Proof.
  unfold eval, exec, enqueue, bind.
  rewrite getQueueSize_spec, getMaxQueueSize_spec.
  rewrite routed_max_size.
  destruct (queue_size w >=? max_size w) eqn:Hfull.
  { cbn. rewrite routed_stored_queue, routed_fallback_active.
    repeat split. flags w; reflexivity. }
  rewrite checkDuplicate_spec.
  rewrite routed_stored_queue.
  replace (next_now (routed w)) with (next_now w) by (flags w; reflexivity).
  destruct (recent_duplicate (req_content request) (next_now w) (stored_queue w)) eqn:Hdup.
  { cbn. repeat split; flags w; reflexivity. }
  clear Hfull Hdup.
  flags w; cbn; unfold enqueueFallback, bind, ret, storage_get_fallback; cbn;
    unfold queue_size, array_length; cbn;
    fold (new_record request (clk (S reads)) (clk (S (S reads))));
    repeat match goal with
           | |- context [ Z.of_nat (List.length ?l) >=? 50 ] =>
               destruct (Z.of_nat (List.length l) >=? 50)
           end;
    cbn; repeat split; eexists; split; reflexivity.
Qed.

Lemma max_size_limit (w : World) : max_size w = limit w.
Proof.
  unfold max_size, limit, limit_of, eval, getMaxQueueSize, bind, storage_get_settings.
  destruct (settings_slot w) as [settings |]; [ | reflexivity ].
  destruct (maxSize settings) as [[| size | size] |]; reflexivity.
Qed.

Lemma recent_duplicate_iff (text : string) (now : Z) (queue : list QueueItem) :
  recent_duplicate text now queue = true <-> queued_within 300000 text now queue.
Proof.
  unfold recent_duplicate, queued_within. rewrite existsb_exists.
  split; intros [item [Hin Hitem]]; exists item; (split; [ exact Hin | ]).
  - apply andb_true_iff in Hitem. destruct Hitem as [Hcontent Hage].
    apply String.eqb_eq in Hcontent. apply Z.ltb_lt in Hage.
    split; [ exact Hcontent | exact Hage ].
  - destruct Hitem as [Hcontent Hage]. apply andb_true_iff.
    split; [ apply String.eqb_eq, Hcontent | apply Z.ltb_lt, Hage ].
Qed.

Lemma queue_size_app (l : list QueueItem) (x : QueueItem) :
  array_length (l ++ [x]) = array_length l + 1.
Proof. unfold array_length. rewrite length_app. cbn. lia. Qed.

(** One [enqueue] leaves the bound as it is and does not take the queue
    past it. *)
Lemma enqueue_step_bounded (request : NoteRequest) (w : World) :
  let w' := exec (enqueue request) w in
  limit w' = limit w
  /\ fallback_active w' = fallback_active w
  /\ queue_size w' <= Z.max (queue_size w) (bound w).
Proof.
  destruct (enqueue_spec request w) as [Hmode [Hsettings Hcases]].
  cbv zeta. unfold limit. rewrite Hsettings, Hmode.
  split; [ reflexivity | ]. split; [ reflexivity | ].
  rewrite max_size_limit in Hcases. unfold queue_size in *.
  destruct (array_length (stored_queue w) >=? limit w) eqn:Hfull;
    [ destruct Hcases as [_ ->]; lia | ].
  destruct (recent_duplicate _ _ _); [ destruct Hcases as [_ ->]; lia | ].
  destruct (fallback_active w && (array_length (stored_queue w) >=? 50)) eqn:Hcap;
    [ destruct Hcases as [_ ->]; lia | ].
  destruct Hcases as [new_id [_ ->]]. rewrite queue_size_app.
  unfold bound, limit. destruct (fallback_active w); cbn in Hcap; unfold limit in Hfull; lia.
Qed.

Lemma enqueue_all_bounded (requests : list NoteRequest) (w : World) :
  let w' := exec (enqueue_all requests) w in
  limit w' = limit w
  /\ fallback_active w' = fallback_active w
  /\ queue_size w' <= Z.max (queue_size w) (bound w).
Proof.
  revert w. induction requests as [| request rest IH]; intros w; cbv zeta.
  - split; [ reflexivity | ]. split; [ reflexivity | ]. cbn. lia.
  - change (enqueue_all (request :: rest))
      with (bind (enqueue request)
                 (fun result => bind (enqueue_all rest)
                                     (fun results => ret (result :: results)))).
    rewrite !exec_bind. cbn [exec ret snd].
    change (exec (ret _) ?x) with x.
    destruct (enqueue_step_bounded request w) as [Hlimit [Hmode Hsize]].
    destruct (IH (exec (enqueue request) w)) as [Hlimit' [Hmode' Hsize']].
    assert (Hbound : bound (exec (enqueue request) w) = bound w)
      by (unfold bound; rewrite Hlimit, Hmode; reflexivity).
    rewrite Hbound in Hsize'.
    split; [ congruence | ]. split; [ congruence | ]. lia.
Qed.

(** An [enqueue] made at the bound, case by case. *)
Lemma enqueue_at_the_bound (request : NoteRequest) (w : World) :
  bound w <= queue_size w ->
  stored_queue (exec (enqueue request) w) = stored_queue w
  /\ (limit w <= queue_size w ->
      eval (enqueue request) w = Rejected (msg_queue_full (limit w)))
  /\ (queue_size w < limit w ->
      queued_within 300000 (req_content request) (next_now w) (stored_queue w) ->
      eval (enqueue request) w = Rejected msg_duplicate)
  /\ (queue_size w < limit w ->
      ~ queued_within 300000 (req_content request) (next_now w) (stored_queue w) ->
      eval (enqueue request) w = Rejected msg_fallback_full).
Proof.
  intros Hfull.
  destruct (enqueue_spec request w) as [_ [_ Hcases]].
  rewrite max_size_limit in Hcases.
  pose proof (recent_duplicate_iff (req_content request) (next_now w) (stored_queue w))
    as Hdup.
  destruct (queue_size w >=? limit w) eqn:Hmax.
  { destruct Hcases as [Hresult Hstore].
    split; [ exact Hstore | ]. split; [ intros _; exact Hresult | ].
    split; intros Hroom; lia. }
  destruct (recent_duplicate _ _ _).
  { destruct Hcases as [Hresult Hstore].
    split; [ exact Hstore | ]. split; [ lia | ].
    split; [ intros _ _; exact Hresult | ].
    intros _ Hnone. exfalso. apply Hnone, Hdup. reflexivity. }
  unfold bound in Hfull.
  destruct (fallback_active w); [ | lia ].
  destruct (queue_size w >=? 50) eqn:Hcap; [ | lia ].
  cbn in Hcases. destruct Hcases as [Hresult Hstore].
  split; [ exact Hstore | ]. split; [ lia | ].
  split; [ | intros _ _; exact Hresult ].
  intros _ Hsome. apply Hdup in Hsome. discriminate.
Qed.

(** C6, as the code has it.  The limit in force is the saved [maxSize],
    or 100 when none or a [maxSize] of 0 is saved; the bound is that limit
    on the primary store, and 50 or the limit where it is lower on the
    fallback store.  No sequence of [enqueue] calls changes the bound or
    takes the queue past it: the size never exceeds the larger of the size
    at the start and the bound, so a queue within the bound stays within
    it, and within 50 on the fallback store whatever [maxSize] says.  An
    [enqueue] made at the bound adds nothing.  It is rejected with the
    queue-full message that names the limit when the size has reached the
    limit; below the limit, on the fallback store at 50, with the
    duplicate message when the content is that of an item created less
    than 300000 ms before, and with the fallback's queue-full message when
    it is not. *)
Theorem enqueue_never_exceeds_capacity
        (requests : list NoteRequest) (request : NoteRequest) (w : World) :
  let w' := exec (enqueue_all requests) w in
  limit w' = limit w
  /\ fallback_active w' = fallback_active w
  /\ queue_size w' <= Z.max (queue_size w) (bound w)
  /\ (queue_size w <= bound w ->
      queue_size w' <= limit w /\ (fallback_active w = true -> queue_size w' <= 50))
  /\ (bound w' <= queue_size w' ->
      stored_queue (exec (enqueue request) w') = stored_queue w'
      /\ (limit w' <= queue_size w' ->
          eval (enqueue request) w' = Rejected (msg_queue_full (limit w')))
      /\ (queue_size w' < limit w' ->
          queued_within 300000 (req_content request) (next_now w') (stored_queue w') ->
          eval (enqueue request) w' = Rejected msg_duplicate)
      /\ (queue_size w' < limit w' ->
          ~ queued_within 300000 (req_content request) (next_now w') (stored_queue w') ->
          eval (enqueue request) w' = Rejected msg_fallback_full)).
Proof.
  intros w'.
  destruct (enqueue_all_bounded requests w) as [Hlimit [Hmode Hsize]].
  fold w' in Hlimit, Hmode, Hsize.
  split; [ exact Hlimit | ]. split; [ exact Hmode | ]. split; [ exact Hsize | ].
  split; [ | apply enqueue_at_the_bound ].
  intros Hwithin. unfold bound in *.
  destruct (fallback_active w); split; try lia; intros H; try discriminate H; lia.
Qed.

(** The theorem on a queue whose saved [maxSize] is 1, after two calls:
    one item is stored and a third call is turned down. *)
Lemma enqueue_never_exceeds_capacity_witness :
  let w' := exec (enqueue_all [Scenario.note "a"; Scenario.note "b"]) Scenario.tiny_world in
  limit Scenario.tiny_world = 1
  /\ queue_size w' = 1
  /\ eval (enqueue (Scenario.note "c")) w' = Rejected "队列已满（1条），请清理后重试"
  /\ stored_queue (exec (enqueue (Scenario.note "c")) w') = stored_queue w'.
Proof.
  intros w'.
  destruct (enqueue_never_exceeds_capacity
              [Scenario.note "a"; Scenario.note "b"] (Scenario.note "c") Scenario.tiny_world)
    as [_ [_ [_ [_ Hfull]]]].
  fold w' in Hfull.
  destruct Hfull as [Hstore [Hmessage _]]; [ vm_compute; discriminate | ].
  split; [ reflexivity | ]. split; [ reflexivity | ].
  split; [ | exact Hstore ].
  rewrite Hmessage; [ reflexivity | vm_compute; discriminate ].
Defined.

(** C6 as stated fails in two places.  With a [maxSize] of 0 saved the
    primary store takes the item, and holds one item more than [maxSize].
    And on the fallback store, with 50 items stored and the default limit
    of 100, an [enqueue] of content queued a moment ago is turned down with
    the duplicate message, which is neither of the queue-full messages. *)
Lemma enqueue_departs_from_the_stated_bound :
  let w1 := exec (enqueue (Scenario.note "a")) Scenario.zero_limit_world in
  (option_map maxSize (settings_slot Scenario.zero_limit_world) = Some (Some 0)
   /\ fallback_active w1 = false
   /\ eval (enqueue (Scenario.note "a")) Scenario.zero_limit_world = Accepted 1
   /\ queue_size w1 = 1)
  /\ (fallback_active Scenario.full_fallback_world = true
      /\ queue_size Scenario.full_fallback_world = 50
      /\ limit Scenario.full_fallback_world = 100
      /\ eval (enqueue (Scenario.note "x")) Scenario.full_fallback_world
         = Rejected msg_duplicate
      /\ msg_duplicate <> msg_fallback_full
      /\ msg_duplicate <> msg_queue_full 100).
Proof.
  repeat split; try (vm_compute; reflexivity);
    intros H; vm_compute in H; discriminate H.
Qed.

(** Below [maxSize], a recent duplicate is turned down as such. *)
Lemma enqueue_rejects_duplicate (request : NoteRequest) (w : World) :
  queue_size w < max_size w ->
  recent_duplicate (req_content request) (next_now w) (stored_queue w) = true ->
  eval (enqueue request) w = Rejected msg_duplicate
  /\ stored_queue (exec (enqueue request) w) = stored_queue w.
Proof.
  intros Hroom Hdup.
  destruct (enqueue_spec request w) as [_ [_ Hcases]].
  destruct (queue_size w >=? max_size w) eqn:Hmax; [ lia | ].
  rewrite Hdup in Hcases. exact Hcases.
Qed.

(** With room in the store and no recent duplicate, the item is stored. *)
Lemma enqueue_accepts (request : NoteRequest) (w : World) :
  queue_size w < max_size w ->
  queue_size w < capacity w ->
  recent_duplicate (req_content request) (next_now w) (stored_queue w) = false ->
  exists new_id,
    eval (enqueue request) w = Accepted new_id
    /\ stored_queue (exec (enqueue request) w)
       = (stored_queue w
            ++ [new_record request (clock w (S (clock_reads w)))
                           (clock w (S (S (clock_reads w)))) new_id])%list.
Proof.
  intros Hroom Hcap Hfresh.
  destruct (enqueue_spec request w) as [_ [_ Hcases]].
  destruct (queue_size w >=? max_size w) eqn:Hmax; [ lia | ].
  rewrite Hfresh in Hcases. unfold capacity in Hcap.
  destruct (fallback_active w); cbn [andb] in Hcases; [ | exact Hcases ].
  destruct (queue_size w >=? 50) eqn:H50; [ lia | exact Hcases ].
Qed.

(** C7, as the code has it.  The size is tested first: once the queue
    holds as many items as the limit in force (the saved [maxSize], or 100
    when none or 0 is saved), an [enqueue] is rejected with the queue-full
    message and adds nothing, duplicate or not.  Below the limit, an
    [enqueue] whose content is that of a queued item created less than
    300000 ms, five minutes, before the clock reading [checkDuplicate]
    takes is rejected with the duplicate message and adds nothing.  Below
    the limit with no such item, every queued item of that content being
    300000 ms old or more, the [enqueue] succeeds (on the fallback store,
    below its 50) and the new record is the last of the store. *)
Theorem enqueue_duplicate_window (request : NoteRequest) (w : World) :
  (limit w <= queue_size w ->
   eval (enqueue request) w = Rejected (msg_queue_full (limit w))
   /\ stored_queue (exec (enqueue request) w) = stored_queue w)
  /\ (queue_size w < limit w ->
      queued_within 300000 (req_content request) (next_now w) (stored_queue w) ->
      eval (enqueue request) w = Rejected msg_duplicate
      /\ stored_queue (exec (enqueue request) w) = stored_queue w)
  /\ (queue_size w < limit w ->
      (forall item, In item (stored_queue w) -> content item = req_content request ->
                    300000 <= next_now w - createdAt item) ->
      (fallback_active w = true -> queue_size w < 50) ->
      exists new_id,
        eval (enqueue request) w = Accepted new_id
        /\ stored_queue (exec (enqueue request) w)
           = (stored_queue w
                ++ [new_record request (clock w (S (clock_reads w)))
                               (clock w (S (S (clock_reads w)))) new_id])%list).
Proof.
  pose proof (recent_duplicate_iff (req_content request) (next_now w) (stored_queue w))
    as Hdup.
  split; [ | split ].
  - intros Hfull.
    destruct (enqueue_spec request w) as [_ [_ Hcases]].
    rewrite max_size_limit in Hcases.
    destruct (queue_size w >=? limit w) eqn:Hmax; [ exact Hcases | lia ].
  - intros Hroom Hsome. apply enqueue_rejects_duplicate.
    + rewrite max_size_limit. exact Hroom.
    + apply Hdup. exact Hsome.
  - intros Hroom Hold Hcap. apply enqueue_accepts.
    + rewrite max_size_limit. exact Hroom.
    + unfold capacity. rewrite max_size_limit.
      destruct (fallback_active w); [ apply Hcap; reflexivity | exact Hroom ].
    + destruct (recent_duplicate _ _ _); [ | reflexivity ].
      destruct (proj1 Hdup eq_refl) as [item [Hin [Hcontent Hage]]].
      specialize (Hold item Hin Hcontent). lia.
Qed.

(** The theorem at the edge of the window: an item of content ["x"] was
    created at time 0; at 299999 ms an [enqueue] of ["x"] is turned down
    as a duplicate, at 300000 ms it is accepted. *)
Lemma enqueue_duplicate_window_witness :
  (eval (enqueue (Scenario.note "x")) (Scenario.aged_world 299999) = Rejected msg_duplicate
   /\ stored_queue (exec (enqueue (Scenario.note "x")) (Scenario.aged_world 299999))
      = stored_queue (Scenario.aged_world 299999))
  /\ exists new_id,
      eval (enqueue (Scenario.note "x")) (Scenario.aged_world 300000) = Accepted new_id.
Proof.
  destruct (enqueue_duplicate_window (Scenario.note "x") (Scenario.aged_world 299999))
    as [_ [Hdup _]].
  destruct (enqueue_duplicate_window (Scenario.note "x") (Scenario.aged_world 300000))
    as [_ [_ Hold]].
  split.
  - apply Hdup; [ vm_compute; reflexivity | ].
    exists (mkItem 1 "x" 0 "" "" "" Pending 0 0 0 "" []).
    split; [ left; reflexivity | split; [ reflexivity | vm_compute; reflexivity ] ].
  - destruct Hold as [new_id [Hok _]].
    + vm_compute. reflexivity.
    + intros item [<- | []] _. vm_compute. discriminate.
    + intros H. vm_compute in H. discriminate H.
    + exists new_id. exact Hok.
Defined.

(** C7 as stated fails when the first [enqueue] fills the queue: with
    [maxSize] 1, the second [enqueue] of the same content two seconds
    later is rejected with the queue-full message, not the duplicate
    one. *)
Lemma duplicate_of_a_full_queue :
  let w1 := exec (enqueue (Scenario.note "x")) Scenario.tiny_world in
  map content (stored_queue w1) = ["x"]
  /\ map createdAt (stored_queue w1) = [1000]
  /\ next_now w1 = 3000
  /\ recent_duplicate "x" (next_now w1) (stored_queue w1) = true
  /\ eval (enqueue (Scenario.note "x")) w1 = Rejected (msg_queue_full 1)
  /\ msg_queue_full 1 <> msg_duplicate.
Proof.
  repeat split; try (vm_compute; reflexivity).
  intros H; vm_compute in H; discriminate H.
Qed.

(** *** [dequeue] *)

Lemma dequeue_spec (key : Q) (w : World) :
  eval (dequeue key) w = true
  /\ fallback_active (exec (dequeue key) w) = fallback_active w
  /\ stored_queue (exec (dequeue key) w)
     = filter (fun item => id_neq (id item) key) (stored_queue w).
Proof. flags w; repeat split. Qed.

Lemma find_filtered_out (key : Q) (l : list QueueItem) :
  find (fun item => id_eq (id item) key)
       (filter (fun item => id_neq (id item) key) l) = None.
Proof.
  induction l as [| x l IH]; [ reflexivity | ].
  cbn. unfold id_neq, id_eq in *.
  destruct (Qeq_bool (id x) key) eqn:Hx; cbn; [ exact IH | ].
  rewrite Hx. exact IH.
Qed.

Lemma filter_twice (p : QueueItem -> bool) (l : list QueueItem) :
  filter p (filter p l) = filter p l.
Proof.
  induction l as [| x l IH]; [ reflexivity | ].
  cbn. destruct (p x) eqn:Hx; cbn; [ rewrite Hx, IH | ]; auto.
Qed.

(** C9, as the code has it. [dequeue key] removes the records of id
    [key] and no other, leaves no record of that id behind, changes
    nothing when repeated, and answers [true] whether or not there was
    such a record. *)
Theorem dequeue_answers_true (key : Q) (w : World) :
  eval (dequeue key) w = true
  /\ stored_queue (exec (dequeue key) w)
     = filter (fun item => id_neq (id item) key) (stored_queue w)
  /\ stored_item key (exec (dequeue key) w) = None
  /\ stored_queue (exec (dequeue key) (exec (dequeue key) w))
     = stored_queue (exec (dequeue key) w)
  /\ eval (dequeue key) (exec (dequeue key) w) = true.
Proof.
  destruct (dequeue_spec key w) as [Htrue [_ Hstored]].
  destruct (dequeue_spec key (exec (dequeue key) w)) as [Htrue' [_ Hstored']].
  repeat split; try assumption.
  - unfold stored_item. rewrite Hstored. apply find_filtered_out.
  - rewrite Hstored', Hstored. apply filter_twice.
Qed.

(** C9 as stated fails on an empty queue: no record has the id 7, and
    [dequeue 7] answers [true]. *)
Lemma dequeue_of_a_missing_id :
  stored_item 7 Scenario.offline_world = None
  /\ eval (dequeue 7) Scenario.offline_world = true.
Proof. split; reflexivity. Qed.

(** *** [createNote] and empty content *)

(** C8, as the code has it. The check for empty content is the caller's:
    [createNote] turns down a content that is empty or only white space
    before any request leaves and before [enqueue] is reached, so nothing
    in the host changes, the queue included.  [enqueue] itself does not
    look at the content: given the same content it stores the item when
    there is room and no recent duplicate. *)
Theorem createNote_checks_empty_content
        (apiUrl token text : string) (kind : Z) (meta : list (string * string))
        (request : NoteRequest) (w : World) :
  (ApiClient.falsy text || ApiClient.blank (ApiClient.code_units text)) = true ->
  req_content request = text ->
  let result := eval (ApiClient.createNote apiUrl token text kind meta) w in
  ApiClient.note_success result = false
  /\ ApiClient.queued result = false
  /\ exec (ApiClient.createNote apiUrl token text kind meta) w = w
  /\ ((ApiClient.falsy apiUrl || ApiClient.falsy token) = false ->
      ApiClient.note_message result = ApiClient.T "status_error_emptyContent" None)
  /\ (queue_size w < max_size w ->
      queue_size w < capacity w ->
      recent_duplicate text (next_now w) (stored_queue w) = false ->
      exists new_id,
        eval (enqueue request) w = Accepted new_id
        /\ exists record,
             In record (stored_queue (exec (enqueue request) w))
             /\ content record = text).
Proof.
  intros Hempty Hcontent result. subst result.
  unfold ApiClient.createNote, eval, exec.
  destruct (ApiClient.falsy apiUrl || ApiClient.falsy token);
    rewrite ?Hempty; cbn; repeat split; try discriminate.
  all: intros Hroom Hcap Hfresh;
    rewrite <- Hcontent in Hfresh;
    destruct (enqueue_accepts request w Hroom Hcap Hfresh) as [new_id [Hok Hstored]];
    exists new_id; split; [ exact Hok | ];
    eexists; split;
      [ unfold exec in Hstored |- *; rewrite Hstored; apply in_or_app; right; left;
        reflexivity
      | exact Hcontent ].
Qed.

(** The theorem on the empty note, on a freshly started extension. *)
Lemma createNote_checks_empty_content_witness :
  let result :=
    eval (ApiClient.createNote "https://blinko.example" "token" "" 0 []) Scenario.offline_world in
  ApiClient.note_success result = false
  /\ ApiClient.note_message result = ApiClient.T "status_error_emptyContent" None
  /\ exec (ApiClient.createNote "https://blinko.example" "token" "" 0 []) Scenario.offline_world
     = Scenario.offline_world
  /\ exists new_id, eval (enqueue (Scenario.note "")) Scenario.offline_world = Accepted new_id.
Proof.
  destruct (createNote_checks_empty_content
              "https://blinko.example" "token" "" 0 [] (Scenario.note "") Scenario.offline_world)
    as [Hfail [_ [Hsame [Hmessage Henqueue]]]]; [ reflexivity | reflexivity | ].
  destruct Henqueue as [new_id [Hok _]];
    [ vm_compute; reflexivity | vm_compute; reflexivity | reflexivity | ].
  split; [ exact Hfail | ].
  split; [ apply Hmessage; reflexivity | ].
  split; [ exact Hsame | exists new_id; exact Hok ].
Defined.

(** C8 as stated fails: [enqueue] accepts the item whose content is
    empty, and the item is in the queue afterwards. *)
Lemma enqueue_accepts_empty_content :
  eval (enqueue (Scenario.note "")) Scenario.offline_world = Accepted 1
  /\ map content (stored_queue (exec (enqueue (Scenario.note "")) Scenario.offline_world))
     = [""].
Proof. split; reflexivity. Qed.

End QueueFacts.
(** ** The retry orchestrator *)

Module BackgroundFacts.
Import Js Model OfflineQueue ApiClient Background Policy Spec QueueFacts.

(** *** Ids *)

Lemma id_eq_sym (a b : Q) : id_eq a b = id_eq b a.
Proof.
  unfold id_eq. destruct (Qeq_bool a b) eqn:Hab, (Qeq_bool b a) eqn:Hba; try reflexivity.
  - apply Qeq_bool_sym in Hab. congruence.
  - apply Qeq_bool_sym in Hba. congruence.
Qed.

Lemma id_eq_trans (a b c : Q) : id_eq a b = true -> id_eq b c = true -> id_eq a c = true.
Proof. apply Qeq_bool_trans. Qed.

(** Equal ids answer every comparison alike. *)
Lemma id_eq_congr (a b c : Q) : id_eq a b = true -> id_eq c a = id_eq c b.
Proof.
  intros Hab.
  destruct (id_eq c a) eqn:Hca, (id_eq c b) eqn:Hcb; try reflexivity.
  - rewrite (id_eq_trans c a b Hca Hab) in Hcb. discriminate.
  - rewrite id_eq_sym in Hab. rewrite (id_eq_trans c b a Hcb Hab) in Hca. discriminate.
Qed.

(** *** The three ways the code rewrites one record are one *)

Lemma find_id (key : Q) (l : list QueueItem) (item : QueueItem) :
  find (fun x => id_eq (id x) key) l = Some item -> id_eq (id item) key = true.
Proof. intros H. apply find_some in H. apply H. Qed.

Lemma replace_record_patched (key : Q) (f : QueueItem -> QueueItem)
      (l : list QueueItem) (item : QueueItem) :
  (forall x, id (f x) = id x) ->
  find (fun x => id_eq (id x) key) l = Some item ->
  replace_record (f item) l = patched key f l.
Proof.
  intros Hid Hfind. pose proof (find_id _ _ _ Hfind) as Hkey.
  induction l as [| x l IH]; [ discriminate | ].
  cbn in Hfind |- *. rewrite Hid, (id_eq_congr (id item) key (id x) Hkey).
  destruct (id_eq (id x) key); [ congruence | ].
  rewrite (IH Hfind). reflexivity.
Qed.

Lemma findIndex_find (key : Q) (l : list QueueItem) :
  match findIndex (fun x => id_eq (id x) key) l with
  | Some index => exists item, find (fun x => id_eq (id x) key) l = Some item
  | None => find (fun x => id_eq (id x) key) l = None
  end.
Proof.
  induction l as [| x l IH]; [ reflexivity | ].
  cbn. destruct (id_eq (id x) key); [ eauto | ].
  destruct (findIndex _ l); exact IH.
Qed.

Lemma update_at_patched (key : Q) (f : QueueItem -> QueueItem)
      (l : list QueueItem) (index : nat) :
  findIndex (fun x => id_eq (id x) key) l = Some index ->
  update_at index f l = patched key f l.
Proof.
  revert index. induction l as [| x l IH]; intros index; [ discriminate | ].
  cbn. destruct (id_eq (id x) key).
  - intros [= <-]. reflexivity.
  - destruct (findIndex _ l) as [n |]; [ | discriminate ].
    intros [= <-]. cbn. rewrite (IH n eq_refl). reflexivity.
Qed.

Lemma assign_id (updates : Updates) (now : Z) (item : QueueItem) :
  set_id updates = None -> id (assign item updates now) = id item.
Proof. intros Hid. cbn. rewrite Hid. reflexivity. Qed.

Lemma replace_record_found (record : QueueItem) (l : list QueueItem) (item : QueueItem) :
  find (fun x => id_eq (id x) (id record)) l = Some item ->
  existsb (fun x => id_eq (id x) (id record)) l = true.
Proof.
  intros Hfind. apply find_some in Hfind. apply existsb_exists. exists item. exact Hfind.
Qed.

(** *** [updateItem] *)

Lemma updateItem_spec (key : Q) (updates : Updates) (w : World) :
  set_id updates = None ->
  let w' := exec (updateItem key updates) w in
  fallback_active w' = fallback_active w
  /\ settings_slot w' = settings_slot w
  /\ clock w' = clock w
  /\ network w' = network w
  /\ network_calls w' = network_calls w
  /\ timers w' = timers w
  /\ match stored_item key w with
     | Some _ =>
         eval (updateItem key updates) w = true
         /\ stored_queue w'
            = patched key (fun item => assign item updates (next_now w)) (stored_queue w)
         /\ clock_reads w' = S (clock_reads w)
     | None =>
         eval (updateItem key updates) w = false
         /\ stored_queue w' = stored_queue w
         /\ clock_reads w' = clock_reads w
     end.
Proof.
  intros Hid. unfold stored_item, next_now.
  flags w; unfold exec, eval, updateItem, updateItemFallback, bind, stored_queue; cbn.
  1-4,8:
    pose proof (findIndex_find key (or_undefined slot [])) as Hfind;
    pose proof (update_at_patched key (fun item => assign item updates (clk reads))
                                  (or_undefined slot [])) as Hupdate;
    destruct (findIndex _ (or_undefined slot [])) as [index |];
    [ destruct Hfind as [item ->]; cbn; rewrite (Hupdate index eq_refl); repeat split
    | rewrite Hfind; cbn; repeat split ].
  all:
    pose proof (replace_record_patched key (fun item => assign item updates (clk reads))
                                       items) as Hreplace;
    destruct (find _ items) as [item |] eqn:Hfound; cbn;
    [ | repeat split ].
  all:
    rewrite Hid; cbn [or_undefined];
    assert (Hheld : existsb (fun x => id_eq (id x) (id item)) items = true)
      by (apply existsb_exists; exists item; split;
          [ apply (find_some _ _ Hfound) | apply Qeq_bool_refl ]);
    rewrite Hheld;
    rewrite (Hreplace item (fun x => assign_id updates (clk reads) x Hid) eq_refl);
    repeat split.
Qed.

Lemma find_patched (key : Q) (f : QueueItem -> QueueItem) (l : list QueueItem) :
  (forall x, id (f x) = id x) ->
  find (fun x => id_eq (id x) key) (patched key f l)
  = option_map f (find (fun x => id_eq (id x) key) l).
Proof.
  intros Hid. induction l as [| x l IH]; [ reflexivity | ].
  cbn. destruct (id_eq (id x) key) eqn:Hx; cbn.
  - rewrite Hid, Hx. reflexivity.
  - rewrite Hx. exact IH.
Qed.

(** *** Records out of reach of a write *)

Lemma same_outside_refl (touched : Q -> bool) (l : list QueueItem) :
  same_outside touched l l.
Proof. induction l; constructor; auto. Qed.

Lemma same_outside_trans (touched : Q -> bool) (l l' l'' : list QueueItem) :
  same_outside touched l l' -> same_outside touched l' l'' -> same_outside touched l l''.
Proof.
  intros H. revert l''. induction H as [| x y l l' [Hid Hsame] _ IH]; intros l'' H'.
  - inversion H'. constructor.
  - inversion H' as [| y' z l1 l2 [Hid' Hsame'] Hrest]; subst.
    constructor; [ | apply IH; exact Hrest ].
    split; [ congruence | ].
    intros Hout. rewrite <- (Hsame Hout). apply Hsame'. rewrite Hid. exact Hout.
Qed.

Lemma same_outside_weaken (touched touched' : Q -> bool) (l l' : list QueueItem) :
  (forall key, touched key = true -> touched' key = true) ->
  same_outside touched l l' -> same_outside touched' l l'.
Proof.
  intros Hsub H. induction H as [| x y l l' [Hid Hsame] _ IH]; constructor; [ | exact IH ].
  split; [ exact Hid | ]. intros Hout. apply Hsame.
  destruct (touched (id x)) eqn:Ht; [ | reflexivity ].
  rewrite (Hsub _ Ht) in Hout. discriminate.
Qed.

Lemma patched_same_outside (key : Q) (f : QueueItem -> QueueItem) (l : list QueueItem) :
  (forall x, id (f x) = id x) ->
  same_outside (fun i => id_eq i key) l (patched key f l).
Proof.
  intros Hid. induction l as [| x l IH]; [ constructor | ].
  cbn. destruct (id_eq (id x) key) eqn:Hx.
  - constructor; [ | apply (same_outside_refl (fun i => id_eq i key)) ].
    split; [ apply Hid | ]. rewrite Hx. discriminate.
  - constructor; [ split; reflexivity | exact IH ].
Qed.

Lemma same_outside_In (touched : Q -> bool) (l l' : list QueueItem) (item : QueueItem) :
  same_outside touched l l' -> In item l -> touched (id item) = false -> In item l'.
Proof.
  intros H. induction H as [| x y l l' [_ Hsame] _ IH]; cbn; [ tauto | ].
  intros [-> | Hin] Hout; [ left; apply Hsame; exact Hout | right; auto ].
Qed.

Lemma same_outside_ids (touched : Q -> bool) (l l' : list QueueItem) :
  same_outside touched l l' -> map id l' = map id l.
Proof.
  intros H. induction H as [| x y l l' [Hid _] _ IH]; cbn; [ reflexivity | ].
  rewrite Hid, IH. reflexivity.
Qed.

Lemma updateItem_same_outside (key : Q) (updates : Updates) (w : World) :
  set_id updates = None ->
  same_outside (fun i => id_eq i key)
               (stored_queue w) (stored_queue (exec (updateItem key updates) w)).
Proof.
  intros Hid.
  destruct (updateItem_spec key updates w Hid) as [_ [_ [_ [_ [_ [_ Hcases]]]]]].
  destruct (stored_item key w).
  - destruct Hcases as [_ [-> _]]. apply patched_same_outside.
    intros x. apply assign_id. exact Hid.
  - destruct Hcases as [_ [-> _]]. apply (same_outside_refl (fun i => id_eq i key)).
Qed.

(** *** [retryQueueItem], step by step *)

(** *** [retryQueueItem], step by step *)

Lemma retryQueuedNote_spec (item : QueueItem) (w : World) :
  retryQueuedNote item w
  = (next_delivery item w, with_network_calls (S (network_calls w)) w).
Proof.
  unfold next_delivery, eval, retryQueuedNote, bind, fetch, ret.
  destruct (network w (network_calls w)); reflexivity.
Qed.

Lemma next_delivery_frame (item : QueueItem) (w w' : World) :
  network w' = network w -> network_calls w' = network_calls w ->
  next_delivery item w' = next_delivery item w.
Proof.
  intros Hnet Hcalls. unfold next_delivery, eval, retryQueuedNote, bind, fetch.
  rewrite Hnet, Hcalls. destruct (network w (network_calls w)); reflexivity.
Qed.

Lemma retryQueueItem_exec (item : QueueItem) (w : World) :
  exec (retryQueueItem item) w
  = if negb (shouldRetry (retryCount item) (strategy_of w)) then
      exec (updateItem (id item) upd_failed) w
    else
      let w1 := exec (updateItem (id item) upd_retrying) w in
      let result := next_delivery item w1 in
      let w2 := with_network_calls (S (network_calls w1)) w1 in
      if success result then exec (updateItem (id item) upd_success) w2
      else
        let w3 := exec (updateItem (id item) (upd_pending item result)) w2 in
        with_timers
          (timers w3
             ++ [mkTimer item (calculateRetryDelay (retryCount item + 1) (strategy_of w))])
          w3.
Proof.
  unfold retryQueueItem, getQueueSettings, storage_get_settings, exec, bind, ret.
  fold (strategy_of w).
  destruct (negb (shouldRetry (retryCount item) (strategy_of w))).
  - fold upd_failed. destruct (updateItem (id item) upd_failed w); reflexivity.
  - fold upd_retrying. destruct (updateItem (id item) upd_retrying w) as [b w1].
    cbn [snd]. rewrite retryQueuedNote_spec.
    destruct (success (next_delivery item w1)).
    + fold upd_success. destruct (updateItem (id item) upd_success _); reflexivity.
    + fold (upd_pending item (next_delivery item w1)).
      destruct (updateItem (id item) (upd_pending item (next_delivery item w1)) _);
        reflexivity.
Qed.

Lemma retryQueueItem_same_outside (item : QueueItem) (w : World) :
  same_outside (fun i => id_eq i (id item))
               (stored_queue w) (stored_queue (exec (retryQueueItem item) w)).
Proof.
  rewrite retryQueueItem_exec.
  destruct (negb (shouldRetry (retryCount item) (strategy_of w)));
    [ apply updateItem_same_outside; reflexivity | ].
  cbv zeta.
  set (w1 := exec (updateItem (id item) upd_retrying) w).
  set (w2 := with_network_calls (S (network_calls w1)) w1).
  assert (H1 : same_outside (fun i => id_eq i (id item)) (stored_queue w) (stored_queue w2))
    by (apply updateItem_same_outside; reflexivity).
  destruct (success (next_delivery item w1)).
  - eapply same_outside_trans; [ exact H1 | apply updateItem_same_outside; reflexivity ].
  - eapply same_outside_trans; [ exact H1 | ].
    apply (updateItem_same_outside (id item) (upd_pending item (next_delivery item w1)) w2 eq_refl).
Qed.

Lemma for_each_same_outside (items : list QueueItem) (w : World) :
  same_outside (ids_of items) (stored_queue w) (stored_queue (exec (for_each items) w)).
Proof.
  revert w. induction items as [| item rest IH]; intros w.
  - apply same_outside_refl.
  - change (for_each (item :: rest))
      with (bind (retryQueueItem item) (fun _ => for_each rest)).
    rewrite exec_bind.
    eapply same_outside_trans.
    + eapply same_outside_weaken; [ | apply retryQueueItem_same_outside ].
      intros key Hkey. unfold ids_of. cbn. rewrite Hkey. reflexivity.
    + eapply same_outside_weaken; [ | apply IH ].
      intros key Hkey. unfold ids_of in *. cbn. rewrite Hkey. apply orb_true_r.
Qed.

(** *** The driver *)

Lemma processQueueOnStartup_exec (w : World) :
  exec processQueueOnStartup w
  = exec (for_each (filter live (sort_newest_first (stored_queue w)))) (routed w).
Proof.
  unfold processQueueOnStartup, exec, bind. rewrite getQueue_spec. cbn [filter_status].
  destruct (filter live (sort_newest_first (stored_queue w))); reflexivity.
Qed.

Lemma distinct_ids_apart (l : list QueueItem) (a b : QueueItem) :
  distinct_ids l = true -> In a l -> In b l -> a <> b -> id_eq (id a) (id b) = false.
Proof.
  induction l as [| x l IH]; cbn; [ tauto | ].
  intros Hdistinct. apply andb_true_iff in Hdistinct. destruct Hdistinct as [Hx Hrest].
  rewrite forallb_forall in Hx. unfold id_neq in Hx.
  intros [-> | Ha] [-> | Hb] Hneq.
  - congruence.
  - specialize (Hx b Hb). rewrite id_eq_sym. unfold id_eq.
    destruct (Qeq_bool (id b) (id a)); [ discriminate | reflexivity ].
  - specialize (Hx a Ha). unfold id_eq.
    destruct (Qeq_bool (id a) (id b)); [ discriminate | reflexivity ].
  - apply IH; assumption.
Qed.

Lemma live_not_terminal (item : QueueItem) : terminal item = true -> live item = false.
Proof. unfold terminal, live. destruct (status item); cbn; congruence. Qed.

Lemma filter_none {A : Type} (p : A -> bool) (l : list A) :
  (forall x, In x l -> p x = false) -> filter p l = [].
Proof.
  induction l as [| x l IH]; intros H; [ reflexivity | ].
  cbn. rewrite (H x (or_introl eq_refl)). apply IH. intros y Hy. apply H. right. exact Hy.
Qed.

(** The driver reads the status: [processQueueOnStartup] hands
    [retryQueueItem] the items whose status is [pending] or [retrying] and
    no other.  So, ids being distinct, a pass leaves every stored item
    whose status is [success] or [failed] exactly as it is, and the store
    keeps its ids; and on a queue of terminal items only, a pass calls no
    delivery, sets no timer and writes nothing. *)
Theorem driver_passes_over_terminal_items (item : QueueItem) (w : World) :
  distinct_ids (stored_queue w) = true ->
  In item (stored_queue w) ->
  terminal item = true ->
  let w' := exec processQueueOnStartup w in
  In item (stored_queue w')
  /\ map id (stored_queue w') = map id (stored_queue w)
  /\ ((forall other, In other (stored_queue w) -> terminal other = true) ->
      stored_queue w' = stored_queue w
      /\ network_calls w' = network_calls w
      /\ timers w' = timers w).
Proof.
  intros Hdistinct Hin Hterminal w'. subst w'.
  rewrite processQueueOnStartup_exec.
  set (pendingItems := filter live (sort_newest_first (stored_queue w))).
  pose proof (for_each_same_outside pendingItems (routed w)) as Hsame.
  rewrite routed_stored_queue in Hsame.
  split; [ | split ].
  - eapply same_outside_In; [ exact Hsame | exact Hin | ].
    unfold ids_of. destruct (existsb _ pendingItems) eqn:Hsome; [ | reflexivity ].
    apply existsb_exists in Hsome. destruct Hsome as [other [Hother Hid]].
    apply filter_In in Hother. destruct Hother as [Hother Hlive].
    apply (proj1 (In_sort _ _)) in Hother.
    rewrite (distinct_ids_apart _ item other Hdistinct Hin Hother) in Hid;
      [ discriminate | ].
    intros ->. rewrite (live_not_terminal _ Hterminal) in Hlive. discriminate.
  - eapply same_outside_ids. exact Hsame.
  - intros Hall. subst pendingItems. rewrite filter_none.
    + cbn. rewrite routed_stored_queue.
      repeat split; flags w; reflexivity.
    + intros other Hother. apply (proj1 (In_sort _ _)) in Hother.
      apply live_not_terminal, Hall, Hother.
Qed.

(** The theorem on a store that holds a delivered item and a waiting
    one, and on a store that holds a delivered item only. *)
Lemma driver_passes_over_terminal_items_witness :
  (let w' := exec processQueueOnStartup Scenario.mixed_world in
   In Scenario.delivered_item (stored_queue w')
   /\ map id (stored_queue w') = map id (stored_queue Scenario.mixed_world))
  /\ (let w' := exec processQueueOnStartup Scenario.delivered_world in
      stored_queue w' = stored_queue Scenario.delivered_world
      /\ network_calls w' = network_calls Scenario.delivered_world
      /\ timers w' = timers Scenario.delivered_world).
Proof.
  destruct (driver_passes_over_terminal_items Scenario.delivered_item Scenario.mixed_world)
    as [Hin [Hids _]];
    [ reflexivity | left; reflexivity | reflexivity | ].
  destruct (driver_passes_over_terminal_items Scenario.delivered_item
                                              Scenario.delivered_world)
    as [_ [_ Hall]];
    [ reflexivity | left; reflexivity | reflexivity | ].
  split; [ split; [ exact Hin | exact Hids ] | ].
  apply Hall. intros other [<- | []]. reflexivity.
Defined.

(** *** One invocation of the orchestrator *)

Lemma updateItem_stored_item (key : Q) (updates : Updates) (w : World) :
  set_id updates = None ->
  stored_item key (exec (updateItem key updates) w)
  = option_map (fun item => assign item updates (next_now w)) (stored_item key w).
Proof.
  intros Hid.
  destruct (updateItem_spec key updates w Hid) as [_ [_ [_ [_ [_ [_ Hcases]]]]]].
  unfold stored_item in *.
  destruct (find _ (stored_queue w)) as [record |] eqn:Hfind.
  - destruct Hcases as [_ [-> _]].
    rewrite find_patched, Hfind; [ reflexivity | ].
    intros x. apply assign_id. exact Hid.
  - destruct Hcases as [_ [-> _]]. rewrite Hfind. reflexivity.
Qed.

(** An item out of retries is marked [failed] with the max-retries
    message; its [retryCount] stays, no delivery is called and no timer
    is set. *)
Lemma exhausted_item_fails (item record : QueueItem) (w : World) :
  shouldRetry (retryCount item) (strategy_of w) = false ->
  stored_item (id item) w = Some record ->
  let w' := exec (retryQueueItem item) w in
  (exists record',
      stored_item (id item) w' = Some record'
      /\ status record' = Failed
      /\ lastError record' = msg_max_retries
      /\ retryCount record' = retryCount record)
  /\ network_calls w' = network_calls w
  /\ timers w' = timers w.
Proof.
  intros Hstop Hstored w'. subst w'.
  rewrite retryQueueItem_exec, Hstop. cbn [negb].
  destruct (updateItem_spec (id item) upd_failed w eq_refl) as [_ [_ [_ [_ [Hcalls [Htimers _]]]]]].
  split; [ | split; assumption ].
  rewrite updateItem_stored_item, Hstored by reflexivity. cbn.
  eexists. repeat split.
Qed.

Lemma exhausted_item_fails_witness :
  let w' := exec (retryQueueItem Scenario.exhausted_item) Scenario.exhausted_world in
  (exists record',
      stored_item (id Scenario.exhausted_item) w' = Some record'
      /\ status record' = Failed
      /\ lastError record' = msg_max_retries
      /\ retryCount record' = retryCount Scenario.exhausted_item)
  /\ network_calls w' = network_calls Scenario.exhausted_world
  /\ timers w' = timers Scenario.exhausted_world.
Proof.
  apply (exhausted_item_fails Scenario.exhausted_item Scenario.exhausted_item
                              Scenario.exhausted_world); reflexivity.
Defined.

(** A failed attempt writes the [retryCount] of the object the
    orchestrator was handed, plus one, and leaves that same object in the
    timer it sets. *)
Lemma failed_attempt_counts_from_the_snapshot (item record : QueueItem) (w : World) :
  shouldRetry (retryCount item) (strategy_of w) = true ->
  stored_item (id item) w = Some record ->
  success (next_delivery item w) = false ->
  let w' := exec (retryQueueItem item) w in
  (exists record',
      stored_item (id item) w' = Some record'
      /\ status record' = Pending
      /\ retryCount record' = retryCount item + 1
      /\ lastError record' = message (next_delivery item w))
  /\ network_calls w' = S (network_calls w)
  /\ timers w'
     = (timers w
          ++ [mkTimer item (calculateRetryDelay (retryCount item + 1) (strategy_of w))])%list.
Proof.
  intros Hgo Hstored Hfail w'. subst w'.
  rewrite retryQueueItem_exec, Hgo. cbn [negb]. cbv zeta.
  set (w1 := exec (updateItem (id item) upd_retrying) w).
  destruct (updateItem_spec (id item) upd_retrying w eq_refl)
    as [_ [_ [_ [Hnet [Hcalls [Htimers _]]]]]].
  fold w1 in Hnet, Hcalls, Htimers.
  assert (Hsame : next_delivery item w1 = next_delivery item w)
    by (apply next_delivery_frame; assumption).
  rewrite Hsame, Hfail.
  set (w2 := with_network_calls (S (network_calls w1)) w1).
  destruct (updateItem_spec (id item) (upd_pending item (next_delivery item w)) w2 eq_refl)
    as [_ [_ [_ [_ [Hcalls' [Htimers' _]]]]]].
  split; [ | split ].
  - change (stored_item (id item) (with_timers ?t ?x)) with (stored_item (id item) x).
    rewrite updateItem_stored_item by reflexivity.
    change (stored_item (id item) w2) with (stored_item (id item) w1).
    unfold w1. rewrite updateItem_stored_item, Hstored by reflexivity. cbn.
    eexists. repeat split.
  - cbn [network_calls with_timers]. rewrite Hcalls'. unfold w2. cbn. rewrite Hcalls.
    reflexivity.
  - cbn [timers with_timers]. rewrite Htimers'. unfold w2. cbn. rewrite Htimers.
    reflexivity.
Qed.

Lemma failed_attempt_counts_from_the_snapshot_witness :
  let w' := exec (retryQueueItem Scenario.waiting_item) Scenario.mixed_world in
  (exists record',
      stored_item (id Scenario.waiting_item) w' = Some record'
      /\ status record' = Pending
      /\ retryCount record' = retryCount Scenario.waiting_item + 1
      /\ lastError record' = message (next_delivery Scenario.waiting_item Scenario.mixed_world))
  /\ network_calls w' = S (network_calls Scenario.mixed_world)
  /\ timers w'
     = (timers Scenario.mixed_world
          ++ [mkTimer Scenario.waiting_item
                      (calculateRetryDelay (retryCount Scenario.waiting_item + 1)
                                           (strategy_of Scenario.mixed_world))])%list.
Proof.
  apply (failed_attempt_counts_from_the_snapshot
           Scenario.waiting_item Scenario.waiting_item Scenario.mixed_world); reflexivity.
Defined.

(** *** Timers keep the object they were set with *)

Lemma retryQueueItem_settings (item : QueueItem) (w : World) :
  settings_slot (exec (retryQueueItem item) w) = settings_slot w.
Proof.
  rewrite retryQueueItem_exec.
  destruct (negb (shouldRetry (retryCount item) (strategy_of w))).
  - apply updateItem_spec; reflexivity.
  - cbv zeta.
    set (w1 := exec (updateItem (id item) upd_retrying) w).
    assert (H1 : settings_slot w1 = settings_slot w) by (apply updateItem_spec; reflexivity).
    set (w2 := with_network_calls (S (network_calls w1)) w1).
    destruct (success (next_delivery item w1)).
    + rewrite <- H1. apply (updateItem_spec (id item) upd_success w2 eq_refl).
    + rewrite <- H1.
      apply (updateItem_spec (id item) (upd_pending item (next_delivery item w1)) w2 eq_refl).
Qed.

Lemma fire_last_timer (timer : Timer) (w : World) (earlier : list Timer) :
  timers w = (earlier ++ [timer])%list ->
  exec (fireTimer (List.length earlier)) w
  = exec (retryQueueItem (timer_item timer)) (with_timers earlier w).
Proof.
  intros Htimers. unfold fireTimer, exec. rewrite Htimers.
  rewrite nth_error_app2 by lia. rewrite Nat.sub_diag. cbn [nth_error].
  rewrite firstn_app, firstn_all, Nat.sub_diag. cbn [firstn].
  rewrite skipn_all2 by (rewrite length_app; cbn; lia).
  rewrite !app_nil_r. reflexivity.
Qed.

(** When the timer set by a failed attempt fires and the delivery fails
    again, the second failure is not counted: the stored [retryCount] is
    what the first failure wrote, although the delivery was called twice. *)
Lemma second_failure_is_not_counted (item record : QueueItem) (w : World) :
  shouldRetry (retryCount item) (strategy_of w) = true ->
  stored_item (id item) w = Some record ->
  success (next_delivery item w) = false ->
  success (next_delivery item (exec (retryQueueItem item) w)) = false ->
  let w1 := exec (retryQueueItem item) w in
  let w2 := exec (fireTimer (List.length (timers w))) w1 in
  (exists record1, stored_item (id item) w1 = Some record1
                   /\ retryCount record1 = retryCount item + 1)
  /\ (exists record2, stored_item (id item) w2 = Some record2
                      /\ retryCount record2 = retryCount item + 1)
  /\ network_calls w2 = S (S (network_calls w)).
Proof.
  intros Hgo Hstored Hfail Hfail' w1 w2.
  destruct (failed_attempt_counts_from_the_snapshot item record w Hgo Hstored Hfail)
    as [[record1 [Hstored1 [_ [Hcount1 _]]]] [Hcalls1 Htimers1]].
  fold w1 in Hstored1, Hcalls1, Htimers1, Hfail'.
  split; [ exists record1; split; assumption | ].
  unfold w2. rewrite (fire_last_timer _ w1 (timers w) Htimers1). cbn [timer_item].
  assert (Hstrategy : strategy_of (with_timers (timers w) w1) = strategy_of w).
  { unfold strategy_of. cbn [settings_slot with_timers].
    unfold w1. rewrite retryQueueItem_settings. reflexivity. }
  destruct (failed_attempt_counts_from_the_snapshot
              item record1 (with_timers (timers w) w1))
    as [[record2 [Hstored2 [_ [Hcount2 _]]]] [Hcalls2 _]].
  - rewrite Hstrategy. exact Hgo.
  - exact Hstored1.
  - rewrite (next_delivery_frame item w1 (with_timers (timers w) w1)) by reflexivity.
    exact Hfail'.
  - split; [ exists record2; split; assumption | ].
    rewrite Hcalls2. cbn [network_calls with_timers]. rewrite Hcalls1. reflexivity.
Qed.

Lemma second_failure_is_not_counted_witness :
  let w := Scenario.mixed_world in
  let item := Scenario.waiting_item in
  let w1 := exec (retryQueueItem item) w in
  let w2 := exec (fireTimer (List.length (timers w))) w1 in
  (exists record1, stored_item (id item) w1 = Some record1
                   /\ retryCount record1 = retryCount item + 1)
  /\ (exists record2, stored_item (id item) w2 = Some record2
                      /\ retryCount record2 = retryCount item + 1)
  /\ network_calls w2 = S (S (network_calls w)).
Proof.
  apply (second_failure_is_not_counted
           Scenario.waiting_item Scenario.waiting_item Scenario.mixed_world); reflexivity.
Defined.

Lemma retryQueueItem_network (item : QueueItem) (w : World) :
  network (exec (retryQueueItem item) w) = network w.
Proof.
  rewrite retryQueueItem_exec.
  destruct (negb (shouldRetry (retryCount item) (strategy_of w))).
  - apply updateItem_spec; reflexivity.
  - cbv zeta.
    set (w1 := exec (updateItem (id item) upd_retrying) w).
    assert (H1 : network w1 = network w) by (apply updateItem_spec; reflexivity).
    set (w2 := with_network_calls (S (network_calls w1)) w1).
    destruct (success (next_delivery item w1)).
    + rewrite <- H1. apply (updateItem_spec (id item) upd_success w2 eq_refl).
    + rewrite <- H1.
      apply (updateItem_spec (id item) (upd_pending item (next_delivery item w1)) w2 eq_refl).
Qed.

Lemma delivery_fails (item : QueueItem) (w : World) :
  network w (network_calls w) <> ResponseOk -> success (next_delivery item w) = false.
Proof.
  unfold next_delivery, eval, retryQueuedNote, bind, fetch. cbn.
  destruct (network w (network_calls w)); [ congruence | reflexivity .. ].
Qed.

(** With the server down, the chain of timers an attempt starts never
    ends: however often the timer fires, the item is [pending] with the
    [retryCount] the first failure wrote, every firing is one more
    delivery, and one timer is set again. *)
Lemma timer_chain_never_gives_up (n : nat) (item record : QueueItem) (w : World) :
  shouldRetry (retryCount item) (strategy_of w) = true ->
  stored_item (id item) w = Some record ->
  timers w = [] ->
  (forall k, network w k <> ResponseOk) ->
  let w' := exec (bind (retryQueueItem item) (fun _ => fire_oldest n)) w in
  (exists record',
      stored_item (id item) w' = Some record'
      /\ status record' = Pending
      /\ retryCount record' = retryCount item + 1)
  /\ network_calls w' = (network_calls w + S n)%nat
  /\ timers w'
     = [mkTimer item (calculateRetryDelay (retryCount item + 1) (strategy_of w))].
Proof.
  intros Hgo Hstored Hnone Hdown w'. subst w'. rewrite exec_bind.
  set (timer := mkTimer item (calculateRetryDelay (retryCount item + 1) (strategy_of w))).
  assert (Hinv : forall m w1,
             strategy_of w1 = strategy_of w ->
             network w1 = network w ->
             (exists r, stored_item (id item) w1 = Some r
                        /\ status r = Pending
                        /\ retryCount r = retryCount item + 1) ->
             timers w1 = [timer] ->
             (exists r, stored_item (id item) (exec (fire_oldest m) w1) = Some r
                        /\ status r = Pending
                        /\ retryCount r = retryCount item + 1)
             /\ network_calls (exec (fire_oldest m) w1) = (network_calls w1 + m)%nat
             /\ timers (exec (fire_oldest m) w1) = [timer]).
  { induction m as [| m IH]; intros w1 Hstrategy Hnet Hrecord Htimers.
    - cbn. split; [ exact Hrecord | split; [ lia | exact Htimers ] ].
    - change (fire_oldest (S m)) with (bind (fireTimer 0) (fun _ => fire_oldest m)).
      rewrite exec_bind.
      pose proof (fire_last_timer timer w1 [] Htimers) as Hfire.
      cbn [List.length] in Hfire. rewrite Hfire. clear Hfire.
      change (timer_item timer) with item.
      set (w1' := with_timers [] w1).
      destruct Hrecord as [r [Hr _]].
      destruct (failed_attempt_counts_from_the_snapshot item r w1')
        as [[record' [Hstored' [Hstatus' [Hcount' _]]]] [Hcalls' Htimers']].
      + change (strategy_of w1') with (strategy_of w1). rewrite Hstrategy. exact Hgo.
      + exact Hr.
      + apply delivery_fails. change (network w1') with (network w1).
        rewrite Hnet. apply Hdown.
      + set (w3 := exec (retryQueueItem item) w1') in *.
        destruct (IH w3) as [Hrecord'' [Hcalls'' Htimers'']].
        * unfold strategy_of, w3. rewrite retryQueueItem_settings. exact Hstrategy.
        * unfold w3. rewrite retryQueueItem_network. exact Hnet.
        * exists record'. repeat split; assumption.
        * rewrite Htimers'. change (strategy_of w1') with (strategy_of w1).
          rewrite Hstrategy. reflexivity.
        * split; [ exact Hrecord'' | split; [ | exact Htimers'' ] ].
          rewrite Hcalls'', Hcalls'. change (network_calls w1') with (network_calls w1).
          lia. }
  destruct (failed_attempt_counts_from_the_snapshot item record w Hgo Hstored)
    as [[record1 [Hstored1 [Hstatus1 [Hcount1 _]]]] [Hcalls1 Htimers1]].
  { apply delivery_fails, Hdown. }
  set (w1 := exec (retryQueueItem item) w) in *.
  destruct (Hinv n w1) as [Hrecord [Hcalls Htimers]].
  - unfold strategy_of, w1. rewrite retryQueueItem_settings. reflexivity.
  - unfold w1. apply retryQueueItem_network.
  - exists record1. repeat split; assumption.
  - rewrite Htimers1, Hnone. reflexivity.
  - split; [ exact Hrecord | split; [ | exact Htimers ] ].
    rewrite Hcalls, Hcalls1. lia.
Qed.

(** The theorem on a waiting item, the timer fired forty times. *)
Lemma timer_chain_never_gives_up_witness :
  let item := Scenario.waiting_item in
  let w := Scenario.mixed_world in
  let w' := exec (bind (retryQueueItem item) (fun _ => fire_oldest 40)) w in
  (exists record',
      stored_item (id item) w' = Some record'
      /\ status record' = Pending
      /\ retryCount record' = retryCount item + 1)
  /\ network_calls w' = (network_calls w + 41)%nat
  /\ timers w'
     = [mkTimer item (calculateRetryDelay (retryCount item + 1) (strategy_of w))].
Proof.
  apply (timer_chain_never_gives_up 40 Scenario.waiting_item Scenario.waiting_item
                                    Scenario.mixed_world);
    try reflexivity.
  intros k. discriminate.
Defined.

Local Open Scope host_scope.

(** C1, at the inputs where the code departs from it.  The server is
    down throughout.  An item is queued and a driver pass makes the first
    attempt; the timer of that attempt fires and makes the second: two
    deliveries have failed and the stored [retryCount] is 1.  With a
    second driver pass instead, [retryCount] reaches 2; then the timer of
    the first attempt fires, a third delivery fails, and [retryCount]
    falls back to 1. *)
Theorem stale_timer_miscounts_retries :
  let queued := exec (enqueue (Scenario.note "x")) Scenario.offline_world in
  let chain := exec (processQueueOnStartup ;;; fireTimer 0) queued in
  let passes := exec (processQueueOnStartup ;;; processQueueOnStartup) queued in
  let late := exec (fireTimer 0) passes in
  (Scenario.summary chain = [(Pending, 1, "HTTP 500")] /\ network_calls chain = 2%nat)
  /\ (Scenario.summary passes = [(Pending, 2, "HTTP 500")] /\ network_calls passes = 2%nat)
  /\ (Scenario.summary late = [(Pending, 1, "HTTP 500")] /\ network_calls late = 3%nat).
Proof. repeat split. Qed.

(** C3, at the input where the code departs from it.  Under the
    [conservative] strategy with the server down, an item is queued, a
    driver pass makes the first attempt and the timers make the second
    and the third.  After these three failures the item is [pending] with
    [retryCount] 1 and a timer is set; when that timer fires, a fourth
    delivery is attempted and the item is still [pending] with
    [retryCount] 1, not [failed] with 3. *)
Theorem conservative_chain_does_not_fail :
  let queued := exec (enqueue (Scenario.note "B")) Scenario.conservative_world in
  let third := exec (processQueueOnStartup ;;; fireTimer 0 ;;; fireTimer 0) queued in
  let fourth := exec (fireTimer 0) third in
  strategy_of queued = Some "conservative"
  /\ (Scenario.summary third = [(Pending, 1, "HTTP 500")]
      /\ network_calls third = 3%nat
      /\ map timer_delay (timers third) = [Some 2000])
  /\ (Scenario.summary fourth = [(Pending, 1, "HTTP 500")]
      /\ network_calls fourth = 4%nat
      /\ map timer_delay (timers fourth) = [Some 2000]).
Proof. repeat split. Qed.

(** Driver passes alone, each on a fresh reading of the store, do take a
    [conservative] item to [failed] after three failed deliveries. *)
Lemma conservative_passes_do_fail :
  let queued := exec (enqueue (Scenario.note "B")) Scenario.conservative_world in
  let w := exec (processQueueOnStartup ;;; processQueueOnStartup ;;; processQueueOnStartup
                 ;;; processQueueOnStartup) queued in
  Scenario.summary w = [(Failed, 3, msg_max_retries)] /\ network_calls w = 3%nat.
Proof. repeat split. Qed.

(** C2, at the inputs where the code departs from it.  The orchestrator
    never reads the status, and a timer runs it on the object the timer
    was set with.  The server fails the first request and answers the
    later ones: an item is queued, a driver pass makes the first attempt,
    which fails and sets a timer, and a second pass delivers the item,
    which is [success] from then on.  When the timer fires, the note is
    sent once more and the record is written again.  Where the server is
    down again by then, the delivered item is taken back to [pending] and
    a new timer is set.  And under [conservative] with the server down,
    the item that four passes have taken to [failed] is taken back to
    [pending] by the first timer that fires, with a fourth delivery. *)
Theorem scheduled_retry_rewrites_a_terminal_item :
  let queued :=
    exec (enqueue (Scenario.note "x"))
         (Scenario.fresh_world true Scenario.server_back Scenario.seconds) in
  let delivered := exec (processQueueOnStartup ;;; processQueueOnStartup) queued in
  let late := exec (fireTimer 0) delivered in
  let queued' :=
    exec (enqueue (Scenario.note "x"))
         (Scenario.fresh_world true Scenario.server_up_once Scenario.seconds) in
  let delivered' := exec (processQueueOnStartup ;;; processQueueOnStartup) queued' in
  let late' := exec (fireTimer 0) delivered' in
  let failed :=
    exec (processQueueOnStartup ;;; processQueueOnStartup ;;; processQueueOnStartup
          ;;; processQueueOnStartup)
         (exec (enqueue (Scenario.note "B")) Scenario.conservative_world) in
  let revived := exec (fireTimer 0) failed in
  (Scenario.summary delivered = [(Success, 1, "")]
   /\ map terminal (stored_queue delivered) = [true]
   /\ network_calls delivered = 2%nat
   /\ map updatedAt (stored_queue delivered) = [6000]
   /\ map (fun timer => retryCount (timer_item timer)) (timers delivered) = [0])
  /\ (Scenario.summary late = [(Success, 1, "")]
      /\ network_calls late = 3%nat
      /\ map updatedAt (stored_queue late) = [8000])
  /\ (Scenario.summary delivered' = [(Success, 1, "")]
      /\ network_calls delivered' = 2%nat
      /\ Scenario.summary late' = [(Pending, 1, "HTTP 500")]
      /\ network_calls late' = 3%nat
      /\ List.length (timers late') = 1%nat)
  /\ (Scenario.summary failed = [(Failed, 3, msg_max_retries)]
      /\ map terminal (stored_queue failed) = [true]
      /\ network_calls failed = 3%nat
      /\ Scenario.summary revived = [(Pending, 1, "HTTP 500")]
      /\ network_calls revived = 4%nat).
Proof. repeat split. Qed.

End BackgroundFacts.
(** ** Further properties of the queue manager *)

Module StoreFacts.
Import Js Model OfflineQueue Spec QueueFacts BackgroundFacts.

(** *** [getQueue] *)

Lemma insert_permutation (x : QueueItem) (l : list QueueItem) :
  Permutation (insert_by_createdAt x l) (x :: l).
Proof.
  induction l as [| y l IH]; cbn; [ apply Permutation_refl | ].
  destruct (createdAt x <? createdAt y); [ | apply Permutation_refl ].
  apply perm_trans with (y :: x :: l); [ apply perm_skip, IH | apply perm_swap ].
Qed.

Lemma sort_permutation (l : list QueueItem) : Permutation (sort_newest_first l) l.
Proof.
  induction l as [| x l IH]; [ apply Permutation_refl | ].
  rewrite sort_cons.
  apply perm_trans with (x :: sort_newest_first l);
    [ apply insert_permutation | apply perm_skip, IH ].
Qed.

Lemma insert_sorted (x : QueueItem) (l : list QueueItem) :
  newest_first l -> newest_first (insert_by_createdAt x l).
Proof.
  unfold newest_first. intros Hsorted.
  induction l as [| y l IH]; cbn.
  - constructor; constructor.
  - destruct (createdAt x <? createdAt y) eqn:Hlt.
    + apply Z.ltb_lt in Hlt. inversion Hsorted as [| ? ? Hrest Hhead]; subst.
      constructor; [ apply IH; exact Hrest | ].
      destruct l as [| z l]; cbn.
      * constructor. lia.
      * destruct (createdAt x <? createdAt z); constructor;
          [ inversion Hhead; assumption | lia ].
    + apply Z.ltb_ge in Hlt. constructor; [ exact Hsorted | constructor; exact Hlt ].
Qed.

Lemma sort_sorted (l : list QueueItem) : newest_first (sort_newest_first l).
Proof.
  induction l as [| x l IH]; [ constructor | ].
  rewrite sort_cons. apply insert_sorted, IH.
Qed.

Lemma In_filter_status (statusFilter : option Status) (item : QueueItem)
      (l : list QueueItem) :
  In item (filter_status statusFilter l)
  <-> In item l /\ match statusFilter with
                   | Some wanted => status item = wanted
                   | None => True
                   end.
Proof.
  destruct statusFilter as [wanted |]; cbn; [ | tauto ].
  rewrite filter_In.
  destruct (status item), wanted; cbn; intuition congruence.
Qed.

(** [getQueue(statusFilter)] returns the stored records of that status
    (all of them for ['all']), each as often as it is stored, ordered by
    [createdAt] with the newest first; it writes nothing. *)
Theorem getQueue_sorted_selection (statusFilter : option Status) (w : World) :
  let queue := eval (getQueue statusFilter) w in
  let w' := exec (getQueue statusFilter) w in
  newest_first queue
  /\ Permutation queue (filter_status statusFilter (stored_queue w))
  /\ (forall item,
         In item queue
         <-> In item (stored_queue w)
             /\ match statusFilter with
                | Some wanted => status item = wanted
                | None => True
                end)
  /\ stored_queue w' = stored_queue w
  /\ idb_items w' = idb_items w
  /\ fallback_slot w' = fallback_slot w.
Proof.
  unfold eval, exec. rewrite getQueue_spec. cbn [fst snd].
  split; [ apply sort_sorted | ].
  split; [ apply sort_permutation | ].
  split.
  - intros item. rewrite In_sort. apply In_filter_status.
  - split; [ apply routed_stored_queue | ].
    split; flags w; reflexivity.
Qed.


(** *** [updateItem] *)

Lemma patched_payload (key : Q) (f : QueueItem -> QueueItem) (l : list QueueItem) :
  (forall x, payload (f x) = payload x) ->
  map payload (patched key f l) = map payload l.
Proof.
  intros Hf. induction l as [| x l IH]; [ reflexivity | ].
  cbn. destruct (id_eq (id x) key); cbn; [ rewrite Hf | rewrite IH ]; reflexivity.
Qed.

Lemma state_only_id (updates : Updates) :
  state_only updates = true -> set_id updates = None.
Proof. unfold state_only. destruct (set_id updates); [ discriminate | reflexivity ]. Qed.

Lemma state_only_payload (updates : Updates) (now : Z) (item : QueueItem) :
  state_only updates = true -> payload (assign item updates now) = payload item.
Proof.
  unfold state_only, payload, assign.
  destruct (set_id updates), (set_content updates), (set_type updates), (set_tags updates),
    (set_url updates), (set_title updates), (set_createdAt updates), (set_metadata updates);
    cbn; try discriminate.
  reflexivity.
Qed.

Lemma updateItem_payload (key : Q) (updates : Updates) (w : World) :
  state_only updates = true ->
  map payload (stored_queue (exec (updateItem key updates) w)) = map payload (stored_queue w).
Proof.
  intros Hstate.
  destruct (updateItem_spec key updates w (state_only_id updates Hstate))
    as [_ [_ [_ [_ [_ [_ Hcases]]]]]].
  destruct (stored_item key w).
  - destruct Hcases as [_ [-> _]]. apply patched_payload.
    intros x. apply state_only_payload. exact Hstate.
  - destruct Hcases as [_ [-> _]]. reflexivity.
Qed.

(** What [updateItem] answers and whether it reads the clock, whatever
    [updates] names. *)
Lemma updateItem_answer (key : Q) (updates : Updates) (w : World) :
  let w' := exec (updateItem key updates) w in
  match stored_item key w with
  | Some _ => eval (updateItem key updates) w = true /\ clock_reads w' = S (clock_reads w)
  | None =>
      eval (updateItem key updates) w = false
      /\ stored_queue w' = stored_queue w
      /\ clock_reads w' = clock_reads w
  end.
Proof.
  unfold stored_item.
  flags w; unfold exec, eval, updateItem, updateItemFallback, bind, stored_queue; cbn.
  1-4,8:
    pose proof (findIndex_find key (or_undefined slot [])) as Hfind;
    destruct (findIndex _ (or_undefined slot [])) as [index |];
    [ destruct Hfind as [item ->]; cbn; repeat split
    | rewrite Hfind; cbn; repeat split ].
  all: destruct (find _ items) as [item |]; cbn; repeat split.
Qed.

(** [updateItem(id, updates)] on an id no stored record has answers
    [false], reads no clock and leaves the store as it is.  Otherwise it
    answers [true] and reads the clock once.  When [updates] names no
    [id], the first record of that id takes every field [updates] names,
    [content] and the like included, keeps the others, and gets the clock
    reading as [updatedAt]; the records of other ids are not touched and
    none is added, removed or moved.  When [updates] names only [status],
    [retryCount], [lastError] or [updatedAt], every record keeps its id,
    content, type, tags, url, title, createdAt and metadata. *)
Theorem updateItem_patches_one_record (key : Q) (updates : Updates) (w : World) :
  let w' := exec (updateItem key updates) w in
  match stored_item key w with
  | None =>
      eval (updateItem key updates) w = false
      /\ stored_queue w' = stored_queue w
      /\ clock_reads w' = clock_reads w
  | Some record =>
      eval (updateItem key updates) w = true
      /\ clock_reads w' = S (clock_reads w)
      /\ (set_id updates = None ->
          (exists record',
              stored_item key w' = Some record'
              /\ merged record updates (next_now w) record')
          /\ same_outside (fun other => id_eq other key) (stored_queue w) (stored_queue w'))
      /\ (state_only updates = true ->
          map payload (stored_queue w') = map payload (stored_queue w))
  end.
Proof.
  intros w'. subst w'.
  pose proof (updateItem_answer key updates w) as Hanswer. cbv zeta in Hanswer.
  destruct (stored_item key w) as [record |] eqn:Hrecord; [ | exact Hanswer ].
  destruct Hanswer as [Htrue Hreads].
  split; [ exact Htrue | ]. split; [ exact Hreads | ]. split.
  - intros Hid. split; [ | apply updateItem_same_outside; exact Hid ].
    exists (assign record updates (next_now w)). split.
    + rewrite (updateItem_stored_item key updates w Hid), Hrecord. reflexivity.
    + unfold merged. cbn. repeat split.
  - apply updateItem_payload.
Qed.

(** *** [cleanup] *)

Lemma dequeue_mode (key : Q) (w : World) :
  fallback_active (exec (dequeue key) w) = fallback_active w.
Proof. apply dequeue_spec. Qed.

Lemma filter_and {A : Type} (p q : A -> bool) (l : list A) :
  filter p (filter q l) = filter (fun x => q x && p x) l.
Proof.
  induction l as [| x l IH]; [ reflexivity | ].
  cbn. destruct (q x); cbn; [ destruct (p x); rewrite IH | rewrite IH ]; reflexivity.
Qed.

(** What the loop of [cleanup] does to the store, whatever list it goes
    through: the records whose id is that of a list item to remove go. *)
Lemma cleanup_loop_spec (options : CleanupOptions) (now : Z) (items : list QueueItem)
      (removed : Z) (w : World) :
  eval (cleanup_loop options now items removed) w
  = removed + Z.of_nat (List.length (filter (shouldRemove options now) items))
  /\ stored_queue (exec (cleanup_loop options now items removed) w)
     = filter (fun record =>
                 negb (ids_of (filter (shouldRemove options now) items) (id record)))
              (stored_queue w)
  /\ fallback_active (exec (cleanup_loop options now items removed) w) = fallback_active w.
Proof.
  revert removed w. induction items as [| item rest IH]; intros removed w.
  - cbn. repeat split; [ lia | ].
    induction (stored_queue w) as [| x l IHl]; [ reflexivity | cbn; congruence ].
  - cbn [cleanup_loop filter]. destruct (shouldRemove options now item).
    + rewrite exec_bind. unfold eval. unfold bind at 1.
      destruct (dequeue_spec (id item) w) as [_ [Hmode Hqueue]].
      unfold exec in Hmode, Hqueue |- *.
      destruct (dequeue (id item) w) as [b w1]. cbn [fst snd] in *.
      destruct (IH (removed + 1) w1) as [Hcount [Hstore Hmode']].
      unfold eval, exec in Hcount, Hstore, Hmode'.
      split; [ rewrite Hcount; cbn [List.length]; lia | ].
      split; [ | congruence ].
      rewrite Hstore, Hqueue, filter_and.
      apply filter_ext. intros record. unfold ids_of. cbn [existsb].
      unfold id_neq, id_eq.
      destruct (Qeq_bool (id record) (id item)); reflexivity.
    + apply IH.
Qed.


Lemma filter_insert_length (p : QueueItem -> bool) (x : QueueItem) (l : list QueueItem) :
  List.length (filter p (insert_by_createdAt x l)) = List.length (filter p (x :: l)).
Proof.
  induction l as [| y l IH]; [ reflexivity | ].
  cbn. destruct (createdAt x <? createdAt y); [ | reflexivity ].
  cbn in IH |- *. destruct (p y), (p x); cbn in IH |- *; lia.
Qed.

Lemma filter_sort_length (p : QueueItem -> bool) (l : list QueueItem) :
  List.length (filter p (sort_newest_first l)) = List.length (filter p l).
Proof.
  induction l as [| x l IH]; [ reflexivity | ].
  rewrite sort_cons, filter_insert_length. cbn. destruct (p x); cbn; rewrite IH; reflexivity.
Qed.

Lemma distinct_ids_same (l : list QueueItem) (a b : QueueItem) :
  distinct_ids l = true -> In a l -> In b l -> id_eq (id a) (id b) = true -> a = b.
Proof.
  induction l as [| x l IH]; cbn; [ tauto | ].
  intros Hdistinct. apply andb_true_iff in Hdistinct. destruct Hdistinct as [Hx Hrest].
  rewrite forallb_forall in Hx. unfold id_neq in Hx.
  intros [-> | Ha] [-> | Hb] Hid.
  - reflexivity.
  - specialize (Hx b Hb). rewrite id_eq_sym in Hid. unfold id_eq in Hid.
    rewrite Hid in Hx. discriminate.
  - specialize (Hx a Ha). unfold id_eq in Hid. rewrite Hid in Hx. discriminate.
  - apply IH; assumption.
Qed.

Lemma Status_eqb_eq (a b : Status) : Status_eqb a b = true <-> a = b.
Proof. destruct a, b; cbn; split; congruence. Qed.

Lemma shouldRemove_or (options : CleanupOptions) (now : Z) (record : QueueItem) :
  shouldRemove options now record
  = (Status_eqb (status record) Success && (now - updatedAt record >? threeMinutes))
    || match cleanup_status options with
       | Some wanted => Status_eqb (status record) wanted
       | None => false
       end
    || match olderThan options with
       | Some age => negb (age =? 0) && (now - createdAt record >? age)
       | None => false
       end.
Proof.
  unfold shouldRemove.
  destruct (olderThan options) as [age |], (cleanup_status options) as [wanted |];
    repeat match goal with
           | |- context [ if ?c then _ else _ ] => destruct c; cbn
           end;
    rewrite ?orb_true_r, ?orb_false_r; reflexivity.
Qed.

Lemma shouldRemove_iff (options : CleanupOptions) (now : Z) (record : QueueItem) :
  shouldRemove options now record = true
  <-> (status record = Success /\ now - updatedAt record > 180000)
      \/ cleanup_status options = Some (status record)
      \/ (exists age, olderThan options = Some age
                      /\ age <> 0 /\ now - createdAt record > age).
Proof.
  rewrite shouldRemove_or, !orb_true_iff, andb_true_iff, Status_eqb_eq.
  unfold threeMinutes. change (3 * 60 * 1000) with 180000.
  rewrite Z.gtb_ltb, Z.ltb_lt.
  assert (Hstatus : match cleanup_status options with
                    | Some wanted => Status_eqb (status record) wanted
                    | None => false
                    end = true <-> cleanup_status options = Some (status record)).
  { destruct (cleanup_status options) as [wanted |].
    - rewrite Status_eqb_eq. split; [ intros ->; reflexivity | intros [= ->]; reflexivity ].
    - split; discriminate. }
  assert (Hage : match olderThan options with
                 | Some age => negb (age =? 0) && (now - createdAt record >? age)
                 | None => false
                 end = true
                 <-> exists age, olderThan options = Some age
                                 /\ age <> 0 /\ now - createdAt record > age).
  { destruct (olderThan options) as [age |].
    - rewrite andb_true_iff, negb_true_iff, Z.eqb_neq, Z.gtb_ltb, Z.ltb_lt.
      split.
      + intros [H1 H2]. exists age. repeat split; [ exact H1 | lia ].
      + intros [age' [[= <-] [H1 H2]]]. split; [ exact H1 | lia ].
    - split; [ discriminate | intros [age [H _]]; discriminate ]. }
  rewrite Hstatus, Hage. intuition lia.
Qed.

Lemma cleanup_unfold (options : CleanupOptions) (w : World) :
  cleanup options w
  = cleanup_loop options (next_now w) (sort_newest_first (stored_queue w)) 0
                 (with_clock_reads (S (clock_reads w)) (routed w)).
Proof.
  unfold cleanup, bind. rewrite getQueue_spec. cbn [filter_status].
  unfold Date_now, next_now. flags w; reflexivity.
Qed.

(** [cleanup(options)], the stored ids being distinct, removes exactly
    the records that are to go at the clock reading it takes, keeps the
    others in their order and returns how many it removed.  A record is to
    go when it is [success] and was updated more than 180000 ms before, or
    has the status asked for, or was created more than a non-zero
    [olderThan] before.  Without options only the first applies: a
    [success] record updated exactly 180000 ms before stays, and so does
    every record that is not [success]. *)
Theorem cleanup_removes_exactly (options : CleanupOptions) (w : World) :
  distinct_ids (stored_queue w) = true ->
  let now := next_now w in
  eval (cleanup options) w
  = Z.of_nat (List.length (filter (shouldRemove options now) (stored_queue w)))
  /\ stored_queue (exec (cleanup options) w)
     = filter (fun record => negb (shouldRemove options now record)) (stored_queue w)
  /\ (forall record,
         shouldRemove options now record = true
         <-> (status record = Success /\ now - updatedAt record > 180000)
             \/ cleanup_status options = Some (status record)
             \/ (exists age, olderThan options = Some age
                             /\ age <> 0 /\ now - createdAt record > age))
  /\ (forall record,
         shouldRemove no_options now record = true
         <-> status record = Success /\ now - updatedAt record > 180000).
Proof.
  intros Hdistinct now. unfold eval, exec. rewrite cleanup_unfold. fold now.
  set (w1 := with_clock_reads (S (clock_reads w)) (routed w)).
  assert (Hqueue : stored_queue w1 = stored_queue w) by (flags w; reflexivity).
  destruct (cleanup_loop_spec options now (sort_newest_first (stored_queue w)) 0 w1)
    as [Hcount [Hstore _]].
  unfold eval, exec in Hcount, Hstore.
  pose proof (fun opts => shouldRemove_iff opts now) as Hgeneral.
  split; [ | split; [ | split; [ apply Hgeneral | ] ] ].
  - rewrite Hcount, filter_sort_length. reflexivity.
  - rewrite Hstore, Hqueue. apply filter_ext_in. intros record Hrecord. f_equal.
    unfold ids_of.
    destruct (shouldRemove options now record) eqn:Hgo.
    + apply existsb_exists. exists record. split; [ | apply Qeq_bool_refl ].
      apply filter_In. split; [ apply In_sort; exact Hrecord | exact Hgo ].
    + destruct (existsb _ _) eqn:Hsome; [ | reflexivity ].
      apply existsb_exists in Hsome. destruct Hsome as [item [Hitem Hid]].
      apply filter_In in Hitem. destruct Hitem as [Hitem Hremove].
      apply (proj1 (In_sort _ _)) in Hitem.
      rewrite (distinct_ids_same _ record item Hdistinct Hrecord Hitem Hid) in Hgo.
      congruence.
  - intros record. rewrite (Hgeneral no_options record). cbn.
    split; [ intros [H | [H | [age [H _]]]]; [ exact H | discriminate | discriminate ]
           | intros H; left; exact H ].
Qed.

(** The theorem on a store of three: only the delivery updated 181
    seconds ago goes. *)
Lemma cleanup_removes_exactly_witness :
  eval (cleanup no_options) Scenario.retention_world = 1
  /\ map id (stored_queue (exec (cleanup no_options) Scenario.retention_world)) = [2%Q; 3%Q].
Proof.
  destruct (cleanup_removes_exactly no_options Scenario.retention_world eq_refl)
    as [Hcount [Hstore _]].
  rewrite Hcount, Hstore. split; reflexivity.
Defined.

End StoreFacts.

(** ** What every history keeps *)

Module HistoryFacts.
Import Js Model OfflineQueue ApiClient Background Policy Spec QueueFacts BackgroundFacts.
Import StoreFacts.

Lemma keeps_ret (P : World -> Prop) {A : Type} (a : A) : keeps P (ret a).
Proof. intros w H. exact H. Qed.

Lemma keeps_bind (P : World -> Prop) {A B : Type} (m : M A) (k : A -> M B) :
  keeps P m -> (forall a, keeps P (k a)) -> keeps P (bind m k).
Proof.
  intros Hm Hk w H. rewrite exec_bind. apply Hk, Hm, H.
Qed.

(** A property kept by [getQueue] and by an [updateItem] that names
    nothing of what a record carries, and blind to the network counter and
    the timers, is kept by the retries. *)
Section Retries.

Variable P : World -> Prop.
Hypothesis P_state_update :
  forall key updates, state_only updates = true -> keeps P (updateItem key updates).
Hypothesis P_getQueue : forall statusFilter, keeps P (getQueue statusFilter).
Hypothesis P_network : forall n w, P w -> P (with_network_calls n w).
Hypothesis P_timers : forall t w, P w -> P (with_timers t w).

Ltac retries_step :=
  match goal with
  | |- keeps P (bind _ _) => apply keeps_bind; [ | intros ? ]
  | |- keeps P (ret _) => apply keeps_ret
  | |- keeps P (updateItem _ _) => apply P_state_update; reflexivity
  | |- keeps P (if ?c then _ else _) => destruct c
  | |- keeps P (match ?x with _ => _ end) => destruct x
  | |- keeps P _ => solve [ auto ]
  end.

Lemma keeps_fetch : keeps P fetch.
Proof. intros w H. apply P_network, H. Qed.

Lemma keeps_setTimeout (item : QueueItem) (delay : option Z) : keeps P (setTimeout item delay).
Proof. intros w H. apply P_timers, H. Qed.

Lemma keeps_storage_get_settings : keeps P storage_get_settings.
Proof. intros w H. exact H. Qed.

Lemma keeps_getQueueSettings : keeps P getQueueSettings.
Proof. unfold getQueueSettings. pose proof keeps_storage_get_settings. repeat retries_step. Qed.

Lemma keeps_retryQueuedNote (item : QueueItem) : keeps P (retryQueuedNote item).
Proof. unfold retryQueuedNote. pose proof keeps_fetch. repeat retries_step. Qed.

Lemma keeps_retryQueueItem (item : QueueItem) : keeps P (retryQueueItem item).
Proof.
  unfold retryQueueItem.
  pose proof keeps_getQueueSettings. pose proof keeps_retryQueuedNote.
  pose proof keeps_setTimeout.
  repeat retries_step.
Qed.

Lemma keeps_for_each (items : list QueueItem) : keeps P (for_each items).
Proof.
  pose proof keeps_retryQueueItem.
  induction items as [| item rest IH]; cbn [for_each]; repeat retries_step.
Qed.

Lemma keeps_processQueueOnStartup : keeps P processQueueOnStartup.
Proof. unfold processQueueOnStartup. pose proof keeps_for_each. repeat retries_step. Qed.

Lemma keeps_fireTimer (n : nat) : keeps P (fireTimer n).
Proof.
  intros w H. unfold exec, fireTimer.
  destruct (nth_error (timers w) n) as [timer |]; [ | exact H ].
  apply keeps_retryQueueItem, P_timers, H.
Qed.

End Retries.

(** A property kept by the queue operations and blind to the clock, the
    network counter, the timers and the settings is kept by everything the
    extension does with the queue. *)
Section Histories.

Variable P : World -> Prop.
Hypothesis P_enqueue : forall request, keeps P (enqueue request).
Hypothesis P_dequeue : forall key, keeps P (dequeue key).
Hypothesis P_updateItem : forall key updates, keeps P (updateItem key updates).
Hypothesis P_getQueue : forall statusFilter, keeps P (getQueue statusFilter).
Hypothesis P_clearQueue : keeps P clearQueue.
Hypothesis P_initDB : keeps P initDB.
Hypothesis P_clock : forall n w, P w -> P (with_clock_reads n w).
Hypothesis P_network : forall n w, P w -> P (with_network_calls n w).
Hypothesis P_timers : forall t w, P w -> P (with_timers t w).
Hypothesis P_settings : forall s w, P w -> P (with_settings_slot s w).

Ltac keeps_step :=
  match goal with
  | |- keeps P (bind _ _) => apply keeps_bind; [ | intros ? ]
  | |- keeps P (ret _) => apply keeps_ret
  | |- keeps P (if ?c then _ else _) => destruct c
  | |- keeps P (match ?x with _ => _ end) => destruct x
  | |- keeps P _ => solve [ auto ]
  end.

Lemma keeps_Date_now : keeps P Date_now.
Proof. intros w H. apply P_clock, H. Qed.

Lemma keeps_saveQueueSettings (settings : QueueSettings) : keeps P (saveQueueSettings settings).
Proof. intros w H. apply P_settings, H. Qed.

Lemma keeps_cleanup_loop (options : CleanupOptions) (now : Z) (items : list QueueItem)
      (removed : Z) :
  keeps P (cleanup_loop options now items removed).
Proof.
  revert removed. induction items as [| item rest IH]; intros removed; cbn [cleanup_loop];
    repeat keeps_step.
Qed.

Lemma keeps_cleanup (options : CleanupOptions) : keeps P (cleanup options).
Proof.
  unfold cleanup. pose proof keeps_Date_now. pose proof keeps_cleanup_loop.
  repeat keeps_step.
Qed.

Lemma keeps_tryEnqueueNote (text : string) (kind : Z) (meta : list (string * string))
      (error : string) :
  keeps P (tryEnqueueNote text kind meta error).
Proof.
  unfold tryEnqueueNote. pose proof (keeps_getQueueSettings P). repeat keeps_step.
Qed.

Lemma keeps_createNote (apiUrl token text : string) (kind : Z)
      (meta : list (string * string)) :
  keeps P (createNote apiUrl token text kind meta).
Proof.
  unfold createNote. pose proof (keeps_fetch P P_network). pose proof keeps_tryEnqueueNote.
  repeat keeps_step.
Qed.

Lemma keeps_handle (event : Event) : keeps P (handle event).
Proof.
  pose proof keeps_cleanup. pose proof keeps_saveQueueSettings.
  pose proof keeps_createNote.
  pose proof (keeps_processQueueOnStartup P (fun key updates _ => P_updateItem key updates)
                                          P_getQueue P_network P_timers).
  pose proof (keeps_fireTimer P (fun key updates _ => P_updateItem key updates)
                              P_network P_timers).
  destruct event; cbn [handle];
    unfold initOfflineQueueProcessing, onNetworkMessage, onAlarm;
    repeat keeps_step.
Qed.

Lemma keeps_run (events : list Event) : keeps P (run events).
Proof.
  pose proof keeps_handle.
  induction events as [| event rest IH]; cbn [run]; repeat keeps_step.
Qed.

End Histories.

End HistoryFacts.

(** ** The primary store keeps its ids apart *)

Module IdFacts.
Import Js Model OfflineQueue ApiClient Background Policy Spec QueueFacts BackgroundFacts.
Import StoreFacts HistoryFacts.

Lemma primary_wf_iff (w : World) :
  primary_wf w = true
  <-> distinct_ids (idb_items w) = true
      /\ forall item, In item (idb_items w) -> (id item < inject_Z (idb_next_key w))%Q.
Proof.
  unfold primary_wf, below_generator. rewrite andb_true_iff, forallb_forall.
  split; intros [Hdistinct Hbelow]; (split; [ exact Hdistinct | ]); intros item Hitem.
  - specialize (Hbelow item Hitem). apply negb_true_iff in Hbelow.
    apply Qnot_le_lt. intros Hle. apply Qle_bool_iff in Hle. congruence.
  - apply negb_true_iff. destruct (Qle_bool _ _) eqn:Hle; [ | reflexivity ].
    apply Qle_bool_iff in Hle. apply Qlt_not_le in Hle; [ contradiction | auto ].
Qed.

Lemma distinct_ids_filter (p : QueueItem -> bool) (l : list QueueItem) :
  distinct_ids l = true -> distinct_ids (filter p l) = true.
Proof.
  induction l as [| x l IH]; [ reflexivity | ].
  cbn. intros H. apply andb_true_iff in H. destruct H as [Hx Hrest].
  destruct (p x); [ | apply IH; exact Hrest ].
  cbn. apply andb_true_iff. split; [ | apply IH; exact Hrest ].
  rewrite forallb_forall in *. intros y Hy. apply Hx.
  apply filter_In in Hy. apply Hy.
Qed.

Lemma distinct_ids_add (l : list QueueItem) (r : QueueItem) :
  distinct_ids l = true ->
  (forall x, In x l -> id_eq (id r) (id x) = false) ->
  distinct_ids (l ++ [r]) = true.
Proof.
  induction l as [| x l IH]; intros Hdistinct Hnew; [ reflexivity | ].
  cbn in Hdistinct |- *. apply andb_true_iff in Hdistinct. destruct Hdistinct as [Hx Hrest].
  apply andb_true_iff. split.
  - rewrite forallb_app, Hx. cbn. unfold id_neq.
    fold (id_eq (id r) (id x)). rewrite (Hnew x (or_introl eq_refl)). reflexivity.
  - apply IH; [ exact Hrest | ]. intros y Hy. apply Hnew. right. exact Hy.
Qed.

Lemma distinct_ids_replace (r : QueueItem) (l : list QueueItem) :
  distinct_ids l = true -> distinct_ids (replace_record r l) = true.
Proof.
  induction l as [| x l IH]; [ reflexivity | ].
  cbn. intros H. apply andb_true_iff in H. destruct H as [Hx Hrest].
  destruct (id_eq (id x) (id r)) eqn:Hid; cbn; apply andb_true_iff.
  - split; [ | exact Hrest ].
    rewrite forallb_forall in *. intros y Hy. specialize (Hx y Hy).
    unfold id_neq in *. fold (id_eq (id y) (id x)) in Hx. fold (id_eq (id y) (id r)).
    rewrite <- (id_eq_congr (id x) (id r) (id y) Hid). exact Hx.
  - split; [ | apply IH; exact Hrest ].
    rewrite forallb_forall in *. intros y Hy.
    assert (Hcases : In y l \/ id_eq (id y) (id r) = true).
    { clear - Hy. induction l as [| z l IHl]; [ destruct Hy | ].
      cbn in Hy. destruct (id_eq (id z) (id r)) eqn:Hz.
      - destruct Hy as [<- | Hy]; [ right; apply Qeq_bool_refl | left; right; exact Hy ].
      - destruct Hy as [<- | Hy]; [ left; left; reflexivity | ].
        destruct (IHl Hy) as [H | H]; [ left; right; exact H | right; exact H ]. }
    destruct Hcases as [Hin | Hr]; [ apply Hx; exact Hin | ].
    unfold id_neq. fold (id_eq (id y) (id x)).
    rewrite id_eq_sym, (id_eq_congr (id y) (id r) (id x) Hr), Hid. reflexivity.
Qed.

Lemma replace_record_In (r y : QueueItem) (l : list QueueItem) :
  In y (replace_record r l) -> In y l \/ (y = r /\ exists x, In x l /\ id_eq (id x) (id r) = true).
Proof.
  induction l as [| x l IH]; [ intros [] | ].
  cbn. destruct (id_eq (id x) (id r)) eqn:Hid.
  - intros [<- | Hy]; [ right; split; [ reflexivity | exists x; auto ] | left; right; exact Hy ].
  - intros [<- | Hy]; [ left; left; reflexivity | ].
    destruct (IH Hy) as [H | [-> [z [Hz Hzr]]]]; [ left; right; exact H | ].
    right. split; [ reflexivity | exists z; auto ].
Qed.

(** The ways an operation rewrites the primary store keep it well
    formed. *)
Lemma wf_same (w w' : World) :
  idb_items w' = idb_items w -> idb_next_key w' = idb_next_key w ->
  primary_wf w = true -> primary_wf w' = true.
Proof. unfold primary_wf, below_generator. intros -> ->. auto. Qed.

Lemma wf_filter (p : QueueItem -> bool) (w w' : World) :
  idb_items w' = filter p (idb_items w) -> idb_next_key w' = idb_next_key w ->
  primary_wf w = true -> primary_wf w' = true.
Proof.
  intros Hitems Hnext. rewrite !primary_wf_iff, Hitems, Hnext.
  intros [Hdistinct Hbelow]. split; [ apply distinct_ids_filter, Hdistinct | ].
  intros item Hitem. apply filter_In in Hitem. apply Hbelow, Hitem.
Qed.

Lemma insert_by_key_In (r y : QueueItem) (l : list QueueItem) :
  In y (insert_by_key r l) <-> y = r \/ In y l.
Proof.
  induction l as [| x l IH]; cbn; [ intuition congruence | ].
  destruct (negb (Qle_bool (id x) (id r))); cbn; [ intuition congruence | ].
  rewrite IH. intuition congruence.
Qed.

Lemma distinct_ids_insert_key (r : QueueItem) (l : list QueueItem) :
  distinct_ids l = true ->
  existsb (fun x => id_eq (id x) (id r)) l = false ->
  distinct_ids (insert_by_key r l) = true.
Proof.
  induction l as [| x l IH]; [ reflexivity | ].
  intros Hdistinct Hnew.
  assert (Hfresh : forall y, In y (x :: l) -> id_eq (id y) (id r) = false).
  { intros y Hy. destruct (id_eq (id y) (id r)) eqn:Hyr; [ | reflexivity ].
    assert (Hex : existsb (fun z => id_eq (id z) (id r)) (x :: l) = true)
      by (apply existsb_exists; exists y; auto).
    congruence. }
  cbn [insert_by_key]. destruct (negb (Qle_bool (id x) (id r))).
  - cbn [distinct_ids]. apply andb_true_iff. split; [ | exact Hdistinct ].
    apply forallb_forall. intros y Hy. unfold id_neq. fold (id_eq (id y) (id r)).
    rewrite (Hfresh y Hy). reflexivity.
  - cbn [distinct_ids] in Hdistinct |- *. apply andb_true_iff in Hdistinct.
    destruct Hdistinct as [Hx Hrest]. apply andb_true_iff. split.
    + apply forallb_forall. intros y Hy. apply insert_by_key_In in Hy.
      destruct Hy as [-> | Hy].
      * unfold id_neq. fold (id_eq (id r) (id x)).
        rewrite id_eq_sym, (Hfresh x (or_introl eq_refl)). reflexivity.
      * rewrite forallb_forall in Hx. apply Hx, Hy.
    + apply IH; [ exact Hrest | ].
      cbn in Hnew. apply orb_false_iff in Hnew. apply Hnew.
Qed.

Lemma wf_put (r : QueueItem) (w w' : World) :
  idb_items w'
  = (if existsb (fun item => id_eq (id item) (id r)) (idb_items w)
     then replace_record r (idb_items w)
     else insert_by_key r (idb_items w)) ->
  idb_next_key w' = Z.max (idb_next_key w) (Qfloor (id r) + 1) ->
  primary_wf w = true -> primary_wf w' = true.
Proof.
  intros Hitems Hnext. rewrite !primary_wf_iff, Hitems, Hnext.
  intros [Hdistinct Hbelow].
  assert (Hold : forall x, In x (idb_items w) ->
                           (id x < inject_Z (Z.max (idb_next_key w) (Qfloor (id r) + 1)))%Q).
  { intros x Hx. eapply Qlt_le_trans; [ apply Hbelow, Hx | ].
    rewrite <- Zle_Qle. lia. }
  assert (Hnew : (id r < inject_Z (Z.max (idb_next_key w) (Qfloor (id r) + 1)))%Q).
  { eapply Qlt_le_trans; [ apply Qlt_floor | ]. rewrite <- Zle_Qle. lia. }
  destruct (existsb _ (idb_items w)) eqn:Hheld.
  - split; [ apply distinct_ids_replace, Hdistinct | ].
    intros item Hitem. destruct (replace_record_In _ _ _ Hitem) as [H | [-> _]];
      [ apply Hold, H | exact Hnew ].
  - split; [ apply distinct_ids_insert_key; assumption | ].
    intros item Hitem. apply insert_by_key_In in Hitem.
    destruct Hitem as [-> | H]; [ exact Hnew | apply Hold, H ].
Qed.

Lemma wf_add (r : QueueItem) (w w' : World) :
  id r = inject_Z (idb_next_key w) ->
  idb_items w' = (idb_items w ++ [r])%list -> idb_next_key w' = idb_next_key w + 1 ->
  primary_wf w = true -> primary_wf w' = true.
Proof.
  intros Hid Hitems Hnext. rewrite !primary_wf_iff, Hitems, Hnext.
  intros [Hdistinct Hbelow].
  assert (Hstep : (inject_Z (idb_next_key w) < inject_Z (idb_next_key w + 1))%Q)
    by (rewrite <- Zlt_Qlt; lia).
  split.
  - apply distinct_ids_add; [ exact Hdistinct | ]. intros x Hx.
    destruct (id_eq (id r) (id x)) eqn:Heq; [ | reflexivity ].
    apply Qeq_bool_iff in Heq. specialize (Hbelow x Hx).
    rewrite <- Heq, Hid in Hbelow. apply Qlt_irrefl in Hbelow. contradiction.
  - intros item Hitem. apply in_app_or in Hitem. destruct Hitem as [Hitem | [<- | []]].
    + eapply Qlt_trans; [ apply Hbelow, Hitem | exact Hstep ].
    + rewrite Hid. exact Hstep.
Qed.

(** What each queue operation does to the primary store. *)
Lemma enqueue_idb (request : NoteRequest) (w : World) :
  let w' := exec (enqueue request) w in
  (idb_items w' = idb_items w /\ idb_next_key w' = idb_next_key w)
  \/ (exists r, id r = inject_Z (idb_next_key w)
                /\ idb_items w' = (idb_items w ++ [r])%list
                /\ idb_next_key w' = idb_next_key w + 1).
Proof.
  unfold exec, enqueue, bind.
  rewrite getQueueSize_spec, getMaxQueueSize_spec.
  destruct (queue_size w >=? max_size (routed w)).
  { left. flags w; split; reflexivity. }
  rewrite checkDuplicate_spec.
  destruct (recent_duplicate _ _ _).
  { left. flags w; split; reflexivity. }
  flags w; cbn; unfold enqueueFallback, bind, ret, storage_get_fallback; cbn;
    repeat match goal with
           | |- context [ if ?c then _ else _ ] => destruct c; cbn
           end;
    first [ left; split; reflexivity
          | right; eexists; split; [ | split; reflexivity ]; reflexivity ].
Qed.

Lemma dequeue_idb (key : Q) (w : World) :
  let w' := exec (dequeue key) w in
  idb_next_key w' = idb_next_key w
  /\ (idb_items w' = idb_items w
      \/ idb_items w' = filter (fun item => id_neq (id item) key) (idb_items w)).
Proof. flags w; cbn; auto. Qed.

Lemma updateItem_idb (key : Q) (updates : Updates) (w : World) :
  let w' := exec (updateItem key updates) w in
  (idb_items w' = idb_items w /\ idb_next_key w' = idb_next_key w)
  \/ exists r,
       idb_items w'
       = (if existsb (fun item => id_eq (id item) (id r)) (idb_items w)
          then replace_record r (idb_items w)
          else insert_by_key r (idb_items w))
       /\ idb_next_key w' = Z.max (idb_next_key w) (Qfloor (id r) + 1).
Proof.
  flags w; unfold exec, updateItem, updateItemFallback, bind, storage_get_fallback; cbn.
  1-4,8:
    destruct (findIndex _ (or_undefined slot [])); cbn; left; split; reflexivity.
  all:
    destruct (find _ items) as [item |]; cbn; [ | left; split; reflexivity ];
    right; exists (assign item updates (clk reads)); split; reflexivity.
Qed.

Lemma clearQueue_idb (w : World) :
  let w' := exec clearQueue w in
  idb_next_key w' = idb_next_key w
  /\ (idb_items w' = idb_items w \/ idb_items w' = []).
Proof. flags w; cbn; auto. Qed.

(** On the primary store every record has an id of its own, handed out
    by the key generator, and this stays so whatever happens: whatever the
    history of enqueues, dequeues, updates, cleanups, clears, notes
    created, driver passes, alarms and timers. *)
Theorem primary_ids_stay_distinct (events : list Event) (w : World) :
  primary_wf w = true ->
  let w' := exec (run events) w in
  primary_wf w' = true
  /\ distinct_ids (idb_items w') = true
  /\ (forall item, In item (idb_items w') -> (id item < inject_Z (idb_next_key w'))%Q)
  /\ idb_next_key w <= idb_next_key w'.
Proof.
  intros Hwf w'.
  assert (Hkeeps : keeps (fun x => primary_wf x = true /\ idb_next_key w <= idb_next_key x)
                         (run events)).
  { apply keeps_run.
    - intros request x [Hx Hnext].
      destruct (enqueue_idb request x) as [[Hitems Hkey] | [r [Hid [Hitems Hkey]]]].
      + split; [ eapply wf_same; eassumption | lia ].
      + split; [ eapply wf_add; eassumption | lia ].
    - intros key x [Hx Hnext].
      destruct (dequeue_idb key x) as [Hkey [Hitems | Hitems]].
      + split; [ eapply wf_same; eassumption | lia ].
      + split; [ eapply wf_filter; eassumption | lia ].
    - intros key updates x [Hx Hnext].
      destruct (updateItem_idb key updates x) as [[Hitems Hkey] | [r [Hitems Hkey]]].
      + split; [ eapply wf_same; eassumption | lia ].
      + split; [ eapply wf_put; eassumption | lia ].
    - intros statusFilter x [Hx Hnext]. unfold exec. rewrite getQueue_spec. cbn [snd].
      split; [ eapply wf_same; [ | | exact Hx ] | ]; flags x; try reflexivity; exact Hnext.
    - intros x [Hx Hnext].
      destruct (clearQueue_idb x) as [Hkey [Hitems | Hitems]].
      + split; [ eapply wf_same; eassumption | lia ].
      + split; [ | lia ]. apply primary_wf_iff. rewrite Hitems.
        split; [ reflexivity | intros item [] ].
    - intros x [Hx Hnext].
      split; [ eapply wf_same; [ | | exact Hx ] | ]; flags x; try reflexivity; exact Hnext.
    - intros n x H. exact H.
    - intros n x H. exact H.
    - intros t x H. exact H.
    - intros s x H. exact H. }
  destruct (Hkeeps w (conj Hwf (Z.le_refl _))) as [Hwf' Hnext].
  fold w' in Hwf', Hnext.
  split; [ exact Hwf' | ].
  split; [ apply primary_wf_iff, Hwf' | ].
  split; [ apply primary_wf_iff, Hwf' | exact Hnext ].
Qed.

(** The theorem on a freshly started extension and a history of seven
    events: the one record left has the third key. *)
Lemma primary_ids_stay_distinct_witness :
  let events :=
    [ Enqueue (Scenario.note "a"); Enqueue (Scenario.note "b"); Dequeue 1; Startup;
      TimerFires 0; ClearQueue; Enqueue (Scenario.note "c") ] in
  let w' := exec (run events) Scenario.offline_world in
  primary_wf w' = true /\ map id (idb_items w') = [3%Q] /\ idb_next_key w' = 4.
Proof.
  intros events w'.
  destruct (primary_ids_stay_distinct events Scenario.offline_world eq_refl) as [Hwf _].
  split; [ exact Hwf | split; reflexivity ].
Defined.

(** *** An [id] among the updates *)

Lemma existsb_find {A : Type} (p : A -> bool) (l : list A) :
  existsb p l = match find p l with Some _ => true | None => false end.
Proof.
  induction l as [| x l IH]; [ reflexivity | ].
  cbn. destruct (p x); [ reflexivity | exact IH ].
Qed.

Lemma replace_record_as_patched (copy : QueueItem) (l : list QueueItem) :
  replace_record copy l = patched (id copy) (fun _ => copy) l.
Proof.
  induction l as [| x l IH]; [ reflexivity | ].
  cbn. destruct (id_eq (id x) (id copy)); [ reflexivity | rewrite IH; reflexivity ].
Qed.

Lemma insert_by_key_length (r : QueueItem) (l : list QueueItem) :
  List.length (insert_by_key r l) = S (List.length l).
Proof.
  induction l as [| x l IH]; [ reflexivity | ].
  cbn. destruct (negb (Qle_bool (id x) (id r))); cbn; [ reflexivity | rewrite IH; reflexivity ].
Qed.

(** What [updateItem] does to a primary store that holds the id. *)
Lemma updateItem_primary (key : Q) (updates : Updates) (record : QueueItem) (w : World) :
  fallback_active w = false ->
  stored_item key w = Some record ->
  let w' := exec (updateItem key updates) w in
  let copy := assign record updates (next_now w) in
  stored_queue w'
  = (if existsb (fun item => id_eq (id item) (id copy)) (stored_queue w)
     then replace_record copy (stored_queue w)
     else insert_by_key copy (stored_queue w))
  /\ idb_next_key w' = Z.max (idb_next_key w) (Qfloor (id copy) + 1).
Proof.
  unfold stored_item, next_now.
  flags w; cbn; try discriminate; intros _ Hfound;
    unfold exec, updateItem, bind, stored_queue; cbn;
    unfold stored_queue in Hfound; cbn in Hfound; rewrite Hfound; cbn;
    split; reflexivity.
Qed.

(** [updateItem] copies an [id] it finds in [updates] like any other
    field, and the two stores take it differently.  On the fallback list
    the record is rewritten where it is, so it changes its id.  On
    IndexedDB the patched copy is put under the new id while the record
    read stays as it is: where the store holds no record of the new id,
    it holds one record more afterwards; where it holds one, that record
    is replaced by the copy.  The key generator moves past the new id. *)
Theorem updateItem_with_an_id
        (key new_id : Q) (updates : Updates) (record : QueueItem) (w : World) :
  set_id updates = Some new_id ->
  stored_item key w = Some record ->
  let w' := exec (updateItem key updates) w in
  let copy := assign record updates (next_now w) in
  id copy = new_id
  /\ eval (updateItem key updates) w = true
  /\ (fallback_active w = true ->
      stored_queue w'
      = patched key (fun item => assign item updates (next_now w)) (stored_queue w))
  /\ (fallback_active w = false ->
      idb_next_key w' = Z.max (idb_next_key w) (Qfloor new_id + 1)
      /\ (stored_item new_id w = None ->
          (forall x, In x (stored_queue w') <-> x = copy \/ In x (stored_queue w))
          /\ List.length (stored_queue w') = S (List.length (stored_queue w)))
      /\ (forall held, stored_item new_id w = Some held ->
          stored_queue w' = patched new_id (fun _ => copy) (stored_queue w))).
Proof.
  intros Hid Hrecord w' copy.
  assert (Hcopy : id copy = new_id) by (unfold copy; cbn; rewrite Hid; reflexivity).
  split; [ exact Hcopy | ].
  pose proof (updateItem_answer key updates w) as Hanswer. cbv zeta in Hanswer.
  rewrite Hrecord in Hanswer. destruct Hanswer as [Htrue _].
  split; [ exact Htrue | ]. split.
  - unfold w'. clear - Hrecord. unfold stored_item, next_now in *. revert Hrecord.
    flags w; cbn; try discriminate; intros Hfound _;
      unfold exec, updateItem, updateItemFallback, bind, stored_queue in *; cbn in *;
      pose proof (findIndex_find key (or_undefined slot [])) as Hfind;
      pose proof (update_at_patched key (fun item => assign item updates (clk reads))
                                    (or_undefined slot [])) as Hupdate;
      (destruct (findIndex _ (or_undefined slot [])) as [index |];
       [ cbn; rewrite (Hupdate index eq_refl); reflexivity
       | rewrite Hfind in Hfound; discriminate Hfound ]).
  - intros Hprimary.
    destruct (updateItem_primary key updates record w Hprimary Hrecord) as [Hstore Hnext].
    fold w' copy in Hstore, Hnext. rewrite Hcopy in Hstore, Hnext.
    split; [ exact Hnext | ].
    rewrite existsb_find in Hstore. fold (stored_item new_id w) in Hstore.
    split.
    + intros Hfresh. rewrite Hfresh in Hstore. rewrite Hstore.
      split; [ intros x; apply insert_by_key_In | apply insert_by_key_length ].
    + intros held Hheld. rewrite Hheld in Hstore. rewrite Hstore.
      rewrite replace_record_as_patched, Hcopy. reflexivity.
Qed.

(** The theorem on a store of two: the record of id 2 is updated with
    [{id: 9}].  The store then holds three records, of ids 1, 2 and 9, and
    the next key is 10. *)
Lemma updateItem_with_an_id_witness :
  let w' := exec (updateItem 2 (Scenario.only_id 9)) Scenario.mixed_world in
  idb_next_key Scenario.mixed_world = 3
  /\ idb_next_key w' = 10
  /\ List.length (stored_queue w') = 3%nat
  /\ map id (stored_queue w') = [1%Q; 2%Q; 9%Q].
Proof.
  intros w'.
  destruct (updateItem_with_an_id 2 9 (Scenario.only_id 9) Scenario.waiting_item
                                  Scenario.mixed_world eq_refl eq_refl)
    as [_ [_ [_ Hprimary]]].
  destruct (Hprimary eq_refl) as [Hnext [Hfresh _]].
  destruct (Hfresh eq_refl) as [_ Hlength].
  split; [ reflexivity | ]. split; [ exact Hnext | ]. split; [ exact Hlength | ].
  reflexivity.
Defined.

End IdFacts.

(** ** One store at a time *)

Module ModeFacts.
Import Js Model OfflineQueue ApiClient Background Policy Spec QueueFacts BackgroundFacts.
Import StoreFacts HistoryFacts.

Lemma same_store_refl (w : World) : same_store w w.
Proof. unfold same_store. tauto. Qed.

Lemma same_store_trans (w w' w'' : World) :
  same_store w w' -> same_store w' w'' -> same_store w w''.
Proof.
  unfold same_store. intros [H1 [H2 [H3 [H4 H5]]]] [H1' [H2' [H3' [H4' H5']]]].
  split; [ congruence | ].
  split; [ auto | ].
  split; [ auto | ].
  split.
  - intros H. rewrite <- H1 in H. destruct (H4' H) as [-> ->]. rewrite H1 in H. auto.
  - intros H. rewrite <- H1 in H. rewrite (H5' H). rewrite H1 in H. auto.
Qed.

Ltac same_store_cases w :=
  flags w; unfold same_store, store_chosen; cbn;
  repeat match goal with
         | |- context [ if ?c then _ else _ ] => destruct c; cbn
         | |- context [ match ?c with _ => _ end ] => destruct c; cbn
         end;
  repeat split; intros; try reflexivity; try discriminate; try assumption.

Lemma getQueue_same_store (statusFilter : option Status) (w : World) :
  same_store w (exec (getQueue statusFilter) w)
  /\ store_chosen (exec (getQueue statusFilter) w) = true.
Proof.
  unfold exec. rewrite getQueue_spec. cbn [snd].
  split; [ same_store_cases w | flags w; reflexivity ].
Qed.

Lemma enqueue_same_store (request : NoteRequest) (w : World) :
  same_store w (exec (enqueue request) w) /\ store_chosen (exec (enqueue request) w) = true.
Proof.
  unfold exec, enqueue, bind.
  rewrite getQueueSize_spec, getMaxQueueSize_spec.
  destruct (queue_size w >=? max_size (routed w)).
  { cbn [snd ret]. split; [ same_store_cases w | flags w; reflexivity ]. }
  rewrite checkDuplicate_spec.
  destruct (recent_duplicate _ _ _).
  { cbn [snd ret]. split; [ same_store_cases w | flags w; reflexivity ]. }
  split.
  - unfold enqueueFallback, bind, ret, storage_get_fallback. same_store_cases w.
  - unfold enqueueFallback, bind, ret, storage_get_fallback.
    flags w; cbn;
      repeat match goal with
             | |- context [ if ?c then _ else _ ] => destruct c; cbn
             end; reflexivity.
Qed.

Lemma dequeue_same_store (key : Q) (w : World) :
  same_store w (exec (dequeue key) w) /\ store_chosen (exec (dequeue key) w) = true.
Proof. split; [ same_store_cases w | flags w; reflexivity ]. Qed.

Lemma updateItem_same_store (key : Q) (updates : Updates) (w : World) :
  same_store w (exec (updateItem key updates) w)
  /\ store_chosen (exec (updateItem key updates) w) = true.
Proof.
  unfold exec, updateItem, updateItemFallback, bind, storage_get_fallback.
  split; [ same_store_cases w | ].
  flags w; cbn;
    repeat match goal with
           | |- context [ match ?c with _ => _ end ] => destruct c; cbn
           end; reflexivity.
Qed.

Lemma clearQueue_same_store (w : World) :
  same_store w (exec clearQueue w) /\ store_chosen (exec clearQueue w) = true.
Proof. split; [ same_store_cases w | flags w; reflexivity ]. Qed.

Lemma initDB_same_store (w : World) :
  same_store w (exec initDB w) /\ store_chosen (exec initDB w) = true.
Proof. split; [ same_store_cases w | flags w; reflexivity ]. Qed.


(** The choice of store is final.  Whatever the history, the store in
    use at its end is the store in use at its start, a fallback flag once
    set stays set, and the history has written only to that store: with the
    fallback list in use the IndexedDB records and the key generator are
    as they were, with IndexedDB in use the fallback list is. *)
Theorem store_choice_is_final (events : list Event) (w : World) :
  let w' := exec (run events) w in
  fallback_active w' = fallback_active w
  /\ (useFallback w = true -> useFallback w' = true)
  /\ (store_chosen w = true -> store_chosen w' = true)
  /\ (fallback_active w = true ->
      idb_items w' = idb_items w /\ idb_next_key w' = idb_next_key w)
  /\ (fallback_active w = false -> fallback_slot w' = fallback_slot w).
Proof.
  apply (keeps_run (same_store w)); try (intros; assumption).
  - intros request x Hx. eapply same_store_trans; [ exact Hx | apply enqueue_same_store ].
  - intros key x Hx. eapply same_store_trans; [ exact Hx | apply dequeue_same_store ].
  - intros key updates x Hx.
    eapply same_store_trans; [ exact Hx | apply updateItem_same_store ].
  - intros statusFilter x Hx.
    eapply same_store_trans; [ exact Hx | apply getQueue_same_store ].
  - intros x Hx. eapply same_store_trans; [ exact Hx | apply clearQueue_same_store ].
  - intros x Hx. eapply same_store_trans; [ exact Hx | apply initDB_same_store ].
  - apply same_store_refl.
Qed.

Lemma chosen_store_is_reported (w : World) :
  store_chosen w = true -> eval isIndexedDBAvailable w = negb (fallback_active w).
Proof. flags w; cbn; intros H; try reflexivity; discriminate H. Qed.

Lemma history_same_store (events : list Event) (w : World) :
  same_store w (exec (run events) w).
Proof.
  apply (keeps_run (same_store w)); try (intros; assumption).
  - intros request x Hx. eapply same_store_trans; [ exact Hx | apply enqueue_same_store ].
  - intros key x Hx. eapply same_store_trans; [ exact Hx | apply dequeue_same_store ].
  - intros key updates x Hx.
    eapply same_store_trans; [ exact Hx | apply updateItem_same_store ].
  - intros statusFilter x Hx.
    eapply same_store_trans; [ exact Hx | apply getQueue_same_store ].
  - intros x Hx. eapply same_store_trans; [ exact Hx | apply clearQueue_same_store ].
  - intros x Hx. eapply same_store_trans; [ exact Hx | apply initDB_same_store ].
  - apply same_store_refl.
Qed.

(** Once the choice is made, the answer names the store through any
    history. *)
Lemma chosen_store_stays_reported (events : list Event) (w : World) :
  store_chosen w = true ->
  eval isIndexedDBAvailable (exec (run events) w) = negb (fallback_active w).
Proof.
  intros Hchosen.
  destruct (history_same_store events w) as [Hmode [_ [Hstay _]]].
  rewrite chosen_store_is_reported, Hmode; auto.
Qed.

(** After one queue operation [m], and any history after it, the answer
    names the store in use. *)
Lemma operation_settles_the_answer {A : Type} (m : M A) (events : list Event) (w : World) :
  same_store w (exec m w) /\ store_chosen (exec m w) = true ->
  eval isIndexedDBAvailable (exec (run events) (exec m w)) = negb (fallback_active w).
Proof.
  intros [[Hmode _] Hchosen].
  rewrite (chosen_store_stays_reported events (exec m w) Hchosen), Hmode. reflexivity.
Qed.

(** [isIndexedDBAvailable()] names the store in use as soon as one queue
    operation has run, and keeps doing so whatever happens next: after a
    [getQueue], [enqueue], [dequeue], [updateItem], [clearQueue] or
    [initDB] from any state, and any history after it, the answer is
    [true] exactly when the records go to IndexedDB.  The same holds from
    a state in which the choice is already made.  Before any operation has
    run the answer is [false], also where IndexedDB would open. *)
Theorem isIndexedDBAvailable_names_the_store (events : list Event) (w : World) :
  let answer_after (w1 : World) := eval isIndexedDBAvailable (exec (run events) w1) in
  (forall statusFilter,
      answer_after (exec (getQueue statusFilter) w) = negb (fallback_active w))
  /\ (forall request, answer_after (exec (enqueue request) w) = negb (fallback_active w))
  /\ (forall key, answer_after (exec (dequeue key) w) = negb (fallback_active w))
  /\ (forall key updates,
         answer_after (exec (updateItem key updates) w) = negb (fallback_active w))
  /\ answer_after (exec clearQueue w) = negb (fallback_active w)
  /\ answer_after (exec initDB w) = negb (fallback_active w)
  /\ (store_chosen w = true -> answer_after w = negb (fallback_active w))
  /\ (store_chosen w = false -> eval isIndexedDBAvailable w = false).
Proof.
  cbv zeta.
  split; [ intros statusFilter; apply operation_settles_the_answer, getQueue_same_store | ].
  split; [ intros request; apply operation_settles_the_answer, enqueue_same_store | ].
  split; [ intros key; apply operation_settles_the_answer, dequeue_same_store | ].
  split; [ intros key updates;
           apply operation_settles_the_answer, updateItem_same_store | ].
  split; [ apply operation_settles_the_answer, clearQueue_same_store | ].
  split; [ apply operation_settles_the_answer, initDB_same_store | ].
  split; [ apply chosen_store_stays_reported | ].
  flags w; cbn; intros H; try reflexivity; discriminate H.
Qed.

(** The theorem on two freshly started hosts, one whose database does
    not open and one whose database does: after a first [getQueue] and a
    history of three events the answer is [false] on the first and [true]
    on the second, and it was [false] on both before. *)
Lemma isIndexedDBAvailable_names_the_store_witness :
  let events := [Enqueue (Scenario.note "a"); Startup; Alarm "cleanup-queue"] in
  let closed := Scenario.fresh_world false Scenario.server_down Scenario.seconds in
  let open := Scenario.fresh_world true Scenario.server_down Scenario.seconds in
  eval isIndexedDBAvailable (exec (run events) (exec (getQueue None) closed)) = false
  /\ eval isIndexedDBAvailable (exec (run events) (exec (getQueue None) open)) = true
  /\ eval isIndexedDBAvailable closed = false
  /\ eval isIndexedDBAvailable open = false.
Proof.
  intros events closed open.
  destruct (isIndexedDBAvailable_names_the_store events closed) as [Hclosed _].
  destruct (isIndexedDBAvailable_names_the_store events open) as [Hopen _].
  cbv zeta in Hclosed, Hopen.
  rewrite (Hclosed None), (Hopen None). repeat split.
Defined.

End ModeFacts.

(** ** Further properties of the orchestrator *)

Module RetryFacts.
Import Js Model OfflineQueue ApiClient Background Policy Spec QueueFacts BackgroundFacts.
Import StoreFacts HistoryFacts.

(** [retryQueueItem(item)] on a stored item that has retries left, when
    the delivery succeeds: the stored record becomes [success] with an
    empty [lastError] and the [retryCount] it had, the delivery was called
    once and no timer is set. *)
Theorem delivered_item_succeeds (item record : QueueItem) (w : World) :
  shouldRetry (retryCount item) (strategy_of w) = true ->
  stored_item (id item) w = Some record ->
  success (next_delivery item w) = true ->
  let w' := exec (retryQueueItem item) w in
  (exists record',
      stored_item (id item) w' = Some record'
      /\ status record' = Success
      /\ lastError record' = ""
      /\ retryCount record' = retryCount record
      /\ payload record' = payload record)
  /\ network_calls w' = S (network_calls w)
  /\ timers w' = timers w.
Proof.
  intros Hgo Hstored Hok w'. subst w'.
  rewrite retryQueueItem_exec, Hgo. cbn [negb]. cbv zeta.
  set (w1 := exec (updateItem (id item) upd_retrying) w).
  destruct (updateItem_spec (id item) upd_retrying w eq_refl)
    as [_ [_ [_ [Hnet [Hcalls [Htimers _]]]]]].
  fold w1 in Hnet, Hcalls, Htimers.
  rewrite (next_delivery_frame item w w1 Hnet Hcalls), Hok.
  set (w2 := with_network_calls (S (network_calls w1)) w1).
  destruct (updateItem_spec (id item) upd_success w2 eq_refl)
    as [_ [_ [_ [_ [Hcalls' [Htimers' _]]]]]].
  split; [ | split ].
  - rewrite updateItem_stored_item by reflexivity.
    change (stored_item (id item) w2) with (stored_item (id item) w1).
    unfold w1. rewrite updateItem_stored_item, Hstored by reflexivity. cbn.
    eexists. repeat split.
  - rewrite Hcalls'. unfold w2. cbn. rewrite Hcalls. reflexivity.
  - rewrite Htimers'. unfold w2. cbn. exact Htimers.
Qed.

(** The theorem on a waiting item, the server being up. *)
Lemma delivered_item_succeeds_witness :
  let w := Scenario.recovered_world in
  let w' := exec (retryQueueItem Scenario.waiting_item) w in
  (exists record',
      stored_item (id Scenario.waiting_item) w' = Some record'
      /\ status record' = Success
      /\ lastError record' = ""
      /\ retryCount record' = retryCount Scenario.waiting_item
      /\ payload record' = payload Scenario.waiting_item)
  /\ network_calls w' = S (network_calls w)
  /\ timers w' = timers w.
Proof.
  intros w.
  apply (delivered_item_succeeds Scenario.waiting_item Scenario.waiting_item w);
    reflexivity.
Defined.

(** *** What the retries never rewrite *)

Lemma keeps_payloads_updateItem (w : World) (key : Q) (updates : Updates) :
  state_only updates = true -> keeps (same_payloads w) (updateItem key updates).
Proof.
  intros Hstate x Hx. unfold same_payloads in *.
  rewrite (updateItem_payload key updates x Hstate). exact Hx.
Qed.

Lemma keeps_payloads_getQueue (w : World) (statusFilter : option Status) :
  keeps (same_payloads w) (getQueue statusFilter).
Proof.
  intros x Hx. unfold same_payloads, exec in *. rewrite getQueue_spec. cbn [snd].
  rewrite routed_stored_queue. exact Hx.
Qed.

Lemma keeps_payloads_initDB (w : World) : keeps (same_payloads w) initDB.
Proof.
  intros x Hx. unfold same_payloads in *. rewrite <- Hx. f_equal. flags x; reflexivity.
Qed.

Lemma keeps_payloads_handle (w : World) (event : Event) :
  retries_only event = true -> keeps (same_payloads w) (handle event).
Proof.
  pose proof (keeps_payloads_updateItem w) as Hupdate.
  pose proof (keeps_payloads_getQueue w) as Hget.
  assert (Hnet : forall n x, same_payloads w x -> same_payloads w (with_network_calls n x))
    by (intros; assumption).
  assert (Htimers : forall t x, same_payloads w x -> same_payloads w (with_timers t x))
    by (intros; assumption).
  pose proof (keeps_processQueueOnStartup (same_payloads w) Hupdate Hget Hnet Htimers)
    as Hpass.
  destruct event; cbn [retries_only]; try discriminate; intros Hevent; cbn [handle].
  - apply keeps_bind; [ apply Hupdate; exact Hevent | intros ?; apply keeps_ret ].
  - unfold initOfflineQueueProcessing.
    apply keeps_bind; [ apply keeps_payloads_initDB | intros ?; exact Hpass ].
  - unfold onNetworkMessage.
    destruct (String.eqb msgType "network-online"); [ exact Hpass | apply keeps_ret ].
  - unfold onAlarm. apply negb_true_iff in Hevent. rewrite Hevent.
    apply keeps_bind; [ | intros ?; apply keeps_ret ].
    destruct (String.eqb name "check-queue"); [ exact Hpass | apply keeps_ret ].
  - apply (keeps_fireTimer (same_payloads w) Hupdate Hnet Htimers).
Qed.

(** The retries never rewrite what a record carries.  [updateItem]
    copies whatever its [updates] name, [content] or [id] included, but the
    orchestrator only ever names [status], [retryCount] and [lastError].
    So through any history of starts, network and check-queue signals and
    timers firing, and of [updateItem] calls that name nothing of what a
    record carries, no record is added or removed and every record keeps
    its id, content, type, tags, url, title, createdAt and metadata, in the
    order of the store. *)
Theorem retries_keep_the_payload (events : list Event) (w : World) :
  forallb retries_only events = true ->
  map payload (stored_queue (exec (run events) w)) = map payload (stored_queue w).
Proof.
  intros Hevents.
  assert (Hkeeps : keeps (same_payloads w) (run events)).
  { induction events as [| event rest IH]; [ apply keeps_ret | ].
    cbn in Hevents. apply andb_true_iff in Hevents. destruct Hevents as [Hevent Hrest].
    cbn [run]. apply keeps_bind; [ apply keeps_payloads_handle; exact Hevent | ].
    intros ?. apply IH. exact Hrest. }
  apply Hkeeps. reflexivity.
Qed.

(** The theorem on a store of two, through a start, an alarm and two
    timers. *)
Lemma retries_keep_the_payload_witness :
  let events :=
    [Startup; Alarm "check-queue"; TimerFires 0; UpdateItem 2 upd_retrying; TimerFires 0] in
  map payload (stored_queue (exec (run events) Scenario.mixed_world))
  = map payload (stored_queue Scenario.mixed_world).
Proof.
  apply (retries_keep_the_payload
           [Startup; Alarm "check-queue"; TimerFires 0; UpdateItem 2 upd_retrying;
            TimerFires 0]
           Scenario.mixed_world).
  reflexivity.
Defined.


(** *** One delivery per item and pass *)

Lemma retryQueueItem_counts (item : QueueItem) (w : World) :
  let w' := exec (retryQueueItem item) w in
  let made := if shouldRetry (retryCount item) (strategy_of w) then 1%nat else 0%nat in
  network_calls w' = (network_calls w + made)%nat
  /\ (List.length (timers w') <= List.length (timers w) + made)%nat
  /\ (List.length (timers w) <= List.length (timers w'))%nat.
Proof.
  cbv zeta. rewrite retryQueueItem_exec.
  destruct (shouldRetry (retryCount item) (strategy_of w)); cbn [negb].
  - cbv zeta.
    set (w1 := exec (updateItem (id item) upd_retrying) w).
    destruct (updateItem_spec (id item) upd_retrying w eq_refl)
      as [_ [_ [_ [_ [Hcalls [Htimers _]]]]]].
    fold w1 in Hcalls, Htimers.
    set (w2 := with_network_calls (S (network_calls w1)) w1).
    destruct (success (next_delivery item w1)).
    + destruct (updateItem_spec (id item) upd_success w2 eq_refl)
        as [_ [_ [_ [_ [Hcalls' [Htimers' _]]]]]].
      rewrite Hcalls', Htimers'. unfold w2. cbn. rewrite Hcalls, Htimers.
      repeat split; lia.
    + destruct (updateItem_spec (id item) (upd_pending item (next_delivery item w1)) w2 eq_refl)
        as [_ [_ [_ [_ [Hcalls' [Htimers' _]]]]]].
      cbn [network_calls timers with_timers]. rewrite length_app, Hcalls', Htimers'.
      unfold w2. cbn. rewrite Hcalls, Htimers.
      repeat split; lia.
  - destruct (updateItem_spec (id item) upd_failed w eq_refl)
      as [_ [_ [_ [_ [Hcalls [Htimers _]]]]]].
    rewrite Hcalls, Htimers. repeat split; lia.
Qed.

Lemma for_each_counts (items : list QueueItem) (w : World) :
  let w' := exec (for_each items) w in
  let made :=
    List.length (filter (fun item => shouldRetry (retryCount item) (strategy_of w)) items) in
  network_calls w' = (network_calls w + made)%nat
  /\ (List.length (timers w') <= List.length (timers w) + made)%nat
  /\ (List.length (timers w) <= List.length (timers w'))%nat.
Proof.
  revert w. induction items as [| item rest IH]; intros w; cbv zeta.
  - cbn. repeat split; lia.
  - change (for_each (item :: rest))
      with (bind (retryQueueItem item) (fun _ => for_each rest)).
    rewrite exec_bind.
    destruct (retryQueueItem_counts item w) as [Hcalls [Htimers Hgrow]].
    assert (Hstrategy : strategy_of (exec (retryQueueItem item) w) = strategy_of w)
      by (unfold strategy_of; rewrite retryQueueItem_settings; reflexivity).
    destruct (IH (exec (retryQueueItem item) w)) as [Hcalls' [Htimers' Hgrow']].
    rewrite Hstrategy in Hcalls', Htimers'.
    cbn [filter].
    destruct (shouldRetry (retryCount item) (strategy_of w)); cbn [List.length];
      repeat split; lia.
Qed.

(** A driver pass makes one delivery for every stored item that is
    [pending] or [retrying] and has retries left under the strategy in
    force, and none besides: the deliveries made are as many as these
    items, and the timers set in the pass are at most as many. *)
Theorem pass_attempts_each_item_once (w : World) :
  let w' := exec processQueueOnStartup w in
  let made := List.length (attempted (strategy_of w) (stored_queue w)) in
  network_calls w' = (network_calls w + made)%nat
  /\ (List.length (timers w) <= List.length (timers w'))%nat
  /\ (List.length (timers w') <= List.length (timers w) + made)%nat.
Proof.
  cbv zeta. rewrite processQueueOnStartup_exec.
  destruct (for_each_counts (filter live (sort_newest_first (stored_queue w))) (routed w))
    as [Hcalls [Htimers Hgrow]].
  assert (Hstrategy : strategy_of (routed w) = strategy_of w) by (flags w; reflexivity).
  assert (Hcalls0 : network_calls (routed w) = network_calls w) by (flags w; reflexivity).
  assert (Htimers0 : timers (routed w) = timers w) by (flags w; reflexivity).
  rewrite Hstrategy, Hcalls0, Htimers0, filter_and, filter_sort_length in *.
  unfold attempted. repeat split; assumption.
Qed.

End RetryFacts.

(** ** Further properties of [createNote] *)

Module NoteFacts.
Import Js Model OfflineQueue ApiClient Background Policy Spec QueueFacts BackgroundFacts.
Import StoreFacts HistoryFacts.

Lemma enqueue_network_calls (request : NoteRequest) (w : World) :
  network_calls (exec (enqueue request) w) = network_calls w.
Proof.
  unfold exec, enqueue, bind.
  rewrite getQueueSize_spec, getMaxQueueSize_spec.
  destruct (queue_size w >=? max_size (routed w)); [ flags w; reflexivity | ].
  rewrite checkDuplicate_spec.
  destruct (recent_duplicate _ _ _); [ flags w; reflexivity | ].
  unfold enqueueFallback, bind, ret, storage_get_fallback.
  flags w; cbn;
    repeat match goal with
           | |- context [ if ?c then _ else _ ] => destruct c; cbn
           end; reflexivity.
Qed.

(** What the answer of [enqueue] says of the store. *)
Lemma enqueue_result (request : NoteRequest) (w : World) :
  match eval (enqueue request) w with
  | Accepted new_id =>
      stored_queue (exec (enqueue request) w)
      = (stored_queue w
           ++ [new_record request (clock w (S (clock_reads w)))
                          (clock w (S (S (clock_reads w)))) new_id])%list
  | Rejected _ => stored_queue (exec (enqueue request) w) = stored_queue w
  end.
Proof.
  destruct (enqueue_spec request w) as [_ [_ Hcases]].
  destruct (queue_size w >=? max_size w); [ destruct Hcases as [-> ->]; reflexivity | ].
  destruct (recent_duplicate _ _ _); [ destruct Hcases as [-> ->]; reflexivity | ].
  destruct (fallback_active w && (queue_size w >=? 50));
    [ destruct Hcases as [-> ->]; reflexivity | ].
  destruct Hcases as [new_id [-> ->]]. reflexivity.
Qed.

Lemma assoc_set_key (key value : string) (object : list (string * string)) :
  assoc key (set_key key value object) = Some value.
Proof.
  induction object as [| [k v] rest IH]; cbn.
  - rewrite String.eqb_refl. reflexivity.
  - destruct (String.eqb k key) eqn:Hk; cbn; rewrite Hk; [ reflexivity | exact IH ].
Qed.

Lemma or_number_zero (n : Z) : or_number n 0 = n.
Proof. unfold or_number. destruct (Z.eqb_spec n 0); congruence. Qed.

(** The record of a note put in the queue. *)
Lemma tryEnqueueNote_spec (text : string) (kind : Z) (meta : list (string * string))
      (error : string) (w : World) :
  let w' := exec (tryEnqueueNote text kind meta error) w in
  network_calls w' = network_calls w
  /\ if eval (tryEnqueueNote text kind meta error) w then
       autoRetry (or_undefined (settings_slot w) default_settings) = Some true
       /\ exists record,
           stored_queue w' = (stored_queue w ++ [record])%list
           /\ queued_note text kind error record
     else stored_queue w' = stored_queue w.
Proof.
  cbv [tryEnqueueNote exec eval bind getQueueSettings storage_get_settings ret fst snd].
  destruct (autoRetry (or_undefined (settings_slot w) default_settings)) as [[|] |];
    cbn [or_undefined negb]; try (split; reflexivity).
  set (request := mkRequest text (Some kind) (Some "") _ _ _).
  pose proof (enqueue_result request w) as Hstore.
  pose proof (enqueue_network_calls request w) as Hcalls.
  unfold eval, exec in Hstore, Hcalls.
  destruct (enqueue request w) as [[new_id | reason] w1]; cbn [fst snd] in *.
  - split; [ exact Hcalls | ]. split; [ reflexivity | ].
    eexists. split; [ exact Hstore | ].
    unfold queued_note, new_record, request. cbn.
    rewrite or_number_zero, assoc_set_key. repeat split.
  - split; assumption.
Qed.

(** [createNote] sends one request at most, and puts the note in the queue
    only when automatic retry is on and that request throws, is answered
    with a status of 500 or more, or is answered [ok] with a body that
    [response.json()] rejects: then it reports [queued] with
    [success: false], and the note is the last record of the queue, with its
    content and type, [pending], [retryCount] 0 and the error kept in its
    metadata.  It reports success only on an [ok] answer with a JSON body,
    and queues nothing then.  Whenever [queued] is not reported, an
    authentication failure (401, 403) and any other status below 500
    included, the queue is left as it is. *)
Theorem createNote_queues_failed_requests_only
        (apiUrl token text : string) (kind : Z) (meta : list (string * string))
        (w : World) :
  let result := eval (createNote apiUrl token text kind meta) w in
  let w' := exec (createNote apiUrl token text kind meta) w in
  (network_calls w' <= network_calls w + 1)%nat
  /\ (note_success result = true ->
      queued result = false /\ network w (network_calls w) = ResponseOk)
  /\ (queued result = false -> stored_queue w' = stored_queue w)
  /\ (queued result = true ->
      note_success result = false
      /\ autoRetry (or_undefined (settings_slot w) default_settings) = Some true
      /\ exists error,
          (network w (network_calls w) = FetchThrows error
           \/ network w (network_calls w) = ResponseOkNotJson error
           \/ exists code,
               network w (network_calls w) = ResponseStatus code
               /\ 500 <= code
               /\ error = "服务器错误 " ++ number_to_string code)
          /\ exists record,
              stored_queue w' = (stored_queue w ++ [record])%list
              /\ queued_note text kind error record).
Proof.
  cbv zeta. unfold createNote.
  destruct (falsy apiUrl || falsy token).
  { cbn. repeat split; try discriminate; lia. }
  destruct (falsy text || blank (code_units text)).
  { cbn. repeat split; try discriminate; lia. }
  unfold eval, exec, bind, fetch. cbn [fst snd].
  set (w1 := with_network_calls (S (network_calls w)) w).
  assert (Hcaught : forall error,
             network w (network_calls w) = FetchThrows error
             \/ network w (network_calls w) = ResponseOkNotJson error ->
             let answer :=
               bind (tryEnqueueNote text kind meta error)
                    (fun queueResult =>
                       if queueResult
                       then ret (mkNoteResult false (T "queue_enqueued_network_error" None)
                                              true)
                       else ret (mkNoteResult false (T "error_networkError" (Some error))
                                              false)) w1 in
             (network_calls (snd answer) <= network_calls w + 1)%nat
             /\ (note_success (fst answer) = true ->
                 queued (fst answer) = false
                 /\ network w (network_calls w) = ResponseOk)
             /\ (queued (fst answer) = false -> stored_queue (snd answer) = stored_queue w)
             /\ (queued (fst answer) = true ->
                 note_success (fst answer) = false
                 /\ autoRetry (or_undefined (settings_slot w) default_settings) = Some true
                 /\ exists error0,
                     (network w (network_calls w) = FetchThrows error0
                      \/ network w (network_calls w) = ResponseOkNotJson error0
                      \/ exists code,
                          network w (network_calls w) = ResponseStatus code
                          /\ 500 <= code
                          /\ error0 = "服务器错误 " ++ number_to_string code)
                     /\ exists record,
                         stored_queue (snd answer) = (stored_queue w ++ [record])%list
                         /\ queued_note text kind error0 record)).
  { intros error Hanswer. cbv zeta. unfold bind.
    pose proof (tryEnqueueNote_spec text kind meta error w1) as [Hcalls Hcases].
    unfold eval, exec in Hcalls, Hcases.
    destruct (tryEnqueueNote text kind meta error w1) as [[|] w2];
      cbv [ret fst snd note_success queued] in *.
    + destruct Hcases as [Hauto [record [Hstore Hnote]]].
      split; [ rewrite Hcalls; cbn; lia | ].
      split; [ discriminate | ]. split; [ discriminate | ].
      intros _. split; [ reflexivity | ]. split; [ exact Hauto | ].
      exists error. split; [ tauto | ].
      exists record. split; assumption.
    + split; [ rewrite Hcalls; cbn; lia | ].
      split; [ discriminate | ]. split; [ intros _; exact Hcases | discriminate ]. }
  destruct (network w (network_calls w)) as [| error | code | error] eqn:Hanswer.
  - cbn. repeat split; try discriminate; lia.
  - apply (Hcaught error). right. reflexivity.
  - destruct ((code =? 401) || (code =? 403)).
    { cbn. repeat split; try discriminate; lia. }
    destruct (code >=? 500) eqn:Hcode.
    + pose proof (tryEnqueueNote_spec text kind meta
                                      ("服务器错误 " ++ number_to_string code) w1)
        as [Hcalls Hcases].
      unfold eval, exec in Hcalls, Hcases.
      destruct (tryEnqueueNote text kind meta _ w1) as [[|] w2];
        cbv [ret fst snd note_success queued] in *.
      * destruct Hcases as [Hauto [record [Hstore Hnote]]].
        split; [ rewrite Hcalls; cbn; lia | ].
        split; [ discriminate | ]. split; [ discriminate | ].
        intros _. split; [ reflexivity | ]. split; [ exact Hauto | ].
        eexists. split; [ right; right; exists code; repeat split; lia | ].
        exists record. split; assumption.
      * split; [ rewrite Hcalls; cbn; lia | ].
        split; [ discriminate | ]. split; [ intros _; exact Hcases | discriminate ].
    + cbn. repeat split; try discriminate; lia.
  - apply (Hcaught error). left. reflexivity.
Qed.

End NoteFacts.

(** ** Round trips and edges of the queue manager *)

Module EdgeFacts.
Import Js Model OfflineQueue ApiClient Background Policy Spec QueueFacts BackgroundFacts.
Import StoreFacts HistoryFacts IdFacts ModeFacts NoteFacts.

Lemma enqueue_primary_id (request : NoteRequest) (w : World) :
  fallback_active w = false ->
  match eval (enqueue request) w with
  | Accepted new_id => new_id = inject_Z (idb_next_key w)
  | Rejected _ => True
  end.
Proof.
  intros Hprimary. unfold eval, enqueue, bind.
  rewrite getQueueSize_spec, getMaxQueueSize_spec.
  destruct (queue_size w >=? max_size (routed w)); [ exact I | ].
  rewrite checkDuplicate_spec.
  destruct (recent_duplicate _ _ _); [ exact I | ].
  revert Hprimary.
  flags w; cbn; intros Hprimary; try discriminate Hprimary; reflexivity.
Qed.

Lemma find_fresh (key : Q) (l : list QueueItem) :
  (forall x, In x l -> id_eq (id x) key = false) ->
  find (fun x => id_eq (id x) key) l = None
  /\ filter (fun x => id_neq (id x) key) l = l.
Proof.
  induction l as [| x l IH]; intros Hfresh; [ split; reflexivity | ].
  destruct IH as [Hfind Hfilter]; [ intros y Hy; apply Hfresh; right; exact Hy | ].
  pose proof (Hfresh x (or_introl eq_refl)) as Hx.
  cbn [find filter]. unfold id_neq at 1. unfold id_eq in Hx. unfold id_eq at 1.
  rewrite Hx. cbn [negb]. rewrite Hfilter. split; [ exact Hfind | reflexivity ].
Qed.

Lemma find_after {A : Type} (p : A -> bool) (l l' : list A) :
  find p l = None -> find p (l ++ l') = find p l'.
Proof.
  induction l as [| x l IH]; [ reflexivity | ].
  cbn. destruct (p x); [ discriminate | exact IH ].
Qed.

(** On the primary store, the id [enqueue] returns is new to the store
    and finds the record just stored, which is [pending] with [retryCount]
    0, an empty [lastError] and the content given; and [dequeue] of that id
    gives back the store as it was before the [enqueue]. *)
Theorem enqueue_then_dequeue_restores (request : NoteRequest) (new_id : Q) (w : World) :
  fallback_active w = false ->
  primary_wf w = true ->
  eval (enqueue request) w = Accepted new_id ->
  let w1 := exec (enqueue request) w in
  stored_item new_id w = None
  /\ (exists record,
         stored_item new_id w1 = Some record
         /\ id record = new_id
         /\ content record = req_content request
         /\ status record = Pending
         /\ retryCount record = 0
         /\ lastError record = "")
  /\ stored_queue (exec (dequeue new_id) w1) = stored_queue w.
Proof.
  intros Hprimary Hwf Haccepted w1.
  pose proof (enqueue_primary_id request w Hprimary) as Hid.
  pose proof (enqueue_result request w) as Hstore.
  rewrite Haccepted in Hid, Hstore. fold w1 in Hstore.
  assert (Hqueue : stored_queue w = idb_items w)
    by (unfold stored_queue; rewrite Hprimary; reflexivity).
  apply primary_wf_iff in Hwf. destruct Hwf as [_ Hbelow].
  assert (Hfresh : forall x, In x (stored_queue w) -> id_eq (id x) new_id = false).
  { intros x Hx. rewrite Hqueue in Hx. specialize (Hbelow x Hx).
    destruct (id_eq (id x) new_id) eqn:Heq; [ | reflexivity ].
    apply Qeq_bool_iff in Heq. rewrite Heq, Hid in Hbelow.
    apply Qlt_irrefl in Hbelow. contradiction. }
  destruct (find_fresh new_id (stored_queue w) Hfresh) as [Hfind Hfilter].
  split; [ exact Hfind | ]. split.
  - unfold stored_item. rewrite Hstore, (find_after _ _ _ Hfind).
    cbn [find new_record id]. unfold id_eq. rewrite (Qeq_bool_refl new_id).
    eexists. repeat split.
  - destruct (dequeue_spec new_id w1) as [_ [_ ->]].
    rewrite Hstore, filter_app, Hfilter.
    cbn [filter new_record id]. unfold id_neq. rewrite (Qeq_bool_refl new_id).
    cbn [negb]. apply app_nil_r.
Qed.

(** The theorem on a store that holds two records. *)
Lemma enqueue_then_dequeue_restores_witness :
  let w := Scenario.mixed_world in
  let w1 := exec (enqueue (Scenario.note "n")) w in
  stored_item 3 w = None
  /\ (exists record,
         stored_item 3 w1 = Some record
         /\ id record = 3%Q
         /\ content record = req_content (Scenario.note "n")
         /\ status record = Pending
         /\ retryCount record = 0
         /\ lastError record = "")
  /\ stored_queue (exec (dequeue 3) w1) = stored_queue w.
Proof.
  apply (enqueue_then_dequeue_restores (Scenario.note "n") 3 Scenario.mixed_world);
    reflexivity.
Defined.

(** [clearQueue()] answers [true] and empties the store in use, so that
    [getQueueSize()] is 0 afterwards; the other store is not touched and the
    key generator of the primary store keeps its number. *)
Theorem clearQueue_empties_the_store_in_use (w : World) :
  let w' := exec clearQueue w in
  eval clearQueue w = true
  /\ stored_queue w' = []
  /\ eval getQueueSize w' = 0
  /\ idb_next_key w' = idb_next_key w
  /\ (fallback_active w = true -> idb_items w' = idb_items w)
  /\ (fallback_active w = false -> fallback_slot w' = fallback_slot w).
Proof.
  cbv zeta.
  assert (Hempty : stored_queue (exec clearQueue w) = []) by (flags w; reflexivity).
  split; [ flags w; reflexivity | ].
  split; [ exact Hempty | ].
  split; [ unfold eval; rewrite getQueueSize_spec; unfold queue_size; cbn [fst];
           rewrite Hempty; reflexivity | ].
  split; [ flags w; reflexivity | ].
  destruct (clearQueue_same_store w) as [[_ [_ [_ [Hidb Hslot]]]] _].
  split; [ intros H; apply Hidb, H | exact Hslot ].
Qed.

Lemma max_size_not_zero (w : World) : max_size w <> 0.
Proof.
  unfold max_size, eval, getMaxQueueSize, bind, storage_get_settings, ret.
  destruct (settings_slot w) as [settings |]; cbn; [ | discriminate ].
  unfold or_number, DEFAULT_MAX_QUEUE_SIZE.
  destruct (Z.eqb_spec (or_undefined (maxSize settings) 0) 0); [ discriminate | assumption ].
Qed.

(** A saved [maxSize] of 0 does not close the queue.  [getMaxQueueSize]
    never answers 0: a [maxSize] that is 0 or missing reads as the default
    100.  So on an empty queue an [enqueue] is accepted unless a negative
    [maxSize] is saved, and the item is then the only record. *)
Theorem empty_queue_accepts (request : NoteRequest) (w : World) :
  stored_queue w = [] ->
  0 <= max_size w ->
  max_size w <> 0
  /\ (forall settings,
         settings_slot w = Some settings ->
         maxSize settings = Some 0 \/ maxSize settings = None ->
         max_size w = 100)
  /\ exists new_id,
      eval (enqueue request) w = Accepted new_id
      /\ stored_queue (exec (enqueue request) w)
         = [new_record request (clock w (S (clock_reads w)))
                       (clock w (S (S (clock_reads w)))) new_id].
Proof.
  intros Hempty Hmax.
  pose proof (max_size_not_zero w) as Hnonzero.
  split; [ exact Hnonzero | ]. split.
  - intros settings Hslot Hzero.
    unfold max_size, eval, getMaxQueueSize, bind, storage_get_settings, ret.
    rewrite Hslot. destruct Hzero as [-> | ->]; reflexivity.
  - destruct (enqueue_accepts request w) as [new_id [Hok Hstore]].
    + unfold queue_size. rewrite Hempty. cbn. lia.
    + unfold capacity, queue_size. rewrite Hempty. cbn.
      destruct (fallback_active w); lia.
    + rewrite Hempty. reflexivity.
    + exists new_id. split; [ exact Hok | ]. rewrite Hstore, Hempty. reflexivity.
Qed.

(** The theorem with a [maxSize] of 0 saved. *)
Lemma empty_queue_accepts_witness :
  let w := with_settings_slot (Some (Scenario.settings_with (Some 0) None))
                              Scenario.offline_world in
  max_size w = 100 /\ exists new_id, eval (enqueue (Scenario.note "a")) w = Accepted new_id.
Proof.
  intros w.
  destruct (empty_queue_accepts (Scenario.note "a") w) as [_ [Hdefault [new_id [Hok _]]]];
    [ reflexivity | vm_compute; discriminate | ].
  split; [ apply (Hdefault _ eq_refl); left; reflexivity | exists new_id; exact Hok ].
Defined.

End EdgeFacts.

(** ** A whole pass with the server up *)

Module PassFacts.
Import Js Model OfflineQueue ApiClient Background Policy Spec QueueFacts BackgroundFacts.
Import StoreFacts HistoryFacts IdFacts ModeFacts NoteFacts.

Lemma same_outside_find (touched : Q -> bool) (key : Q) (l l' : list QueueItem) :
  same_outside touched l l' ->
  (forall x, In x l -> id_eq (id x) key = true -> touched (id x) = false) ->
  find (fun x => id_eq (id x) key) l' = find (fun x => id_eq (id x) key) l.
Proof.
  intros H. induction H as [| x y l l' [Hid Hsame] _ IH]; intros Hout; [ reflexivity | ].
  cbn. rewrite Hid. destruct (id_eq (id x) key) eqn:Hx.
  - rewrite (Hsame (Hout x (or_introl eq_refl) Hx)). reflexivity.
  - apply IH. intros z Hz. apply Hout. right. exact Hz.
Qed.

Lemma find_distinct (l : list QueueItem) (item : QueueItem) :
  distinct_ids l = true -> In item l ->
  find (fun x => id_eq (id x) (id item)) l = Some item.
Proof.
  intros Hdistinct Hin.
  destruct (find _ l) as [found |] eqn:Hfind.
  - apply find_some in Hfind. destruct Hfind as [Hfound Hid].
    rewrite (distinct_ids_same l found item Hdistinct Hfound Hin Hid). reflexivity.
  - pose proof (find_none _ _ Hfind item Hin) as Hnone. cbn in Hnone.
    unfold id_eq in Hnone. rewrite Qeq_bool_refl in Hnone. discriminate.
Qed.

Lemma distinct_ids_insert (x : QueueItem) (l : list QueueItem) :
  distinct_ids (insert_by_createdAt x l) = distinct_ids (x :: l).
Proof.
  induction l as [| y l IH]; [ reflexivity | ].
  cbn [insert_by_createdAt]. destruct (createdAt x <? createdAt y); [ | reflexivity ].
  cbn [distinct_ids] in IH |- *. rewrite IH.
  assert (Hforall : forall p q, forallb p (insert_by_createdAt q l) = p q && forallb p l).
  { intros p q. clear. induction l as [| z l IHl]; [ reflexivity | ].
    cbn. destruct (createdAt q <? createdAt z); cbn; [ rewrite IHl | ]; 
      destruct (p q), (p z); reflexivity. }
  rewrite Hforall. cbn [forallb]. unfold id_neq.
  rewrite (Qeq_bool_comm (id x) (id y)).
  destruct (negb (Qeq_bool (id y) (id x))), (forallb _ l), (forallb _ l), (distinct_ids l);
    reflexivity.
Qed.

Lemma distinct_ids_sort (l : list QueueItem) :
  distinct_ids (sort_newest_first l) = distinct_ids l.
Proof.
  induction l as [| x l IH]; [ reflexivity | ].
  rewrite sort_cons, distinct_ids_insert. cbn [distinct_ids]. rewrite IH.
  f_equal. clear.
  induction l as [| y l IHl]; [ reflexivity | ].
  rewrite sort_cons.
  assert (Hforall : forall p q r, forallb p (insert_by_createdAt q r) = p q && forallb p r).
  { intros p q r. induction r as [| z r IHr]; [ reflexivity | ].
    cbn. destruct (createdAt q <? createdAt z); cbn; [ rewrite IHr | ];
      destruct (p q), (p z); reflexivity. }
  rewrite Hforall, IHl. reflexivity.
Qed.


Lemma delivery_succeeds (item : QueueItem) (w : World) :
  server_answers_ok w -> success (next_delivery item w) = true.
Proof.
  intros Hup. unfold next_delivery, eval, retryQueuedNote, bind, fetch.
  rewrite (Hup (network_calls w)). reflexivity.
Qed.

Lemma retryQueueItem_settles (item : QueueItem) (w : World) :
  server_answers_ok w ->
  stored_item (id item) w = Some item ->
  let w' := exec (retryQueueItem item) w in
  (exists record', stored_item (id item) w' = Some record'
                   /\ settled (strategy_of w) item record')
  /\ timers w' = timers w.
Proof.
  intros Hup Hstored w'. subst w'. unfold settled.
  rewrite retryQueueItem_exec.
  destruct (shouldRetry (retryCount item) (strategy_of w)) eqn:Hgo; cbn [negb].
  - cbv zeta.
    set (w1 := exec (updateItem (id item) upd_retrying) w).
    destruct (updateItem_spec (id item) upd_retrying w eq_refl)
      as [_ [_ [_ [Hnet [Hcalls [Htimers _]]]]]].
    fold w1 in Hnet, Hcalls, Htimers.
    rewrite (next_delivery_frame item w w1 Hnet Hcalls), (delivery_succeeds item w Hup).
    set (w2 := with_network_calls (S (network_calls w1)) w1).
    destruct (updateItem_spec (id item) upd_success w2 eq_refl) as [_ [_ [_ [_ [_ [Htimers' _]]]]]].
    split.
    + rewrite updateItem_stored_item by reflexivity.
      change (stored_item (id item) w2) with (stored_item (id item) w1).
      unfold w1. rewrite updateItem_stored_item, Hstored by reflexivity. cbn.
      eexists. repeat split.
    + rewrite Htimers'. unfold w2. cbn. exact Htimers.
  - destruct (updateItem_spec (id item) upd_failed w eq_refl) as [_ [_ [_ [_ [_ [Htimers _]]]]]].
    split; [ | exact Htimers ].
    rewrite updateItem_stored_item, Hstored by reflexivity. cbn.
    eexists. repeat split.
Qed.

Lemma distinct_head (item other : QueueItem) (rest : list QueueItem) :
  distinct_ids (item :: rest) = true -> In other rest ->
  id_eq (id other) (id item) = false.
Proof.
  cbn. intros H Hin. apply andb_true_iff in H. destruct H as [H _].
  rewrite forallb_forall in H. specialize (H other Hin). unfold id_neq in H.
  unfold id_eq. destruct (Qeq_bool (id other) (id item)); [ discriminate | reflexivity ].
Qed.

Lemma for_each_settles (items : list QueueItem) (w : World) :
  distinct_ids items = true ->
  server_answers_ok w ->
  (forall item, In item items -> stored_item (id item) w = Some item) ->
  let w' := exec (for_each items) w in
  (forall item, In item items ->
     exists record', stored_item (id item) w' = Some record'
                     /\ settled (strategy_of w) item record')
  /\ timers w' = timers w.
Proof.
  revert w. induction items as [| item rest IH]; intros w Hdistinct Hup Hstored; cbv zeta.
  - split; [ intros ? [] | reflexivity ].
  - change (for_each (item :: rest))
      with (bind (retryQueueItem item) (fun _ => for_each rest)).
    rewrite exec_bind.
    set (w1 := exec (retryQueueItem item) w).
    destruct (retryQueueItem_settles item w Hup (Hstored item (or_introl eq_refl)))
      as [[record' [Hrecord Hsettled]] Htimers].
    fold w1 in Hrecord, Htimers.
    assert (Hstrategy : strategy_of w1 = strategy_of w)
      by (unfold strategy_of, w1; rewrite retryQueueItem_settings; reflexivity).
    assert (Hup1 : server_answers_ok w1)
      by (intros k; unfold w1; rewrite retryQueueItem_network; apply Hup).
    assert (Hrest : distinct_ids rest = true)
      by (cbn in Hdistinct; apply andb_true_iff in Hdistinct; tauto).
    assert (Hstored1 : forall other, In other rest -> stored_item (id other) w1 = Some other).
    { intros other Hin. rewrite <- (Hstored other (or_intror Hin)).
      apply (same_outside_find (fun i => id_eq i (id item))); 
        [ apply retryQueueItem_same_outside | ].
      intros x _ Hx.
      rewrite id_eq_sym, (id_eq_congr (id x) (id other) (id item) Hx), id_eq_sym.
      apply (distinct_head item other rest Hdistinct Hin). }
    destruct (IH w1 Hrest Hup1 Hstored1) as [Hothers Htimers1].
    rewrite Hstrategy in Hothers.
    split; [ | rewrite Htimers1; exact Htimers ].
    intros x [<- | Hin]; [ | apply Hothers; exact Hin ].
    exists record'. split; [ | exact Hsettled ].
    rewrite <- Hrecord.
    apply (same_outside_find (ids_of rest)); [ apply for_each_same_outside | ].
    intros x _ Hx. unfold ids_of.
    destruct (existsb _ rest) eqn:Hexists; [ | reflexivity ].
    apply existsb_exists in Hexists. destruct Hexists as [other [Hin Hother]].
    pose proof (distinct_head item other rest Hdistinct Hin) as Hapart.
    rewrite id_eq_sym in Hother.
    rewrite (id_eq_trans _ _ _ Hother Hx) in Hapart. discriminate.
Qed.


Lemma same_outside_forallb (touched : Q -> bool) (p : Q -> bool) (l l' : list QueueItem) :
  same_outside touched l l' ->
  forallb (fun x => p (id x)) l' = forallb (fun x => p (id x)) l.
Proof.
  intros H. induction H as [| x y l l' [Hid _] _ IH]; [ reflexivity | ].
  cbn. rewrite Hid, IH. reflexivity.
Qed.

Lemma same_outside_distinct (touched : Q -> bool) (l l' : list QueueItem) :
  same_outside touched l l' -> distinct_ids l' = distinct_ids l.
Proof.
  intros H. induction H as [| x y l l' [Hid Hsame] Hrest IH]; [ reflexivity | ].
  cbn [distinct_ids]. rewrite IH, Hid.
  rewrite (same_outside_forallb touched (fun i => id_neq i (id x)) l l' Hrest).
  reflexivity.
Qed.

Lemma same_outside_pairs (touched : Q -> bool) (l l' : list QueueItem) :
  same_outside touched l l' ->
  forall x', In x' l' ->
             exists x, In x l /\ id x' = id x /\ (touched (id x) = false -> x' = x).
Proof.
  intros H. induction H as [| x y l l' [Hid Hsame] _ IH].
  - intros ? [].
  - intros x' [<- | Hin].
    + exists x. split; [ left; reflexivity | split; [ exact Hid | exact Hsame ] ].
    + destruct (IH x' Hin) as [z [Hz Hrest]].
      exists z. split; [ right; exact Hz | exact Hrest ].
Qed.

Lemma not_live_terminal (item : QueueItem) : live item = false -> terminal item = true.
Proof. unfold terminal, live. destruct (status item); cbn; congruence. Qed.

Lemma settled_terminal (strategy : option string) (item record : QueueItem) :
  settled strategy item record -> terminal record = true.
Proof.
  unfold settled, terminal. intros [_ [_ H]].
  destruct (shouldRetry (retryCount item) strategy); destruct H as [-> _]; reflexivity.
Qed.

Lemma routed_frame (w : World) :
  strategy_of (routed w) = strategy_of w
  /\ timers (routed w) = timers w
  /\ network (routed w) = network w.
Proof. flags w; repeat split. Qed.

(** A driver pass with the server up settles the whole queue.  When no
    two stored records share an id and every request is answered [ok] with
    a JSON body, each record that was [pending] or [retrying] ends as
    [success] with an empty [lastError] if it had retries left, and as
    [failed] with the max-retries message if not, its [retryCount] and all
    it carries unchanged; no record of the store is left [pending] or
    [retrying], and the pass sets no timer. *)
Theorem pass_with_the_server_up_settles_the_queue (w : World) :
  distinct_ids (stored_queue w) = true ->
  server_answers_ok w ->
  let w' := exec processQueueOnStartup w in
  (forall item, In item (stored_queue w) -> live item = true ->
     exists record', stored_item (id item) w' = Some record'
                     /\ settled (strategy_of w) item record')
  /\ forallb terminal (stored_queue w') = true
  /\ timers w' = timers w.
Proof.
  intros Hdistinct Hup w'. subst w'. rewrite processQueueOnStartup_exec.
  set (items := filter live (sort_newest_first (stored_queue w))).
  assert (Hitems : forall item, In item items <-> In item (stored_queue w) /\ live item = true).
  { intros item. unfold items. rewrite filter_In, In_sort. reflexivity. }
  destruct (routed_frame w) as [Hstrategy [Htimers0 Hnetwork]].
  assert (Hup0 : server_answers_ok (routed w)).
  { intros k. rewrite Hnetwork. apply Hup. }
  assert (Hdistinct0 : distinct_ids items = true).
  { unfold items. apply distinct_ids_filter. rewrite distinct_ids_sort. exact Hdistinct. }
  assert (Hstored0 : forall item, In item items -> stored_item (id item) (routed w) = Some item).
  { intros item Hin. apply Hitems in Hin. unfold stored_item.
    rewrite routed_stored_queue. apply find_distinct; tauto. }
  destruct (for_each_settles items (routed w) Hdistinct0 Hup0 Hstored0) as [Hsettled Htimers].
  rewrite Hstrategy in Hsettled.
  pose proof (for_each_same_outside items (routed w)) as Hframe.
  rewrite routed_stored_queue in Hframe.
  set (w' := exec (for_each items) (routed w)) in *.
  split; [ | split ].
  - intros item Hin Hlive. apply Hsettled, Hitems. tauto.
  - pose proof (same_outside_distinct _ _ _ Hframe) as Hdistinct'.
    rewrite Hdistinct in Hdistinct'.
    assert (Hpairs : forall x', In x' (stored_queue w') ->
                                exists x, In x (stored_queue w) /\ id x' = id x
                                          /\ (ids_of items (id x) = false -> x' = x)).
    { intros x' Hin'. exact (same_outside_pairs _ _ _ Hframe x' Hin'). }
    apply forallb_forall. intros x' Hin'.
    destruct (Hpairs x' Hin') as [x [Hin [Hid Hsame]]].
    destruct (live x) eqn:Hlive.
    + destruct (Hsettled x (proj2 (Hitems x) (conj Hin Hlive))) as [record' [Hrecord Hdone]].
      unfold stored_item in Hrecord. rewrite <- Hid in Hrecord.
      rewrite (find_distinct _ x' Hdistinct' Hin') in Hrecord.
      injection Hrecord as ->. exact (settled_terminal _ _ _ Hdone).
    + rewrite Hsame; [ apply not_live_terminal; exact Hlive | ].
      unfold ids_of. destruct (existsb _ items) eqn:Hexists; [ | reflexivity ].
      apply existsb_exists in Hexists. destruct Hexists as [other [Hother Hsameid]].
      apply Hitems in Hother. destruct Hother as [Hother Hotherlive].
      rewrite (distinct_ids_same _ x other Hdistinct Hin Hother Hsameid) in Hlive.
      congruence.
  - rewrite Htimers. exact Htimers0.
Qed.

(** The theorem on a store of a delivered item, a waiting one and one
    out of retries. *)
Lemma pass_with_the_server_up_settles_the_queue_witness :
  let w' := exec processQueueOnStartup Scenario.recovered_world in
  (forall item, In item (stored_queue Scenario.recovered_world) -> live item = true ->
     exists record', stored_item (id item) w' = Some record'
                     /\ settled (strategy_of Scenario.recovered_world) item record')
  /\ forallb terminal (stored_queue w') = true
  /\ timers w' = timers Scenario.recovered_world.
Proof.
  apply (pass_with_the_server_up_settles_the_queue Scenario.recovered_world);
    [ reflexivity | intros k; reflexivity ].
Defined.

End PassFacts.

(** ** [compareVersions] *)

Module VersionFacts.
Import Js Model Background Spec.

Lemma Finite_lt (p q : Q) : number_lt (Finite p) (Finite q) = true <-> (p < q)%Q.
Proof.
  cbn. rewrite negb_true_iff. split.
  - intros H. apply Qnot_le_lt. intros Hle. apply Qle_bool_iff in Hle. congruence.
  - intros H. destruct (Qle_bool q p) eqn:Hle; [ | reflexivity ].
    apply Qle_bool_iff in Hle. exfalso. exact (Qlt_not_le _ _ H Hle).
Qed.

Lemma number_lt_asym (a b : JsNumber) : number_lt a b = true -> number_lt b a = false.
Proof.
  destruct a as [| p | |], b as [| q | |]; try (cbn; congruence).
  intros H. apply Finite_lt in H.
  destruct (number_lt (Finite q) (Finite p)) eqn:H'; [ | reflexivity ].
  apply Finite_lt in H'. exfalso. exact (Qlt_irrefl _ (Qlt_trans _ _ _ H H')).
Qed.

Lemma or_zero_is_number (a : option JsNumber) : is_number (or_zero a) = true.
Proof. destruct a as [[| q | |] |]; cbn; try reflexivity. destruct (Qeq_bool q 0); reflexivity. Qed.

(** [<] is a strict weak order on what is not [NaN]: when [a] is below
    [b], any number [c] is above [a] or below [b]. *)
Lemma number_lt_between (a b c : JsNumber) :
  is_number c = true ->
  number_lt a b = true -> number_lt a c = true \/ number_lt c b = true.
Proof.
  destruct a as [| p | |], b as [| q | |], c as [| r | |];
    try (cbn; intros; (discriminate || (left; reflexivity) || (right; reflexivity))).
  intros _ H. apply Finite_lt in H.
  destruct (Qlt_le_dec p r) as [Hpr | Hrp].
  - left. apply Finite_lt. exact Hpr.
  - right. apply Finite_lt. exact (Qle_lt_trans _ _ _ Hrp H).
Qed.

Lemma number_lt_trans (a b c : JsNumber) :
  number_lt a b = true -> number_lt b c = true -> number_lt a c = true.
Proof.
  destruct a as [| p | |], b as [| q | |], c as [| r | |];
    try (cbn; intros; (discriminate || reflexivity)).
  intros H H'. apply Finite_lt in H, H'. apply Finite_lt. exact (Qlt_trans _ _ _ H H').
Qed.

Lemma part_beyond (parts : list JsNumber) (i : nat) :
  (List.length parts <= i)%nat -> or_zero (nth_error parts i) = Finite 0.
Proof. intros H. apply nth_error_None in H. rewrite H. reflexivity. Qed.

Lemma compare_from_beyond (parts1 parts2 : list JsNumber) (steps i : nat) :
  (List.length parts1 <= i)%nat -> (List.length parts2 <= i)%nat ->
  compare_from parts1 parts2 i steps = 0.
Proof.
  revert i. induction steps as [| rounds IH]; intros i H1 H2; [ reflexivity | ].
  cbn [compare_from]. rewrite (part_beyond parts1 i H1), (part_beyond parts2 i H2).
  cbn. apply IH; lia.
Qed.

(** Rounds past the longer array change nothing. *)
Lemma compare_from_more (parts1 parts2 : list JsNumber) (steps more i : nat) :
  (Nat.max (List.length parts1) (List.length parts2) <= i + steps)%nat ->
  compare_from parts1 parts2 i (steps + more) = compare_from parts1 parts2 i steps.
Proof.
  revert i. induction steps as [| rounds IH]; intros i Hlen.
  - cbn [Nat.add compare_from]. apply compare_from_beyond; lia.
  - cbn [Nat.add compare_from].
    destruct (number_lt _ _); [ reflexivity | ].
    destruct (number_gt _ _); [ reflexivity | ].
    apply IH. lia.
Qed.

Lemma compare_from_swap (parts1 parts2 : list JsNumber) (steps i : nat) :
  compare_from parts2 parts1 i steps = - compare_from parts1 parts2 i steps.
Proof.
  revert i. induction steps as [| rounds IH]; intros i; [ reflexivity | ].
  cbn [compare_from]. unfold number_gt.
  destruct (number_lt (or_zero (nth_error parts1 i)) (or_zero (nth_error parts2 i))) eqn:H12.
  - rewrite (number_lt_asym _ _ H12). reflexivity.
  - destruct (number_lt (or_zero (nth_error parts2 i)) (or_zero (nth_error parts1 i)));
      [ reflexivity | apply IH ].
Qed.

Lemma compare_from_range (parts1 parts2 : list JsNumber) (steps i : nat) :
  compare_from parts1 parts2 i steps = -1
  \/ compare_from parts1 parts2 i steps = 0
  \/ compare_from parts1 parts2 i steps = 1.
Proof.
  revert i. induction steps as [| rounds IH]; intros i; [ right; left; reflexivity | ].
  cbn [compare_from].
  destruct (number_lt _ _); [ left; reflexivity | ].
  destruct (number_gt _ _); [ right; right; reflexivity | apply IH ].
Qed.

(** [compareVersions] is antisymmetric: swapping the versions negates
    the answer, which is [-1], [0] or [1]; a version compared with itself
    gives [0].  This holds whatever [Number] makes of the parts. *)
Theorem compareVersions_antisymmetric (Number : string -> JsNumber) (v1 v2 : string) :
  compareVersions Number v2 v1 = - compareVersions Number v1 v2
  /\ (compareVersions Number v1 v2 = -1
      \/ compareVersions Number v1 v2 = 0
      \/ compareVersions Number v1 v2 = 1)
  /\ compareVersions Number v1 v1 = 0.
Proof.
  unfold compareVersions. cbv zeta. split; [ | split ].
  - rewrite Nat.max_comm. apply compare_from_swap.
  - apply compare_from_range.
  - pose proof (compare_from_swap (map Number (split_dot v1)) (map Number (split_dot v1))
                                  (Nat.max (List.length (map Number (split_dot v1)))
                                           (List.length (map Number (split_dot v1)))) 0).
    lia.
Qed.

(** The loop answers [-1] exactly when it meets a part of the first
    array below its counterpart before any other difference. *)
Lemma compare_from_below (parts1 parts2 : list JsNumber) (steps i : nat) :
  compare_from parts1 parts2 i steps = -1
  <-> exists k, (k < steps)%nat
                /\ (forall j, (j < k)%nat ->
                      number_lt (or_zero (nth_error parts1 (i + j)))
                                (or_zero (nth_error parts2 (i + j))) = false
                      /\ number_lt (or_zero (nth_error parts2 (i + j)))
                                   (or_zero (nth_error parts1 (i + j))) = false)
                /\ number_lt (or_zero (nth_error parts1 (i + k)))
                             (or_zero (nth_error parts2 (i + k))) = true.
Proof.
  revert i. induction steps as [| rounds IH]; intros i.
  - cbn. split; [ discriminate | intros [k [Hk _]]; lia ].
  - cbn [compare_from]. unfold number_gt.
    destruct (number_lt (or_zero (nth_error parts1 i)) (or_zero (nth_error parts2 i)))
      eqn:H12.
    + split; [ intros _ | reflexivity ].
      exists 0%nat. rewrite Nat.add_0_r. split; [ lia | ]. split; [ intros j Hj; lia | exact H12 ].
    + destruct (number_lt (or_zero (nth_error parts2 i)) (or_zero (nth_error parts1 i)))
        eqn:H21.
      * split; [ discriminate | ].
        intros [k [Hk [Hlevel Hbelow]]]. destruct k as [| k].
        -- rewrite Nat.add_0_r in Hbelow. congruence.
        -- destruct (Hlevel 0%nat ltac:(lia)) as [_ H]. rewrite Nat.add_0_r in H. congruence.
      * rewrite IH. split.
        -- intros [k [Hk [Hlevel Hbelow]]]. exists (S k). split; [ lia | ].
           rewrite Nat.add_succ_r. split; [ | exact Hbelow ].
           intros j Hj. destruct j as [| j].
           ++ rewrite Nat.add_0_r. split; assumption.
           ++ rewrite Nat.add_succ_r. apply Hlevel. lia.
        -- intros [k [Hk [Hlevel Hbelow]]]. destruct k as [| k].
           ++ rewrite Nat.add_0_r in Hbelow. congruence.
           ++ exists k. split; [ lia | ].
              rewrite Nat.add_succ_r in Hbelow. split; [ | exact Hbelow ].
              intros j Hj. specialize (Hlevel (S j) ltac:(lia)).
              rewrite Nat.add_succ_r in Hlevel. exact Hlevel.
Qed.

(** [compareVersions] is decided by the first parts that differ.  The
    answer is [-1] exactly when some part of [v1] is below its counterpart
    in [v2] and all parts before it are level, a part read as [0] where a
    version has none or where [Number] gives [0] or [NaN]. *)
Theorem compareVersions_first_difference (Number : string -> JsNumber) (v1 v2 : string) :
  compareVersions Number v1 v2 = -1
  <-> exists i, (forall j, (j < i)%nat -> level Number v1 v2 j)
                /\ number_lt (version_part Number v1 i) (version_part Number v2 i) = true.
Proof.
  unfold compareVersions, level, version_part. cbv zeta.
  set (parts1 := map Number (split_dot v1)). set (parts2 := map Number (split_dot v2)).
  rewrite compare_from_below. cbn [Nat.add]. split.
  - intros [k [_ H]]. exists k. exact H.
  - intros [k [Hlevel Hbelow]]. exists k. split; [ | split; assumption ].
    destruct (Nat.lt_ge_cases k (Nat.max (List.length parts1) (List.length parts2)))
      as [Hk | Hk]; [ exact Hk | ].
    rewrite (part_beyond parts1 k), (part_beyond parts2 k) in Hbelow by lia.
    discriminate.
Qed.

(** The order of the loop is transitive at a common number of rounds. *)
Lemma compare_from_trans (parts1 parts2 parts3 : list JsNumber) (steps i : nat) :
  compare_from parts1 parts2 i steps <= 0 ->
  compare_from parts2 parts3 i steps <= 0 ->
  compare_from parts1 parts3 i steps <= 0.
Proof.
  revert i. induction steps as [| rounds IH]; intros i; [ cbn; lia | ].
  cbn [compare_from]. unfold number_gt.
  set (a := or_zero (nth_error parts1 i)).
  set (b := or_zero (nth_error parts2 i)).
  set (c := or_zero (nth_error parts3 i)).
  pose proof (or_zero_is_number (nth_error parts1 i)) as Ha. fold a in Ha.
  pose proof (or_zero_is_number (nth_error parts2 i)) as Hb. fold b in Hb.
  pose proof (or_zero_is_number (nth_error parts3 i)) as Hc. fold c in Hc.
  destruct (number_lt a b) eqn:Hab.
  - intros _.
    destruct (number_lt b c) eqn:Hbc.
    + rewrite (number_lt_trans a b c Hab Hbc). lia.
    + destruct (number_lt c b) eqn:Hcb; [ lia | ].
      destruct (number_lt_between a b c Hc Hab) as [H | H]; [ rewrite H; lia | congruence ].
  - destruct (number_lt b a) eqn:Hba; [ lia | ]. intros H12.
    destruct (number_lt b c) eqn:Hbc.
    + destruct (number_lt_between b c a Ha Hbc) as [H | H]; [ congruence | rewrite H; lia ].
    + destruct (number_lt c b) eqn:Hcb; [ lia | ]. intros H23.
      destruct (number_lt a c) eqn:Hac; [ lia | ].
      destruct (number_lt c a) eqn:Hca; [ | apply IH; assumption ].
      destruct (number_lt_between c a b Hb Hca); congruence.
Qed.

(** [compareVersions] is transitive: if it does not put [v1] above [v2]
    nor [v2] above [v3], it does not put [v1] above [v3], however many
    parts each version has. *)
Theorem compareVersions_transitive (Number : string -> JsNumber) (v1 v2 v3 : string) :
  compareVersions Number v1 v2 <= 0 ->
  compareVersions Number v2 v3 <= 0 ->
  compareVersions Number v1 v3 <= 0.
Proof.
  unfold compareVersions. cbv zeta.
  set (parts1 := map Number (split_dot v1)).
  set (parts2 := map Number (split_dot v2)).
  set (parts3 := map Number (split_dot v3)).
  set (n1 := List.length parts1). set (n2 := List.length parts2).
  set (n3 := List.length parts3).
  set (rounds := Nat.max n1 (Nat.max n2 n3)).
  assert (H12 : compare_from parts1 parts2 0 rounds = compare_from parts1 parts2 0 (Nat.max n1 n2)).
  { replace rounds with (Nat.max n1 n2 + (rounds - Nat.max n1 n2))%nat by (unfold rounds; lia).
    apply compare_from_more. fold n1 n2. lia. }
  assert (H23 : compare_from parts2 parts3 0 rounds = compare_from parts2 parts3 0 (Nat.max n2 n3)).
  { replace rounds with (Nat.max n2 n3 + (rounds - Nat.max n2 n3))%nat by (unfold rounds; lia).
    apply compare_from_more. fold n2 n3. lia. }
  assert (H13 : compare_from parts1 parts3 0 rounds = compare_from parts1 parts3 0 (Nat.max n1 n3)).
  { replace rounds with (Nat.max n1 n3 + (rounds - Nat.max n1 n3))%nat by (unfold rounds; lia).
    apply compare_from_more. fold n1 n3. lia. }
  rewrite <- H12, <- H23, <- H13. apply compare_from_trans.
Qed.

(** The theorem on 1.2, 1.10 and 2, read as decimal numerals. *)
Lemma compareVersions_transitive_witness :
  compareVersions Scenario.decimal_Number "1.2" "2" <= 0.
Proof.
  apply (compareVersions_transitive Scenario.decimal_Number "1.2" "1.10" "2");
    vm_compute; discriminate.
Defined.

End VersionFacts.

(** ** Settings *)

Module SettingsFacts.
Import Js Model OfflineQueue ApiClient Background Policy Spec QueueFacts.

Lemma saveQueueSettings_exec (settings : QueueSettings) (w : World) :
  exec (saveQueueSettings settings) w = with_settings_slot (Some settings) w.
Proof. reflexivity. Qed.

Lemma saved_limit (settings : QueueSettings) (w : World) :
  limit (with_settings_slot (Some settings) w) = limit_of (Some settings).
Proof. destruct w. reflexivity. Qed.

Lemma saved_stored_queue (settings : QueueSettings) (w : World) :
  stored_queue (with_settings_slot (Some settings) w) = stored_queue w.
Proof. destruct w. reflexivity. Qed.

(** Saving a lower [maxSize] evicts nothing and closes the queue.  When
    the stored items are as many as the limit being saved or more, the
    limit being the [maxSize] of the settings, or 100 where they have none
    or a [maxSize] of 0, [saveQueueSettings] answers [true] and leaves
    every record in place, and the next [enqueue] is refused with the
    queue-full message that names the new limit, the store unchanged. *)
Theorem lowered_limit_blocks_without_evicting
        (settings : QueueSettings) (request : NoteRequest) (w : World) :
  limit_of (Some settings) <= queue_size w ->
  let w1 := exec (saveQueueSettings settings) w in
  eval (saveQueueSettings settings) w = true
  /\ stored_queue w1 = stored_queue w
  /\ limit w1 = limit_of (Some settings)
  /\ eval (enqueue request) w1 = Rejected (msg_queue_full (limit_of (Some settings)))
  /\ stored_queue (exec (enqueue request) w1) = stored_queue w.
Proof.
  intros Hfull w1. subst w1. rewrite saveQueueSettings_exec.
  split; [ reflexivity | ]. split; [ exact (saved_stored_queue settings w) | ].
  split; [ exact (saved_limit settings w) | ].
  destruct (enqueue_spec request (with_settings_slot (Some settings) w)) as [_ [_ Hcases]].
  rewrite max_size_limit in Hcases.
  unfold queue_size in Hcases. rewrite saved_limit, saved_stored_queue in Hcases.
  fold (queue_size w) in Hcases.
  destruct (queue_size w >=? limit_of (Some settings)) eqn:Hge; [ | lia ].
  destruct Hcases as [Hresult Hstore]. split; [ exact Hresult | ].
  rewrite Hstore. exact (saved_stored_queue settings w).
Qed.

(** The theorem on a store of three, the limit lowered to two. *)
Lemma lowered_limit_blocks_without_evicting_witness :
  let settings := Scenario.settings_with (Some 2) (Some "standard") in
  let w1 := exec (saveQueueSettings settings) Scenario.retention_world in
  eval (saveQueueSettings settings) Scenario.retention_world = true
  /\ stored_queue w1 = stored_queue Scenario.retention_world
  /\ limit w1 = 2
  /\ eval (enqueue (Scenario.note "d")) w1 = Rejected "队列已满（2条），请清理后重试"
  /\ stored_queue (exec (enqueue (Scenario.note "d")) w1)
     = stored_queue Scenario.retention_world.
Proof.
  intros settings.
  apply (lowered_limit_blocks_without_evicting settings (Scenario.note "d")
                                               Scenario.retention_world).
  vm_compute. discriminate.
Defined.

End SettingsFacts.
